(** * osi3trace: indexed reading of OSI trace files

    A shallow embedding of [osi3trace/osi_trace.py] (the flat, length-prefixed
    single-channel reader [_OSITraceSingle], the multi-channel reader
    [_OSITraceMulti] and the [OSITrace] facade) and of
    [osi3trace/indexed_mcap_reader.py] (the chunked [IndexedSeekingReader]),
    with the properties of the trace-reading specification stated over it. *)

From Stdlib Require Import ZArith Lia.
From Stdlib Require Strings.Byte.
From stdpp Require Import gmap list strings.

Local Open Scope Z_scope.

(** ** Python values shared by both readers *)

Abbreviation byte := Init.Byte.byte.

(** The exceptions the modelled code can raise. *)
Inductive Exn :=
| IndexError
| KeyError
| OSError
| AttributeError
| NotImplementedError
| DecoderNotFoundError
| McapError.

(** Outcome of a call: a value, a raised exception, or a loop that did not
    finish within the fuel it was given. *)
Inductive Result (A : Type) :=
| Ok (a : A)
| Raise (e : Exn)
| OutOfFuel.
Arguments Ok {A} a.
Arguments Raise {A} e.
Arguments OutOfFuel {A}.

(** [len(l)] *)
Definition len {A} (l : list A) : Z := Z.of_nat (length l).

(** [l[i]] with Python's negative indices; [None] stands for [IndexError]. *)
Definition py_index {A} (l : list A) (i : Z) : option A :=
  if i <? 0 then
    if i <? - len l then None else l !! Z.to_nat (len l + i)
  else l !! Z.to_nat i.

(** [l.pop()] on a list: the list without its last element. *)
Definition py_pop {A} (l : list A) : list A := take (length l - 1)%nat l.

(** ** The flat trace format

    A flat trace is a sequence of records, each a 4-byte little-endian
    unsigned length followed by that many payload bytes. *)

Definition byte_to_Z (b : byte) : Z := Z.of_N (Byte.to_N b).

Definition byte_of_Z (z : Z) : byte :=
  match Byte.of_N (Z.to_N (z mod 256)) with
  | Some b => b
  | None => Byte.x00
  end.

(** [struct.unpack("<L", header)[0]] on a 4-byte header. *)
Definition unpack_le32 (header : list byte) : Z :=
  match header with
  | [b0; b1; b2; b3] =>
      byte_to_Z b0 + Z.shiftl (byte_to_Z b1) 8
      + Z.shiftl (byte_to_Z b2) 16 + Z.shiftl (byte_to_Z b3) 24
  | _ => 0
  end.

(** [struct.pack("<L", n)], the writer's side of the length prefix. *)
Definition pack_le32 (n : Z) : list byte :=
  [byte_of_Z n; byte_of_Z (Z.shiftr n 8);
   byte_of_Z (Z.shiftr n 16); byte_of_Z (Z.shiftr n 24)].

(** One record on disk, and a whole trace. *)
Definition frame (payload : list byte) : list byte :=
  pack_le32 (len payload) ++ payload.

Definition flat_trace (payloads : list (list byte)) : list byte :=
  concat (frame <$> payloads).

(** A payload fits the 32-bit length prefix. *)
Definition fits_prefix (payload : list byte) : Prop := len payload < 2 ^ 32.

(** Byte offsets of the record boundaries of a trace that starts at [o]:
    the start of every record, then the end of the last one. *)
Fixpoint boundaries_from (o : Z) (payloads : list (list byte)) : list Z :=
  match payloads with
  | [] => [o]
  | p :: rest => o :: boundaries_from (o + 4 + len p) rest
  end.

Definition boundaries (payloads : list (list byte)) : list Z :=
  boundaries_from 0 payloads.

(** ** The file object *)

(** A binary file opened for reading: its bytes, the stream position, and
    whether it was opened through [lzma.open] (whose [seek] cannot move past
    the end of the data) or through [open]. *)
Record File := mkFile {
  f_data : list byte;
  f_pos : Z;
  f_lzma : bool;
}.

Definition f_size (f : File) : Z := len (f_data f).

Definition set_pos (p : Z) (f : File) : File :=
  {| f_data := f_data f; f_pos := p; f_lzma := f_lzma f |}.

(** [f.read(n)]: up to [n] bytes from the current position. *)
Definition f_read (n : Z) (f : File) : list byte * File :=
  let bs := take (Z.to_nat n) (drop (Z.to_nat (f_pos f)) (f_data f)) in
  (bs, set_pos (f_pos f + len bs) f).

(** [f.seek(off, 0)]: a negative target is rejected; a compressed stream
    stops at the end of its data. *)
Definition f_seek (off : Z) (f : File) : Exn + File :=
  if off <? 0 then inl OSError
  else inr (set_pos (if f_lzma f then Z.min off (f_size f) else off) f).

(** [f.seek(0, 2)] *)
Definition f_seek_end (f : File) : File := set_pos (f_size f) f.

(** ** The single-channel reader [_OSITraceSingle] *)

(** A decoded message: the protobuf object obtained by [ParseFromString]
    on a payload.  Decoding is an external service; the object is identified
    by the bytes it was parsed from. *)
Inductive Message := ParseFromString (message_data : list byte).

(** What [retrieve_message] can return: [None], a message, or (when
    skipping) an offset. *)
Inductive PyVal :=
| PNone
| PMsg (m : Message)
| PInt (z : Z).

Record Reader := mkReader {
  file : File;
  current_index : Z;
  message_offsets : list Z;
  read_complete : bool;
  message_cache : option (gmap Z Message);
}.

(** *** A state-and-exception monad over the reader *)

Definition M (A : Type) : Type := Reader -> Result A * Reader.

Definition ret {A} (a : A) : M A := fun s => (Ok a, s).
Definition raise {A} (e : Exn) : M A := fun s => (Raise e, s).
Definition bind {A B} (m : M A) (k : A -> M B) : M B :=
  fun s =>
    match m s with
    | (Ok a, s') => k a s'
    | (Raise e, s') => (Raise e, s')
    | (OutOfFuel, s') => (OutOfFuel, s')
    end.

Notation "x <- m ;; k" := (bind m (fun x => k))
  (at level 100, m at next level, right associativity).
Notation "m ;;; k" := (bind m (fun _ => k))
  (at level 100, right associativity).

Definition gets {A} (f : Reader -> A) : M A := fun s => (Ok (f s), s).

Definition set_file (f : File) : M unit := fun s =>
  (Ok tt, {| file := f; current_index := current_index s;
             message_offsets := message_offsets s;
             read_complete := read_complete s;
             message_cache := message_cache s |}).

Definition set_current_index (i : Z) : M unit := fun s =>
  (Ok tt, {| file := file s; current_index := i;
             message_offsets := message_offsets s;
             read_complete := read_complete s;
             message_cache := message_cache s |}).

Definition set_message_offsets (l : list Z) : M unit := fun s =>
  (Ok tt, {| file := file s; current_index := current_index s;
             message_offsets := l;
             read_complete := read_complete s;
             message_cache := message_cache s |}).

Definition set_read_complete (b : bool) : M unit := fun s =>
  (Ok tt, {| file := file s; current_index := current_index s;
             message_offsets := message_offsets s;
             read_complete := b;
             message_cache := message_cache s |}).

Definition set_message_cache (c : option (gmap Z Message)) : M unit := fun s =>
  (Ok tt, {| file := file s; current_index := current_index s;
             message_offsets := message_offsets s;
             read_complete := read_complete s;
             message_cache := c |}).

(** [self.message_offsets[i]] *)
Definition offset_at (i : Z) : M Z := fun s =>
  match py_index (message_offsets s) i with
  | Some o => (Ok o, s)
  | None => (Raise IndexError, s)
  end.

(** [self.file.seek(off, 0)] *)
Definition file_seek (off : Z) : M unit := fun s =>
  match f_seek off (file s) with
  | inr f => set_file f s
  | inl e => (Raise e, s)
  end.

(** [self.file.seek(off, 1)], which returns the new position. *)
Definition file_seek_cur (off : Z) : M Z :=
  p <- gets (fun s => f_pos (file s)) ;;
  file_seek (p + off) ;;;
  gets (fun s => f_pos (file s)).

(** [self.file.seek(0, 2)] *)
Definition file_seek_end : M unit := fun s => set_file (f_seek_end (file s)) s.

(** [self.file.tell()] *)
Definition file_tell : M Z := gets (fun s => f_pos (file s)).

(** [self.file.read(n)] *)
Definition file_read (n : Z) : M (list byte) := fun s =>
  let (bs, f) := f_read n (file s) in
  match set_file f s with (_, s') => (Ok bs, s') end.

(** *** The methods *)

Module _OSITraceSingle.

(** [self._header_length] *)
Definition _header_length : Z := 4.

(** [__init__] with a path: [data] is the content of the file, [lzma]
    tells whether it is opened through [lzma.open]. *)
Definition __init__ (data : list byte) (lzma cache_messages : bool) : Reader :=
  {| file := {| f_data := data; f_pos := 0; f_lzma := lzma |};
     current_index := 0;
     message_offsets := [0];
     read_complete := false;
     message_cache := if cache_messages then Some ∅ else None |}.

(** [index in self.message_cache], for a cache that is not [None]. *)
Definition cache_lookup (s : Reader) (i : Z) : option Message :=
  match message_cache s with
  | Some c => c !! i
  | None => None
  end.

(** The three places where a short read is met:
    [if start == self.message_offsets[-1]: pop; read_complete = True],
    then [seek(start)] and [return None]. *)
Definition end_of_stream (start : Z) : M PyVal :=
  last <- offset_at (-1) ;;
  (if start =? last then
     offs <- gets message_offsets ;;
     set_message_offsets (py_pop offs) ;;;
     set_read_complete true
   else ret tt) ;;;
  file_seek start ;;;
  ret PNone.

(** [retrieve_message], the branch taken when the current index is cached. *)
Definition cached_message (message : Message) (skip : bool) : M PyVal :=
  ci <- gets current_index ;;
  set_current_index (ci + 1) ;;;
  ci <- gets current_index ;;
  offs <- gets message_offsets ;;
  (if ci =? len offs then file_seek_end
   else o <- offset_at ci ;; file_seek o) ;;;
  if skip then o <- offset_at ci ;; ret (PInt o)
  else ret (PMsg message).

(** [retrieve_message] from [start = self.file.tell()] on: read the length
    prefix, then skip or read and decode the payload. *)
Definition read_record (skip : bool) : M PyVal :=
  start <- file_tell ;;
  header <- file_read _header_length ;;
  if len header <? _header_length then end_of_stream start
  else
    let message_length := unpack_le32 header in
    if skip then
      new_pos <- file_seek_cur message_length ;;
      if new_pos - start <? message_length + _header_length then
        end_of_stream start
      else
        ci <- gets current_index ;;
        set_current_index (ci + 1) ;;;
        last <- offset_at (-1) ;;
        (if start =? last then
           offs <- gets message_offsets ;;
           set_message_offsets (offs ++ [new_pos])
         else ret tt) ;;;
        ret (PInt new_pos)
    else
      message_data <- file_read message_length ;;
      if len message_data <? message_length then end_of_stream start
      else
        ci <- gets current_index ;;
        set_current_index (ci + 1) ;;;
        let message := ParseFromString message_data in
        last <- offset_at (-1) ;;
        (if start =? last then
           cache <- gets message_cache ;;
           offs <- gets message_offsets ;;
           (match cache with
            | Some c => set_message_cache (Some (<[len offs - 1 := message]> c))
            | None => ret tt
            end) ;;;
           pos <- file_tell ;;
           set_message_offsets (offs ++ [pos])
         else ret tt) ;;;
        ret (PMsg message).

(** [retrieve_message], the first statement: position the reader on
    [index] when one is given. *)
Definition seek_index (index : option Z) : M unit :=
  match index with
  | Some i =>
      set_current_index i ;;;
      o <- offset_at i ;;
      file_seek o
  | None => ret tt
  end.

(** [retrieve_message] after the optional seek: serve the message from the
    cache when the current index is cached, read it from the file
    otherwise. *)
Definition fetch (skip : bool) : M PyVal := fun s =>
  match cache_lookup s (current_index s) with
  | Some message => cached_message message skip s
  | None => read_record skip s
  end.

(** [retrieve_message(index=None, skip=False)] *)
Definition retrieve_message (index : option Z) (skip : bool) : M PyVal :=
  seek_index index ;;; fetch skip.

(** [retrieve_offsets(limit=None)]: the loop, with [fuel] bounding the number
    of iterations. *)
Fixpoint retrieve_offsets_loop (fuel : nat) (limit : option Z) : M unit :=
  fun s =>
    if negb (read_complete s)
       && (match limit with
           | None => true
           | Some l => (l =? 0) || (len (message_offsets s) <=? l)
           end)
    then
      match fuel with
      | O => (OutOfFuel, s)
      | S fuel' =>
          (retrieve_message None true ;;; retrieve_offsets_loop fuel' limit) s
      end
    else (Ok tt, s).

(** [retrieve_offsets(limit=None)]: unless the end of the stream was met,
    go to the last entry of the table, then skip records until the end or
    until the table has more than [limit] entries. *)
Definition retrieve_offsets (fuel : nat) (limit : option Z) : M (list Z) :=
  rc <- gets read_complete ;;
  (if negb rc then
     offs <- gets message_offsets ;;
     set_current_index (len offs - 1) ;;;
     last <- offset_at (-1) ;;
     file_seek last
   else ret tt) ;;;
  retrieve_offsets_loop fuel limit ;;;
  gets message_offsets.

(** [restart(index=None)] *)
Definition restart (index : option Z) : M unit :=
  set_current_index (match index with
                     | Some i => if i =? 0 then 0 else i
                     | None => 0
                     end) ;;;
  ci <- gets current_index ;;
  o <- offset_at ci ;;
  file_seek o.

(** Truth value of what [retrieve_message] returned. *)
Definition truthy (v : PyVal) : bool :=
  match v with
  | PNone => false
  | PMsg _ => true
  | PInt z => negb (z =? 0)
  end.

(** [__iter__], run until the generator is exhausted: the values it yields,
    in order. *)
Fixpoint __iter__ (fuel : nat) : M (list PyVal) :=
  match fuel with
  | O => fun s => (OutOfFuel, s)
  | S fuel' =>
      message <- retrieve_message None false ;;
      if truthy message then rest <- __iter__ fuel' ;; ret (message :: rest)
      else ret []
  end.

(** [get_message_by_index(index)] *)
Definition get_message_by_index (fuel : nat) (index : Z) : M PyVal :=
  offs <- gets message_offsets ;;
  (if len offs <=? index then retrieve_offsets fuel (Some index) ;;; ret tt
   else ret tt) ;;;
  s <- gets id ;;
  match cache_lookup s index with
  | Some message => ret (PMsg message)
  | None => retrieve_message (Some index) false
  end.


(** The [while] loop of [get_messages_in_index_range], run until the
    generator is exhausted; [end] may be [None]. *)
Fixpoint index_range_loop (fuel : nat) (current : Z) (end_ : option Z)
    : M (list PyVal) :=
  fun s =>
    if match end_ with None => true | Some e => current <? e end then
      match fuel with
      | O => (OutOfFuel, s)
      | S fuel' =>
          match cache_lookup s current with
          | Some message =>
              (rest <- index_range_loop fuel' (current + 1) end_ ;;
               ret (PMsg message :: rest)) s
          | None =>
              (message <- retrieve_message None false ;;
               match message with
               | PNone => ret []
               | _ =>
                   rest <- index_range_loop fuel' (current + 1) end_ ;;
                   ret (message :: rest)
               end) s
          end
      end
    else (Ok [], s).

(** [get_messages_in_index_range(begin, end)]: the values it yields. *)
Definition get_messages_in_index_range (fuel : nat) (begin : Z) (end_ : option Z)
    : M (list PyVal) :=
  offs <- gets message_offsets ;;
  (if len offs <=? begin then retrieve_offsets fuel (Some begin) ;;; ret tt
   else ret tt) ;;;
  restart (Some begin) ;;;
  index_range_loop fuel begin end_.

(** [get_messages()] *)
Definition get_messages (fuel : nat) : M (list PyVal) :=
  get_messages_in_index_range fuel 0 None.

End _OSITraceSingle.

(** ** The multi-channel reader [_OSITraceMulti] and the [OSITrace] facade *)

(** A record of an mcap file with the fields the readers use. *)
Record McapMessage := mkMcapMessage {
  channel_id : Z;
  log_time : Z;
  data : list byte;
}.

Record Schema := mkSchema {
  sch_id : Z;
  name : string;
  encoding : string;
}.

Record Channel := mkChannel {
  ch_id : Z;
  topic : string;
  message_encoding : string;
  schema_id : Z;
}.

Definition MessageTuple : Type := option Schema * Channel * McapMessage.

(** [_OSITraceMulti]: the selected topic and the stateful message iterator
    ([None] until iteration starts, then what is left to yield). *)
Record MultiTrace := mkMultiTrace {
  multi_topic : string;
  _iter : option (list MessageTuple);
}.

(** [MESSAGES_TYPE]: the protobuf classes, by type name. *)
Inductive MessageClass :=
| SensorView
| SensorViewConfiguration
| GroundTruth
| HostVehicleData
| SensorData
| TrafficCommand
| TrafficCommandUpdate
| TrafficUpdate
| MotionRequest
| StreamingUpdate.

Definition MESSAGES_TYPE : list (string * MessageClass) :=
  [ ("SensorView", SensorView);
    ("SensorViewConfiguration", SensorViewConfiguration);
    ("GroundTruth", GroundTruth);
    ("HostVehicleData", HostVehicleData);
    ("SensorData", SensorData);
    ("TrafficCommand", TrafficCommand);
    ("TrafficCommandUpdate", TrafficCommandUpdate);
    ("TrafficUpdate", TrafficUpdate);
    ("MotionRequest", MotionRequest);
    ("StreamingUpdate", StreamingUpdate) ]%string.

(** [MESSAGES_TYPE[key]]; [None] stands for [KeyError]. *)
Fixpoint dict_get {A} (d : list (string * A)) (key : string) : option A :=
  match d with
  | [] => None
  | (k, v) :: rest => if String.eqb k key then Some v else dict_get rest key
  end.

(** [OSITrace.map_message_type(type_name)]; the type name may be [None],
    which is no key of the table. *)
Definition map_message_type (type_name : option string) : option MessageClass :=
  match type_name with
  | Some t => dict_get MESSAGES_TYPE t
  | None => None
  end.

(** [OSITrace.message_types()] *)
Definition message_types : list string := fst <$> MESSAGES_TYPE.

(** The exceptions of the multi-channel reader: [ValueError], or one that
    comes up from a lookup. *)
Inductive MultiError :=
| ValueError
| Propagated (e : Exn).

(** What [_OSITraceMulti] reads of the summary of the file: the values of
    [summary.channels], in the order of the dict, and [summary.schemas]. *)
Record McapSummary := mkMcapSummary {
  summary_channels : list Channel;
  summary_schemas : gmap Z Schema;
}.

Module _OSITraceMulti.

(** [restart(index=None)] *)
Definition restart (index : option Z) (m : MultiTrace)
    : Result unit * MultiTrace :=
  match index with
  | Some _ => (Raise NotImplementedError, m)
  | None => (Ok tt, {| multi_topic := multi_topic m; _iter := None |})
  end.

(** [_channel_is_of_type(channel, type_name)]: the schema is looked up
    before the type name is tested. *)
Definition _channel_is_of_type (summary : McapSummary) (channel : Channel)
    (type_name : option string) : Exn + bool :=
  match summary_schemas summary !! schema_id channel with
  | None => inl KeyError
  | Some schema =>
      inr (match type_name with
           | None => true
           | Some t => String.eqb (name schema) ("osi3." +:+ t)
           end)
  end.

(** The list comprehension of [get_available_topics] over the channels. *)
Fixpoint topics_of_type (summary : McapSummary) (channels : list Channel)
    (type_name : option string) : Exn + list string :=
  match channels with
  | [] => inr []
  | channel :: rest =>
      match _channel_is_of_type summary channel type_name with
      | inl e => inl e
      | inr keep =>
          match topics_of_type summary rest type_name with
          | inl e => inl e
          | inr ts => inr (if keep then topic channel :: ts else ts)
          end
      end
  end.

(** [get_available_topics(type_name=None)] *)
Definition get_available_topics (summary : McapSummary)
    (type_name : option string) : Exn + list string :=
  topics_of_type summary (summary_channels summary) type_name.

(** [__init__(path, type_name, topic)], from the summary of the file at
    [path] on. *)
Definition __init__ (summary : McapSummary) (type_name : option string)
    (topic : option string) : MultiError + MultiTrace :=
  match get_available_topics summary type_name with
  | inl e => inl (Propagated e)
  | inr available_topics =>
      let topic := match topic with
                   | None => head available_topics
                   | Some t => Some t
                   end in
      match topic with
      | Some t =>
          if bool_decide (t ∈ available_topics)
          then inr {| multi_topic := t; _iter := None |}
          else inl ValueError
      | None => inl ValueError
      end
  end.

(** The loop of [get_message_type] over the channels. *)
Fixpoint message_type_of (summary : McapSummary) (channels : list Channel)
    (self_topic : string) : MultiError + option string :=
  match channels with
  | [] => inr None
  | channel :: rest =>
      if String.eqb (topic channel) self_topic then
        match summary_schemas summary !! schema_id channel with
        | None => inl (Propagated KeyError)
        | Some schema =>
            if String.prefix "osi3." (name schema)
            then inr (Some (String.substring 5 (String.length (name schema) - 5)
                              (name schema)))
            else inl ValueError
        end
      else message_type_of summary rest self_topic
  end.

(** [get_message_type()] *)
Definition get_message_type (summary : McapSummary) (m : MultiTrace)
    : MultiError + option string :=
  message_type_of summary (summary_channels summary) (multi_topic m).

(** [__iter__], consumed by a loop that takes at most [limit] messages
    ([None]: until the generator is exhausted).  The generator body starts
    with the first message asked for; [iter_messages topic] is what the
    library reader's [iter_messages(topics=[topic])] yields. *)
Definition __iter__ (summary : McapSummary)
    (iter_messages : string -> list MessageTuple) (limit : option nat)
    (m : MultiTrace) : (MultiError + list (MessageClass * Message)) * MultiTrace :=
  match limit with
  | Some O => (inr [], m)
  | _ =>
      let source := match _iter m with
                    | None => iter_messages (multi_topic m)
                    | Some rest => rest
                    end in
      let m1 := {| multi_topic := multi_topic m; _iter := Some source |} in
      match get_message_type summary m1 with
      | inl e => (inl e, m1)
      | inr type_name =>
          match map_message_type type_name with
          | None => (inl (Propagated KeyError), m1)
          | Some message_class =>
              let taken := match limit with
                           | Some k => take k source
                           | None => source
                           end in
              (inr ((fun t : MessageTuple =>
                       (message_class, ParseFromString (data t.2))) <$> taken),
               {| multi_topic := multi_topic m;
                  _iter := Some (drop (length taken) source) |})
          end
      end
  end.

End _OSITraceMulti.

(** The reader behind the facade. *)
Inductive AnyReader :=
| Single (r : Reader)
| Multi (m : MultiTrace).

(** [OSITrace]: [self.reader] is [None] until a file is opened. *)
Record OSITrace := mkOSITrace { reader : option AnyReader }.

Module OSITrace.

(** Run a method of the single-channel reader through the facade. *)
Definition on_single {A} (m : M A) (r : Reader) : Result A * OSITrace :=
  match m r with (res, r') => (res, {| reader := Some (Single r') |}) end.

(** [restart(index=None)]: forwarded to whichever reader is
    active. *)
Definition restart (index : option Z) (t : OSITrace)
    : Result unit * OSITrace :=
  match reader t with
  | Some (Single r) => on_single (_OSITraceSingle.restart index) r
  | Some (Multi m) =>
      match _OSITraceMulti.restart index m with
      | (res, m') => (res, {| reader := Some (Multi m') |})
      end
  | None => (Raise AttributeError, t)
  end.

(** [retrieve_offsets(limit=None)] *)
Definition retrieve_offsets (fuel : nat) (limit : option Z) (t : OSITrace)
    : Result (list Z) * OSITrace :=
  match reader t with
  | Some (Single r) => on_single (_OSITraceSingle.retrieve_offsets fuel limit) r
  | _ => (Raise NotImplementedError, t)
  end.

(** [retrieve_message(index=None, skip=False)] *)
Definition retrieve_message (index : option Z) (skip : bool) (t : OSITrace)
    : Result PyVal * OSITrace :=
  match reader t with
  | Some (Single r) => on_single (_OSITraceSingle.retrieve_message index skip) r
  | _ => (Raise NotImplementedError, t)
  end.

(** [get_message_by_index(index)] *)
Definition get_message_by_index (fuel : nat) (index : Z) (t : OSITrace)
    : Result PyVal * OSITrace :=
  match reader t with
  | Some (Single r) => on_single (_OSITraceSingle.get_message_by_index fuel index) r
  | _ => (Raise NotImplementedError, t)
  end.

(** [get_messages_in_index_range(begin, end)] *)
Definition get_messages_in_index_range (fuel : nat) (begin : Z)
    (end_ : option Z) (t : OSITrace) : Result (list PyVal) * OSITrace :=
  match reader t with
  | Some (Single r) => on_single (_OSITraceSingle.get_messages_in_index_range fuel begin end_) r
  | _ => (Raise NotImplementedError, t)
  end.

End OSITrace.

(** ** The chunked reader [IndexedSeekingReader] *)

(** What [breakup_chunk] yields: message records, and the schema and
    channel records stored between them. *)
Inductive McapRecord :=
| MessageRecord (m : McapMessage)
| OtherRecord.

(** A chunk descriptor of the summary. *)
Record ChunkIndex := mkChunkIndex {
  chunk_start_offset : Z;
  message_start_time : Z;
  message_end_time : Z;
}.

Record Summary := mkSummary {
  chunk_indexes : list ChunkIndex;
  channels : gmap Z Channel;
  schemas : gmap Z Schema;
}.

(** What the merge queue holds: a chunk still to be opened, or a message
    with the offset of its chunk and its position in it. *)
Inductive QItem :=
| QChunk (c : ChunkIndex)
| QMessage (t : MessageTuple) (chunk_offset : Z) (index_in_chunk : Z).

(** The interface of the mcap library's [MessageQueue]: construction from
    the ordering flags, [push], [pop], and emptiness ([mq_pop] is [None]
    exactly when [len(queue)] is zero).  [mq_items] is the content of the
    queue; the order in which [pop] serves it is left to the
    implementation. *)
Class MessageQueue := {
  queue : Type;
  mq_new : bool -> bool -> queue;
  mq_push : QItem -> queue -> queue;
  mq_pop : queue -> option (QItem * queue);
  mq_items : queue -> list QItem;
  mq_new_items : forall log_time_order reverse,
    mq_items (mq_new log_time_order reverse) = [];
  mq_push_items : forall x q, mq_items (mq_push x q) ≡ₚ x :: mq_items q;
  mq_pop_some : forall q x q',
    mq_pop q = Some (x, q') -> mq_items q ≡ₚ x :: mq_items q';
  mq_pop_none : forall q, mq_pop q = None -> mq_items q = [];
}.

(** The file as the mcap library presents it to the reader, and the
    reader's construction arguments. *)
Class McapFile := {
  (** what a decoder returns *)
  Decoded : Type;
  (** [self.get_summary()] *)
  get_summary : option Summary;
  (** [_chunks_matching_topics(summary, topics, start_time, end_time)] *)
  _chunks_matching_topics :
    Summary -> option (list string) -> option Z -> option Z -> list ChunkIndex;
  (** [self._stream.seek(pos)], [Chunk.read(ReadDataStream(self._stream))]
      and [breakup_chunk(chunk, validate_crc=self._validate_crcs)]: the
      records of the chunk stored at [pos], or the error met reading it *)
  chunk_records : Z -> Exn + list McapRecord;
  (** [self._stream.seek(0)], then
      [NonSeekingReader(self._stream).iter_messages(topics, start_time,
      end_time, log_time_order)]: the tuples it yields and the error that
      ends it, if any *)
  non_seeking_messages :
    option (list string) -> option Z -> option Z -> bool ->
    list MessageTuple * option Exn;
  (** [self._decoder_factories], each through its [decoder_for] *)
  _decoder_factories :
    list (string -> option Schema -> option (list byte -> Exn + Decoded));
}.

Definition Decoder `{McapFile} : Type := list byte -> Exn + Decoded.

(** [DecodedMessageTuple(schema, channel, message, decoded_message)] *)
Definition DecodedMessageTuple `{McapFile} : Type :=
  option Schema * Channel * McapMessage * Decoded.

(** The mutable state of the reader: the index table, one
    [(chunk_offset, idx_in_chunk)] per global index, and the decoders
    resolved so far, by channel. *)
Record IndexedReader `{McapFile} := mkIndexedReader {
  _index_map : list (option Z * Z);
  _decoders : gmap Z Decoder;
}.

Module IndexedSeekingReader.

(** [__init__] *)
Definition __init__ `{McapFile} : IndexedReader :=
  {| _index_map := []; _decoders := ∅ |}.

Definition append_index `{McapFile} (e : option Z * Z) (s : IndexedReader)
    : IndexedReader :=
  {| _index_map := _index_map s ++ [e]; _decoders := _decoders s |}.

Definition clear_index `{McapFile} (s : IndexedReader) : IndexedReader :=
  {| _index_map := []; _decoders := _decoders s |}.

(** The arguments of [iter_messages]. *)
Record IterArgs := mkIterArgs {
  topics : option (list string);
  start_time : option Z;
  end_time : option Z;
  log_time_order : bool;
  reverse : bool;
}.

(** [iter_messages()] with every argument at its default. *)
Definition default_args : IterArgs :=
  {| topics := None; start_time := None; end_time := None;
     log_time_order := true; reverse := false |}.

(** What [iter_messages] yields: [(schema, channel, message, global_idx)]. *)
Definition Yield : Type := MessageTuple * Z.

(** How a run of the generator ends: it is exhausted, the consumer leaves
    its loop at a yielded value, an exception escapes, or the fuel of the
    model runs out. *)
Inductive Stop :=
| Exhausted
| Break
| Raised (e : Exn)
| NoFuel.

(** The filters applied to a message of a chunk before it is queued:
    [true] when the message is skipped. *)
Definition filtered_out (args : IterArgs) (channel : Channel) (m : McapMessage)
    : bool :=
  match topics args with
  | Some ts => negb (bool_decide (topic channel ∈ ts))
  | None => false
  end
  || match start_time args with
     | Some t => log_time m <? t
     | None => false
     end
  || match end_time args with
     | Some t => t <=? log_time m
     | None => false
     end.

(** [None if channel.schema_id == 0 else summary.schemas[channel.schema_id]];
    the outer [None] stands for [KeyError]. *)
Definition schema_of (summary : Summary) (channel : Channel)
    : option (option Schema) :=
  if schema_id channel =? 0 then Some None
  else match schemas summary !! schema_id channel with
       | Some sch => Some (Some sch)
       | None => None
       end.

(** The loop over [enumerate(breakup_chunk(chunk))] of [iter_messages]:
    queue every message of the chunk that passes the filters. *)
Fixpoint push_records `{MessageQueue} (summary : Summary) (args : IterArgs)
    (offset : Z) (index_in_chunk : Z) (records : list McapRecord) (q : queue)
    : Exn + queue :=
  match records with
  | [] => inr q
  | OtherRecord :: rest =>
      push_records summary args offset (index_in_chunk + 1) rest q
  | MessageRecord record :: rest =>
      match channels summary !! channel_id record with
      | None => inl KeyError
      | Some channel =>
          if filtered_out args channel record then
            push_records summary args offset (index_in_chunk + 1) rest q
          else
            match schema_of summary channel with
            | None => inl KeyError
            | Some schema =>
                push_records summary args offset (index_in_chunk + 1) rest
                  (mq_push (QMessage (schema, channel, record) offset index_in_chunk) q)
            end
      end
  end.

(** The [while message_queue] loop of [iter_messages], consumed by a loop
    that leaves at the first yielded value for which [brk] holds.  The
    debugging [print] of the index table has no effect on the reader and is
    left out. *)
Fixpoint merge_loop `{MessageQueue} `{McapFile} (fuel : nat) (summary : Summary)
    (args : IterArgs) (brk : Yield -> bool) (q : queue) (global_idx : Z)
    (s : IndexedReader) : list Yield * Stop * IndexedReader :=
  match fuel with
  | O => ([], NoFuel, s)
  | S fuel' =>
      match mq_pop q with
      | None => ([], Exhausted, s)
      | Some (QChunk next_item, q') =>
          match chunk_records (chunk_start_offset next_item + 1 + 8) with
          | inl e => ([], Raised e, s)
          | inr records =>
              match push_records summary args (chunk_start_offset next_item)
                      0 records q' with
              | inl e => ([], Raised e, s)
              | inr q'' => merge_loop fuel' summary args brk q'' global_idx s
              end
          end
      | Some (QMessage t chunk_offset idx_in_chunk, q') =>
          let s' := append_index (Some chunk_offset, idx_in_chunk) s in
          let y := (t, global_idx) in
          if brk y then ([y], Break, s')
          else
            match merge_loop fuel' summary args brk q' (global_idx + 1) s' with
            | (ys, stop, s'') => (y :: ys, stop, s'')
            end
      end
  end.

(** The loop of [iter_messages] over the non-seeking reader, taken when
    the file has no chunk index. *)
Fixpoint linear_loop `{McapFile} (brk : Yield -> bool) (items : list MessageTuple)
    (err : option Exn) (global_idx : Z) (s : IndexedReader)
    : list Yield * Stop * IndexedReader :=
  match items with
  | [] => ([], match err with Some e => Raised e | None => Exhausted end, s)
  | t :: rest =>
      let s' := append_index (None, global_idx) s in
      let y := (t, global_idx) in
      if brk y then ([y], Break, s')
      else
        match linear_loop brk rest err (global_idx + 1) s' with
        | (ys, stop, s'') => (y :: ys, stop, s'')
        end
  end.

(** The queue [iter_messages] starts from: one entry per selected chunk. *)
Definition initial_queue `{MessageQueue} `{McapFile} (summary : Summary)
    (args : IterArgs) : queue :=
  fold_left (fun q chunk_index => mq_push (QChunk chunk_index) q)
    (_chunks_matching_topics summary (topics args) (start_time args)
       (end_time args))
    (mq_new (log_time_order args) (reverse args)).

(** [iter_messages(topics, start_time, end_time, log_time_order, reverse)],
    consumed up to the first yielded value for which [brk] holds. *)
Definition iter_messages `{MessageQueue} `{McapFile} (fuel : nat)
    (args : IterArgs) (brk : Yield -> bool) (s : IndexedReader)
    : list Yield * Stop * IndexedReader :=
  let s0 := clear_index s in
  let linear :=
    match non_seeking_messages (topics args) (start_time args) (end_time args)
            (log_time_order args) with
    | (items, err) => linear_loop brk items err 0 s0
    end in
  match get_summary with
  | None => linear
  | Some summary =>
      if len (chunk_indexes summary) =? 0 then linear
      else merge_loop fuel summary args brk (initial_queue summary args) 0 s0
  end.

(** [decoded_message(schema, channel, message)] inside [get]: the cached
    decoder of the channel, or the first one a factory offers, which is
    then cached. *)
Fixpoint first_decoder `{McapFile}
    (factories : list (string -> option Schema -> option Decoder))
    (channel : Channel) (schema : option Schema) : option Decoder :=
  match factories with
  | [] => None
  | factory :: rest =>
      match factory (message_encoding channel) schema with
      | Some decoder => Some decoder
      | None => first_decoder rest channel schema
      end
  end.

Definition run_decoder `{McapFile} (decoder : Decoder) (message : McapMessage)
    : Result Decoded :=
  match decoder (data message) with
  | inr d => Ok d
  | inl e => Raise e
  end.

Definition decoded_message `{McapFile} (schema : option Schema)
    (channel : Channel) (message : McapMessage) (s : IndexedReader)
    : Result Decoded * IndexedReader :=
  match _decoders s !! channel_id message with
  | Some decoder => (run_decoder decoder message, s)
  | None =>
      match first_decoder _decoder_factories channel schema with
      | Some decoder =>
          (run_decoder decoder message,
           {| _index_map := _index_map s;
              _decoders := <[channel_id message := decoder]> (_decoders s) |})
      | None => (Raise DecoderNotFoundError, s)
      end
  end.

(** The loop of [get] over the records of the owning chunk: the message
    at position [idx_in_chunk], if the record there is a message. *)
Fixpoint find_in_chunk (j : Z) (idx_in_chunk : Z) (records : list McapRecord)
    : option McapMessage :=
  match records with
  | [] => None
  | OtherRecord :: rest => find_in_chunk (j + 1) idx_in_chunk rest
  | MessageRecord record :: rest =>
      if j =? idx_in_chunk then Some record
      else find_in_chunk (j + 1) idx_in_chunk rest
  end.

(** The seeking path of [get]: reopen the chunk, find the record, decode
    it. *)
Definition get_from_chunk `{McapFile} (chunk_offset idx_in_chunk : Z)
    (s : IndexedReader) : Result DecodedMessageTuple * IndexedReader :=
  match chunk_records (chunk_offset + 1 + 8) with
  | inl e => (Raise e, s)
  | inr records =>
      match find_in_chunk 0 idx_in_chunk records with
      | None => (Raise IndexError, s)
      | Some record =>
          match get_summary with
          | None => (Raise AttributeError, s)
          | Some summary =>
              match channels summary !! channel_id record with
              | None => (Raise KeyError, s)
              | Some channel =>
                  match schema_of summary channel with
                  | None => (Raise KeyError, s)
                  | Some schema =>
                      match decoded_message schema channel record s with
                      | (Ok decoded, s') =>
                          (Ok (schema, channel, record, decoded), s')
                      | (Raise e, s') => (Raise e, s')
                      | (OutOfFuel, s') => (OutOfFuel, s')
                      end
                  end
              end
          end
      end
  end.

(** [get(global_index)].  [linear_get] is the non-seeking path, which
    enumerates [super().iter_decoded_messages()], a method of the mcap
    library's reader. *)
Definition get `{MessageQueue} `{McapFile}
    (linear_get : Z -> IndexedReader -> Result DecodedMessageTuple * IndexedReader)
    (fuel : nat) (global_index : Z) (s : IndexedReader)
    : Result DecodedMessageTuple * IndexedReader :=
  let '(stop, s1) :=
    if len (_index_map s) <=? global_index then
      match iter_messages fuel default_args
              (fun y => global_index <=? snd y) s with
      | (_, stop, s1) => (stop, s1)
      end
    else (Exhausted, s) in
  match stop with
  | Raised e => (Raise e, s1)
  | NoFuel => (OutOfFuel, s1)
  | Exhausted | Break =>
      if (global_index <? 0) || (len (_index_map s1) <=? global_index) then
        (Raise IndexError, s1)
      else
        match _index_map s1 !! Z.to_nat global_index with
        | None => (Raise IndexError, s1)
        | Some (None, _) => linear_get global_index s1
        | Some (Some chunk_offset, idx_in_chunk) =>
            get_from_chunk chunk_offset idx_in_chunk s1
        end
  end.

End IndexedSeekingReader.

Import IndexedSeekingReader _OSITraceSingle.

(** ** Predicates used to state the properties of the flat reader *)

(** The record with payload [p] starts at offset [o] of [data] and is
    complete. *)
Definition record_at (data : list byte) (o : Z) (p : list byte) : Prop :=
  0 <= o /\
  take 4 (drop (Z.to_nat o) data) = pack_le32 (len p) /\
  take (Z.to_nat (len p)) (drop (Z.to_nat (o + 4)) data) = p /\
  o + 4 + len p <= len data.

(** What a call may change besides the stream position and the current
    index. *)
Definition same_table (s s' : Reader) : Prop :=
  message_offsets s' = message_offsets s /\
  message_cache s' = message_cache s /\
  read_complete s' = read_complete s.

Definition same_file (s s' : Reader) : Prop :=
  f_data (file s') = f_data (file s) /\ f_lzma (file s') = f_lzma (file s).

(** The reader's offset table and cache agree with the trace whose payloads
    are [ps]: the table is a prefix of the record boundaries, and the cache
    holds decoded records under their own indices. *)
Record Inv (ps : list (list byte)) (s : Reader) : Prop := {
  inv_data : f_data (file s) = flat_trace ps;
  inv_offsets :
    message_offsets s = take (length (message_offsets s)) (boundaries ps);
  inv_nonempty : read_complete s = false -> message_offsets s <> [];
  inv_complete :
    read_complete s = true -> (length ps <= length (message_offsets s))%nat;
  inv_cache : forall c k m,
    message_cache s = Some c -> c !! k = Some m ->
    0 <= k /\
    (exists p, ps !! Z.to_nat k = Some p /\ m = ParseFromString p) /\
    (k + 1 < len (message_offsets s) \/
     (k + 1 = len (message_offsets s) /\ len (message_offsets s) = len ps /\
      read_complete s = true));
}.

(** The reader stands at the start of record [j] (or at the end of the
    trace when [j] is the number of records), with its index in step. *)
Definition At (ps : list (list byte)) (s : Reader) (j : nat) : Prop :=
  Inv ps s /\ current_index s = Z.of_nat j /\
  boundaries ps !! j = Some (f_pos (file s)).

(** The reader moved to boundary [j], everything else untouched. *)
Definition goto (o : Z) (j : Z) (s : Reader) : Reader :=
  {| file := set_pos o (file s);
     current_index := j;
     message_offsets := message_offsets s;
     read_complete := read_complete s;
     message_cache := message_cache s |}.

(** A limit that never stops the scan before the end of the trace. *)
Definition unbounded (ps : list (list byte)) (limit : option Z) : Prop :=
  match limit with
  | None => True
  | Some l => l = 0 \/ len ps + 1 <= l
  end.


(** A computation keeps the invariant, whatever it returns or raises. *)
Definition keeps {A} (ps : list (list byte)) (m : M A) : Prop :=
  forall s r s', Inv ps s -> m s = (r, s') -> Inv ps s'.

(** The calls a client can make on the single-channel reader, and the
    states a reader opened on a trace can be brought to by them. *)
Inductive Call :=
| CallRetrieveMessage (index : option Z) (skip : bool)
| CallRetrieveOffsets (fuel : nat) (limit : option Z)
| CallRestart (index : option Z)
| CallIter (fuel : nat)
| CallGetMessageByIndex (fuel : nat) (index : Z)
| CallGetMessagesInIndexRange (fuel : nat) (begin : Z) (end_ : option Z).

Definition after_call (c : Call) (s : Reader) : Reader :=
  match c with
  | CallRetrieveMessage index skip => snd (retrieve_message index skip s)
  | CallRetrieveOffsets fuel limit => snd (retrieve_offsets fuel limit s)
  | CallRestart index => snd (restart index s)
  | CallIter fuel => snd (__iter__ fuel s)
  | CallGetMessageByIndex fuel index => snd (get_message_by_index fuel index s)
  | CallGetMessagesInIndexRange fuel begin end_ =>
      snd (get_messages_in_index_range fuel begin end_ s)
  end.

Inductive reachable (data : list byte) (lzma cache_messages : bool)
    : Reader -> Prop :=
| reachable_init : reachable data lzma cache_messages
                     (__init__ data lzma cache_messages)
| reachable_call (c : Call) (s : Reader) :
    reachable data lzma cache_messages s ->
    reachable data lzma cache_messages (after_call c s).

(** What may follow the last complete record of a trace: nothing, or a
    record cut short inside its length prefix or inside its payload. *)
Definition incomplete (tail : list byte) : Prop :=
  len tail < 4 \/ len tail - 4 < unpack_le32 (take 4 tail).

(** The cache of a reader that has read the first [j] records in order. *)
Fixpoint cache_of (ps : list (list byte)) (j : nat) : gmap Z Message :=
  match j with
  | O => ∅
  | S j' =>
      match ps !! j' with
      | Some p => <[Z.of_nat j' := ParseFromString p]> (cache_of ps j')
      | None => cache_of ps j'
      end
  end.

(** The reader opened on [data], after it has read the first [j] records
    of [ps] in order. *)
Definition read_state (ps : list (list byte)) (data : list byte)
    (lzma cache_messages : bool) (j : nat) : Reader :=
  {| file := {| f_data := data;
                f_pos := default 0 (boundaries ps !! j);
                f_lzma := lzma |};
     current_index := Z.of_nat j;
     message_offsets := take (S j) (boundaries ps);
     read_complete := false;
     message_cache := if cache_messages then Some (cache_of ps j) else None |}.

(** The same reader once it has met the end of the stream. *)
Definition end_state (ps : list (list byte)) (data : list byte)
    (lzma cache_messages : bool) : Reader :=
  {| file := {| f_data := data;
                f_pos := len (flat_trace ps);
                f_lzma := lzma |};
     current_index := len ps;
     message_offsets := take (length ps) (boundaries ps);
     read_complete := true;
     message_cache :=
       if cache_messages then Some (cache_of ps (length ps)) else None |}.

(** Where the read of [retrieve_message(index, skip)] starts: the stream
    position once the optional seek to [index] is done; [None] when that
    seek raises. *)
Definition read_start (index : option Z) (s : Reader) : option Z :=
  match seek_index index s with
  | (Ok _, s') => Some (f_pos (file s'))
  | _ => None
  end.

(** The values iteration yields on a trace with payloads [ps]. *)
Definition decoded (ps : list (list byte)) : list PyVal :=
  (fun p => PMsg (ParseFromString p)) <$> ps.

(** Two payloads, of three bytes and of one byte, used in the examples. *)
Definition sample_payloads : list (list byte) :=
  [[Byte.x61; Byte.x62; Byte.x63]; [Byte.x64]].

(** A reader on the sample trace whose table already holds the three
    boundaries, positioned at the end of the file. *)
Definition sample_scanned : Reader :=
  {| file := {| f_data := flat_trace sample_payloads; f_pos := 12; f_lzma := false |};
     current_index := 2;
     message_offsets := [0; 7; 12];
     read_complete := false;
     message_cache := Some ∅ |}.

(** ** Predicates and sample data for the chunked reader *)

(** The reader after [es] was appended to its index table. *)
Definition extend_index `{McapFile} (es : list (option Z * Z)) (s : IndexedReader)
    : IndexedReader :=
  {| _index_map := _index_map s ++ es; _decoders := _decoders s |}.

(** Number of loop turns a queue item stands for: a message is popped
    once; a chunk is popped once and queues at most one message per record
    it holds. *)
Definition item_weight `{McapFile} (x : QItem) : nat :=
  match x with
  | QChunk c =>
      S (match chunk_records (chunk_start_offset c + 1 + 8) with
         | inr records => length records
         | inl _ => 0
         end)
  | QMessage _ _ _ => 1
  end.

Definition queue_weight `{MessageQueue} `{McapFile} (q : queue) : nat :=
  sum_list_with item_weight (mq_items q).

(** Fuel that lets [iter_messages] run to its end. *)
Definition iter_fuel `{MessageQueue} `{McapFile} (args : IterArgs) : nat :=
  match get_summary with
  | Some summary => S (queue_weight (initial_queue summary args))
  | None => 0
  end.

(** The file has a chunk index, so that [iter_messages] takes the seeking
    path. *)
Definition has_chunk_index `{McapFile} : Prop :=
  exists summary, get_summary = Some summary /\ chunk_indexes summary <> [].

(** How many values a consumer that leaves at global index [j] has seen
    when the run ends, the indices counting up from [g]: all of them up to
    [j] when it left, fewer when the run ended first. *)
Definition count_ok (j g : Z) (ys : list Yield) (stop : Stop) : Prop :=
  match stop with
  | Break => g + len ys = j + 1
  | _ => g + len ys <= j
  end.

(** A consumer that never leaves its loop. *)
Definition never : Yield -> bool := fun _ => false.

(** A first-in first-out queue, one implementation of the interface. *)
Definition fifo_queue : MessageQueue.
Proof.
  refine {| queue := list QItem;
            mq_new := fun _ _ => [];
            mq_push := fun x q => q ++ [x];
            mq_pop := fun q => match q with [] => None | x :: q' => Some (x, q') end;
            mq_items := fun q => q |}.
  - reflexivity.
  - intros x q. symmetry. apply Permutation_cons_append.
  - intros [|y q] x q' H; inversion H; subst. reflexivity.
  - intros [|y q] H; [reflexivity|discriminate].
Defined.

(** A sample file of two chunks, at offsets 100 and 200, with three
    messages on one channel; the second chunk starts with a channel
    record.  The decoder gives back the payload. *)
Definition sample_channel : Channel :=
  {| ch_id := 1; topic := "gt"; message_encoding := "protobuf"; schema_id := 0 |}.

Definition sample_message (t : Z) (b : byte) : McapMessage :=
  {| channel_id := 1; log_time := t; data := [b] |}.

Definition sample_summary : Summary :=
  {| chunk_indexes :=
       [ {| chunk_start_offset := 100; message_start_time := 0; message_end_time := 5 |};
         {| chunk_start_offset := 200; message_start_time := 3; message_end_time := 8 |} ];
     channels := {[ 1 := sample_channel ]};
     schemas := ∅ |}.

Definition sample_mcap : McapFile :=
  {| Decoded := list byte;
     get_summary := Some sample_summary;
     _chunks_matching_topics := fun summary _ _ _ => chunk_indexes summary;
     chunk_records := fun pos =>
       if pos =? 109 then
         inr [MessageRecord (sample_message 0 Byte.x61);
              MessageRecord (sample_message 4 Byte.x62)]
       else if pos =? 209 then
         inr [OtherRecord; MessageRecord (sample_message 3 Byte.x63)]
       else inl McapError;
     non_seeking_messages := fun _ _ _ _ => ([], None);
     _decoder_factories := [fun _ _ => Some (fun payload => inr payload)] |}.

(** The non-seeking path of [get] on the sample file, which is not taken. *)
Definition sample_linear_get (i : Z) (s : @IndexedReader sample_mcap)
    : Result (@DecodedMessageTuple sample_mcap) * @IndexedReader sample_mcap :=
  (Raise IndexError, s).

(** ** Index ranges *)

(** What a generator that starts at index [begin] and stops before index
    [end_] takes of the values [l] it could yield; all of them when [end_]
    is [None]. *)
Definition upto {A} (end_ : option Z) (begin : Z) (l : list A) : list A :=
  match end_ with
  | None => l
  | Some e => take (Z.to_nat (e - begin)) l
  end.

(** The reader of a valid trace that has met the end of the stream with
    every record cached, put back on record [c]. *)
Definition replay_state (ps : list (list byte)) (lzma : bool) (c : nat) : Reader :=
  {| file := {| f_data := flat_trace ps;
                f_pos := default 0 (boundaries ps !! c);
                f_lzma := lzma |};
     current_index := Z.of_nat c;
     message_offsets := take (length ps) (boundaries ps);
     read_complete := true;
     message_cache := Some (cache_of ps (length ps)) |}.

(** ** Where the tuples of the chunked reader come from *)

(** The tuple [t] is what [iter_messages] queues for the record at position
    [j] of the chunk stored at [off], one of the chunks [cs]: the record is
    a message, the tuple pairs it with the channel the summary has for its
    channel id and with that channel's schema, and the message passes the
    filters of [args]. *)
Definition from_chunk `{McapFile} (summary : Summary) (args : IterArgs)
    (cs : list ChunkIndex) (t : MessageTuple) (off j : Z) : Prop :=
  exists c records,
    c ∈ cs /\ off = chunk_start_offset c /\
    chunk_records (off + 1 + 8) = inr records /\
    0 <= j /\ records !! Z.to_nat j = Some (MessageRecord t.2) /\
    channels summary !! channel_id t.2 = Some t.1.2 /\
    schema_of summary t.1.2 = Some t.1.1 /\
    filtered_out args t.1.2 t.2 = false.

(** What the merge queue may hold while [iter_messages] runs over the
    chunks [cs]. *)
Definition queued_ok `{McapFile} (summary : Summary) (args : IterArgs)
    (cs : list ChunkIndex) (x : QItem) : Prop :=
  match x with
  | QChunk c => c ∈ cs
  | QMessage t off j => from_chunk summary args cs t off j
  end.

(** A yielded value and the entry of the index table written for it. *)
Definition indexed_ok `{McapFile} (summary : Summary) (args : IterArgs)
    (cs : list ChunkIndex) (y : Yield) (e : option Z * Z) : Prop :=
  exists off, e.1 = Some off /\ from_chunk summary args cs y.1 off e.2.

(** What [get] returns for the tuple [t], given the outcome of decoding
    its message. *)
Definition with_decoded `{McapFile} (t : MessageTuple) (r : Result Decoded)
    : Result DecodedMessageTuple :=
  match r with
  | Ok d => Ok (t, d)
  | Raise e => Raise e
  | OutOfFuel => OutOfFuel
  end.

(** The tuples of the messages among [records] that pass the filters of
    [args], in the order of the chunk. *)
Fixpoint selected (summary : Summary) (args : IterArgs)
    (records : list McapRecord) : list MessageTuple :=
  match records with
  | [] => []
  | OtherRecord :: rest => selected summary args rest
  | MessageRecord m :: rest =>
      match channels summary !! channel_id m with
      | None => []
      | Some channel =>
          if filtered_out args channel m then selected summary args rest
          else match schema_of summary channel with
               | None => []
               | Some schema => (schema, channel, m) :: selected summary args rest
               end
      end
  end.

(** The same for the chunk behind a chunk index. *)
Definition chunk_selected `{McapFile} (summary : Summary) (args : IterArgs)
    (c : ChunkIndex) : list MessageTuple :=
  match chunk_records (chunk_start_offset c + 1 + 8) with
  | inr records => selected summary args records
  | inl _ => []
  end.

(** The tuples a queue item still stands for. *)
Definition pending `{McapFile} (summary : Summary) (args : IterArgs)
    (x : QItem) : list MessageTuple :=
  match x with
  | QChunk c => chunk_selected summary args c
  | QMessage t _ _ => [t]
  end.

(** Arguments that select the topic [gt] from time 1 on. *)
Definition sample_args : IterArgs :=
  {| topics := Some ["gt"%string]; start_time := Some 1; end_time := None;
     log_time_order := true; reverse := false |}.

(** A sample file without summary: the non-seeking reader yields two
    messages and then fails. *)
Definition sample_unindexed : McapFile :=
  {| Decoded := list byte;
     get_summary := None;
     _chunks_matching_topics := fun summary _ _ _ => chunk_indexes summary;
     chunk_records := fun _ => inl McapError;
     non_seeking_messages := fun _ _ _ _ =>
       ([(None, sample_channel, sample_message 0 Byte.x61);
         (None, sample_channel, sample_message 4 Byte.x62)], Some McapError);
     _decoder_factories := [] |}.

(** ** A sample multi-channel summary *)

(** Two channels, ground truth on topic [gt] and sensor view on topic
    [sv], each with its schema. *)
Definition sample_multi_summary : McapSummary :=
  {| summary_channels :=
       [ {| ch_id := 1; topic := "gt"; message_encoding := "protobuf"; schema_id := 1 |};
         {| ch_id := 2; topic := "sv"; message_encoding := "protobuf"; schema_id := 2 |} ];
     summary_schemas :=
       {[ 1 := {| sch_id := 1; name := "osi3.GroundTruth"; encoding := "protobuf" |};
          2 := {| sch_id := 2; name := "osi3.SensorView"; encoding := "protobuf" |} ]} |}.

(** The same with a third channel that has no schema. *)
Definition sample_schemaless_summary : McapSummary :=
  {| summary_channels :=
       summary_channels sample_multi_summary
       ++ [ {| ch_id := 3; topic := "log"; message_encoding := "json"; schema_id := 0 |} ];
     summary_schemas := summary_schemas sample_multi_summary |}.

(** What the library reader yields on the sample file, by topic. *)
Definition sample_iter_messages (t : string) : list MessageTuple :=
  if String.eqb t "sv" then
    [ (None, {| ch_id := 2; topic := "sv"; message_encoding := "protobuf"; schema_id := 2 |},
       {| channel_id := 2; log_time := 0; data := [Byte.x61] |});
      (None, {| ch_id := 2; topic := "sv"; message_encoding := "protobuf"; schema_id := 2 |},
       {| channel_id := 2; log_time := 1; data := [Byte.x62] |});
      (None, {| ch_id := 2; topic := "sv"; message_encoding := "protobuf"; schema_id := 2 |},
       {| channel_id := 2; log_time := 2; data := [Byte.x63] |}) ]
  else [].

(** ** Decoders of the chunked reader *)


(** * Properties *)

(** ** Length prefixes *)

Lemma byte_to_of_Z (z : Z) : 0 <= z < 256 -> byte_to_Z (byte_of_Z z) = z.
Proof.
  intros Hz. unfold byte_to_Z, byte_of_Z.
  rewrite Z.mod_small by lia.
  destruct (Byte.of_N (Z.to_N z)) as [b|] eqn:E.
  - apply Byte.to_of_N in E. rewrite E. lia.
  - apply Byte.of_N_None_iff in E. lia.
Qed.

Lemma byte_of_Z_mod (z : Z) : byte_to_Z (byte_of_Z z) = z mod 256.
Proof.
  assert (H : byte_of_Z z = byte_of_Z (z mod 256)).
  { unfold byte_of_Z. now rewrite Z.mod_mod by lia. }
  rewrite H. apply byte_to_of_Z. apply Z.mod_pos_bound. lia.
Qed.

Lemma unpack_pack_le32 (n : Z) : 0 <= n < 2 ^ 32 -> unpack_le32 (pack_le32 n) = n.
Proof.
  intros Hn. unfold unpack_le32, pack_le32.
  rewrite !byte_of_Z_mod, !Z.shiftl_mul_pow2, !Z.shiftr_div_pow2 by lia.
  change (2 ^ 8) with 256. change (2 ^ 16) with 65536.
  change (2 ^ 24) with 16777216. change (2 ^ 32) with 4294967296 in Hn.
  pose proof (Z.div_mod n 256 ltac:(lia)) as H0.
  pose proof (Z.div_mod (n / 256) 256 ltac:(lia)) as H1.
  pose proof (Z.div_mod (n / 256 / 256) 256 ltac:(lia)) as H2.
  rewrite Z.div_div in H1, H2 by lia. rewrite Z.div_div in H2 by lia.
  change (256 * 256) with 65536 in *. change (65536 * 256) with 16777216 in *.
  assert (n / 16777216 < 256) by (apply Z.div_lt_upper_bound; lia).
  assert (0 <= n / 16777216) by (apply Z.div_pos; lia).
  rewrite (Z.mod_small (n / 16777216)) by lia.
  lia.
Qed.

Lemma length_pack_le32 (n : Z) : length (pack_le32 n) = 4%nat.
Proof. reflexivity. Qed.

Lemma len_app {A} (l1 l2 : list A) : len (l1 ++ l2) = len l1 + len l2.
Proof. unfold len. rewrite length_app. lia. Qed.

Lemma len_nonneg {A} (l : list A) : 0 <= len l.
Proof. unfold len. lia. Qed.

(** ** Structure of a flat trace *)

Lemma flat_trace_cons (p : list byte) (ps : list (list byte)) :
  flat_trace (p :: ps) = pack_le32 (len p) ++ p ++ flat_trace ps.
Proof.
  unfold flat_trace. rewrite fmap_cons. cbn [concat]. unfold frame.
  now rewrite <- app_assoc.
Qed.

Lemma boundaries_from_length (ps : list (list byte)) (o : Z) :
  length (boundaries_from o ps) = S (length ps).
Proof. revert o. induction ps as [|p ps IH]; intros o; simpl; [|rewrite IH]; done. Qed.

Lemma boundaries_from_head (ps : list (list byte)) (o : Z) :
  boundaries_from o ps !! 0%nat = Some o.
Proof. destruct ps; reflexivity. Qed.

Lemma boundaries_from_last (ps : list (list byte)) (o : Z) :
  boundaries_from o ps !! length ps = Some (o + len (flat_trace ps)).
Proof.
  revert o. induction ps as [|p ps IH]; intros o; simpl.
  - f_equal. unfold len. simpl. lia.
  - rewrite IH, flat_trace_cons, !len_app. f_equal.
    unfold len at 3. rewrite length_pack_le32. lia.
Qed.

Lemma boundaries_from_ge (ps : list (list byte)) (o : Z) (j : nat) (x : Z) :
  boundaries_from o ps !! j = Some x -> o <= x.
Proof.
  revert o j. induction ps as [|p ps IH]; intros o [|j] H; simpl in H.
  - inversion H. lia.
  - done.
  - inversion H. lia.
  - apply IH in H. pose proof (len_nonneg p). lia.
Qed.

Lemma boundaries_from_lt (ps : list (list byte)) (o : Z) (i j : nat) (x y : Z) :
  (i < j)%nat ->
  boundaries_from o ps !! i = Some x ->
  boundaries_from o ps !! j = Some y ->
  x < y.
Proof.
  revert o i j. induction ps as [|p ps IH]; intros o i j Hij Hi Hj.
  - destruct j as [|j]; [lia|]. simpl in Hj. done.
  - destruct j as [|j]; [lia|]. simpl in Hj. destruct i as [|i]; simpl in Hi.
    + inversion Hi; subst. apply boundaries_from_ge in Hj.
      pose proof (len_nonneg p). lia.
    + eapply IH; [|exact Hi|exact Hj]. lia.
Qed.

Lemma boundaries_from_inj (ps : list (list byte)) (o : Z) (i j : nat) (x : Z) :
  boundaries_from o ps !! i = Some x ->
  boundaries_from o ps !! j = Some x ->
  i = j.
Proof.
  intros Hi Hj. destruct (Nat.lt_trichotomy i j) as [H|[H|H]]; [|done|].
  - pose proof (boundaries_from_lt _ _ _ _ _ _ H Hi Hj). lia.
  - pose proof (boundaries_from_lt _ _ _ _ _ _ H Hj Hi). lia.
Qed.

Lemma records_of_trace (ps : list (list byte)) (pre post : list byte)
    (j : nat) (p : list byte) :
  ps !! j = Some p ->
  exists o,
    boundaries_from (len pre) ps !! j = Some o /\
    record_at (pre ++ flat_trace ps ++ post) o p /\
    boundaries_from (len pre) ps !! S j = Some (o + 4 + len p).
Proof.
  revert pre j. induction ps as [|q ps IH]; intros pre j Hj; [done|].
  destruct j as [|j]; simpl in Hj.
  - inversion Hj; subst q. exists (len pre). split; [done|]. split.
    + pose proof (len_nonneg pre). pose proof (len_nonneg p).
      unfold record_at. rewrite flat_trace_cons.
      split; [lia|]. split; [|split].
      * unfold len at 1. rewrite Nat2Z.id, drop_app_length.
        rewrite <- app_assoc. now rewrite (take_app_length' _ _ 4).
      * replace (Z.to_nat (len pre + 4)) with (length (pre ++ pack_le32 (len p))).
        2:{ rewrite length_app, length_pack_le32. unfold len. lia. }
        rewrite <- (app_assoc (pack_le32 _)), (app_assoc pre).
        rewrite drop_app_length. unfold len at 1. rewrite Nat2Z.id.
        rewrite <- app_assoc. now rewrite take_app_length.
      * rewrite !len_app. unfold len at 4. rewrite length_pack_le32.
        pose proof (len_nonneg (flat_trace ps)). pose proof (len_nonneg post). lia.
    + simpl. apply boundaries_from_head.
  - destruct (IH (pre ++ frame q) j Hj) as (o & Ho & Hrec & Hnext).
    assert (Hlen : len (pre ++ frame q) = len pre + 4 + len q).
    { unfold frame. rewrite !len_app. unfold len at 2.
      rewrite length_pack_le32. lia. }
    rewrite Hlen in Ho, Hnext. exists o.
    rewrite flat_trace_cons. unfold frame in Hrec.
    rewrite <- !app_assoc in Hrec. rewrite <- !app_assoc.
    split; [exact Ho|]. split; [exact Hrec|exact Hnext].
Qed.

(** ** Reading one record *)

Lemma set_pos_id (f : File) : set_pos (f_pos f) f = f.
Proof. now destruct f. Qed.

Lemma f_pos_set_pos (x : Z) (f : File) : f_pos (set_pos x f) = x.
Proof. reflexivity. Qed.

Lemma set_pos_set_pos (x y : Z) (f : File) : set_pos x (set_pos y f) = set_pos x f.
Proof. reflexivity. Qed.

Lemma f_seek_within (off : Z) (f : File) :
  0 <= off <= f_size f -> f_seek off f = inr (set_pos off f).
Proof.
  intros H. unfold f_seek. replace (off <? 0) with false by lia.
  destruct (f_lzma f); [|done]. now rewrite Z.min_l by lia.
Qed.

Lemma f_read_header (f : File) (p : list byte) :
  record_at (f_data f) (f_pos f) p ->
  f_read 4 f = (pack_le32 (len p), set_pos (f_pos f + 4) f).
Proof.
  intros (_ & Hh & _). unfold f_read. change (Z.to_nat 4) with 4%nat.
  rewrite Hh. reflexivity.
Qed.

Lemma f_read_payload (f : File) (o : Z) (p : list byte) :
  record_at (f_data f) o p -> f_pos f = o + 4 ->
  f_read (len p) f = (p, set_pos (o + 4 + len p) f).
Proof.
  intros (_ & _ & Hp & _) Hpos. unfold f_read. rewrite Hpos, Hp. reflexivity.
Qed.

Lemma f_read_eof (f : File) (n : Z) :
  f_size f <= f_pos f -> f_read n f = ([], f).
Proof.
  intros H. unfold f_read, f_size, len in *.
  rewrite drop_ge by lia. rewrite take_nil. simpl.
  now rewrite Z.add_0_r, set_pos_id.
Qed.

Ltac unfold_m :=
  cbv [bind ret raise gets set_file set_current_index set_message_offsets
       set_read_complete set_message_cache file_tell file_read file_seek
       file_seek_cur file_seek_end offset_at].

Ltac unfold_m_in H :=
  cbv [bind ret raise gets set_file set_current_index set_message_offsets
       set_read_complete set_message_cache file_tell file_read file_seek
       file_seek_cur file_seek_end offset_at] in H.

Lemma read_record_message (s : Reader) (p : list byte) (last : Z) :
  record_at (f_data (file s)) (f_pos (file s)) p -> fits_prefix p ->
  py_index (message_offsets s) (-1) = Some last ->
  read_record false s =
    (Ok (PMsg (ParseFromString p)),
     let o' := f_pos (file s) + 4 + len p in
     let natural := f_pos (file s) =? last in
     {| file := set_pos o' (file s);
        current_index := current_index s + 1;
        message_offsets :=
          if natural then message_offsets s ++ [o'] else message_offsets s;
        read_complete := read_complete s;
        message_cache :=
          if natural then
            match message_cache s with
            | Some c => Some (<[len (message_offsets s) - 1 := ParseFromString p]> c)
            | None => None
            end
          else message_cache s |}).
Proof.
  intros Hrec Hfit Hlast. destruct s as [f ci offs rc cache]. cbn [file message_offsets current_index read_complete message_cache] in *.
  pose proof (len_nonneg p) as Hp0.
  unfold read_record. unfold_m. cbn [file message_offsets current_index read_complete message_cache].
  change _header_length with 4. rewrite (f_read_header _ _ Hrec).
  replace (len (pack_le32 (len p)) <? 4) with false by reflexivity.
  rewrite unpack_pack_le32 by (unfold fits_prefix in Hfit; lia).
  cbn beta iota. cbn [file message_offsets current_index read_complete message_cache].
  rewrite (f_read_payload _ (f_pos f) p) by (try done; destruct f; done).
  rewrite Z.ltb_irrefl. cbn [file message_offsets current_index read_complete message_cache].
  rewrite Hlast. 
  destruct (f_pos f =? last); [destruct cache|]; reflexivity.
Qed.

Lemma read_record_skip (s : Reader) (p : list byte) (last : Z) :
  record_at (f_data (file s)) (f_pos (file s)) p -> fits_prefix p ->
  py_index (message_offsets s) (-1) = Some last ->
  read_record true s =
    (Ok (PInt (f_pos (file s) + 4 + len p)),
     let o' := f_pos (file s) + 4 + len p in
     {| file := set_pos o' (file s);
        current_index := current_index s + 1;
        message_offsets :=
          if f_pos (file s) =? last then message_offsets s ++ [o']
          else message_offsets s;
        read_complete := read_complete s;
        message_cache := message_cache s |}).
Proof.
  intros Hrec Hfit Hlast. destruct s as [f ci offs rc cache].
  cbn [file message_offsets current_index read_complete message_cache] in *.
  pose proof (len_nonneg p) as Hp0. pose proof Hrec as (Ho & _ & _ & Hsz).
  unfold read_record. unfold_m.
  cbn [file message_offsets current_index read_complete message_cache].
  change _header_length with 4. rewrite (f_read_header _ _ Hrec).
  replace (len (pack_le32 (len p)) <? 4) with false by reflexivity.
  rewrite unpack_pack_le32 by (unfold fits_prefix in Hfit; lia).
  cbn beta iota. cbn [file message_offsets current_index read_complete message_cache].
  rewrite f_pos_set_pos, f_seek_within
    by (unfold f_size; cbn [f_data set_pos]; lia).
  cbn [file message_offsets current_index read_complete message_cache].
  rewrite set_pos_set_pos, f_pos_set_pos.
  replace (f_pos f + 4 + len p - f_pos f <? len p + 4) with false by lia.
  cbn [file message_offsets current_index read_complete message_cache].
  rewrite Hlast. destruct (f_pos f =? last); reflexivity.
Qed.

Lemma read_record_eof (s : Reader) (skip : bool) (last : Z) :
  f_pos (file s) = f_size (file s) ->
  py_index (message_offsets s) (-1) = Some last ->
  read_record skip s =
    (Ok PNone,
     let natural := f_pos (file s) =? last in
     {| file := file s;
        current_index := current_index s;
        message_offsets :=
          if natural then py_pop (message_offsets s) else message_offsets s;
        read_complete := if natural then true else read_complete s;
        message_cache := message_cache s |}).
Proof.
  intros Hpos Hlast. destruct s as [f ci offs rc cache].
  cbn [file message_offsets current_index read_complete message_cache] in *.
  unfold read_record, end_of_stream. unfold_m.
  cbn [file message_offsets current_index read_complete message_cache].
  rewrite f_read_eof by lia. replace (len [] <? _header_length) with true by reflexivity.
  cbn [file message_offsets current_index read_complete message_cache].
  rewrite Hlast. pose proof (len_nonneg (f_data f)) as Hd.
  assert (Hseek : f_seek (f_pos f) f = inr f).
  { unfold f_seek. rewrite Hpos. unfold f_size.
    replace (len (f_data f) <? 0) with false by lia.
    rewrite Z.min_id. destruct (f_lzma f); unfold f_size in Hpos; rewrite <- Hpos;
      now rewrite set_pos_id. }
  destruct (f_pos f =? last);
    cbn [file message_offsets current_index read_complete message_cache];
    rewrite Hseek; reflexivity.
Qed.

Lemma end_of_stream_frame (start : Z) (s s' : Reader) (r : Result PyVal) :
  end_of_stream start s = (r, s') ->
  py_index (message_offsets s) (-1) <> Some start ->
  same_table s s'.
Proof.
  destruct s as [f ci offs rc cache]. unfold end_of_stream. unfold_m.
  cbn [file message_offsets current_index read_complete message_cache].
  intros H Hne. destruct (py_index offs (-1)) as [last|] eqn:E.
  - destruct (Z.eqb_spec start last) as [->|Hn]; [done|].
    cbn [file message_offsets current_index read_complete message_cache] in H.
    destruct (f_seek start f); inversion H; subst; done.
  - inversion H; subst; done.
Qed.

Ltac proj_simpl :=
  cbn [file message_offsets current_index read_complete message_cache
       f_data f_pos f_lzma set_pos fst snd] in *.

Ltac find_scrut t k :=
  lazymatch t with
  | match ?x with _ => _ end => first [find_scrut x k | k x]
  | (match ?x with _ => _ end) _ => first [find_scrut x k | k x]
  end.

Ltac break_hyp H :=
  repeat (proj_simpl;
          match type of H with
          | ?t = _ => find_scrut t ltac:(fun x => destruct x eqn:?)
          end);
  proj_simpl.

Lemma read_record_frame (skip : bool) (s s' : Reader) (r : Result PyVal) :
  read_record skip s = (r, s') ->
  py_index (message_offsets s) (-1) <> Some (f_pos (file s)) ->
  same_table s s'.
Proof.
  destruct s as [f ci offs rc cache]. unfold read_record, end_of_stream, f_read, f_seek.
  unfold_m. intros H Hne. break_hyp H; simplify_eq; try done;
    try (exfalso; apply Hne; f_equal; lia).
Qed.

Lemma read_record_same_file (skip : bool) (s s' : Reader) (r : Result PyVal) :
  read_record skip s = (r, s') -> same_file s s'.
Proof.
  destruct s as [f ci offs rc cache]. unfold read_record, end_of_stream.
  unfold_m. unfold f_read, f_seek.
  intros H. break_hyp H; simplify_eq; split; reflexivity.
Qed.

(** ** The table invariant on a valid trace *)

Lemma py_index_nonneg {A} (l : list A) (i : Z) :
  0 <= i -> py_index l i = l !! Z.to_nat i.
Proof. intros H. unfold py_index. now replace (i <? 0) with false by lia. Qed.

Lemma py_index_last {A} (l : list A) :
  py_index l (-1) = match l with [] => None | _ => l !! (length l - 1)%nat end.
Proof.
  unfold py_index, len. replace (-1 <? 0) with true by lia.
  destruct l as [|x l]; [done|].
  replace (-1 <? - Z.of_nat (length (x :: l))) with false
    by (symmetry; apply Z.ltb_ge; cbn [length]; lia).
  f_equal. simpl. lia.
Qed.

Lemma py_index_last_lookup {A} (l : list A) :
  (0 < length l)%nat -> py_index l (-1) = l !! (length l - 1)%nat.
Proof. intros H. rewrite py_index_last. destruct l; [simpl in H; lia|done]. Qed.

Lemma py_pop_take {A} (l : list A) (k : nat) :
  (k <= length l)%nat -> py_pop (take k l) = take (k - 1) l.
Proof.
  intros H. unfold py_pop. rewrite length_take, Nat.min_l by done.
  rewrite take_take. f_equal. lia.
Qed.

Lemma Inv_init (ps : list (list byte)) (lzma cache_messages : bool) :
  Inv ps (__init__ (flat_trace ps) lzma cache_messages).
Proof.
  split; simpl; try done.
  - unfold boundaries. now destruct ps.
  - intros c k m Hc. destruct cache_messages; [|done].
    inversion Hc; subst. now rewrite lookup_empty.
Qed.

Lemma Inv_same (ps : list (list byte)) (s s' : Reader) :
  Inv ps s -> same_table s s' -> same_file s s' -> Inv ps s'.
Proof.
  intros [H1 H2 H3 H4 H5] (Ho & Hc & Hr) (Hd & _).
  split; rewrite ?Ho, ?Hc, ?Hr, ?Hd; done.
Qed.

Lemma Inv_length (ps : list (list byte)) (s : Reader) :
  Inv ps s -> (length (message_offsets s) <= S (length ps))%nat.
Proof.
  intros H. pose proof (inv_offsets _ _ H) as Ho.
  apply (f_equal length) in Ho. rewrite length_take in Ho.
  unfold boundaries in Ho. rewrite boundaries_from_length in Ho. lia.
Qed.

Lemma Inv_lookup (ps : list (list byte)) (s : Reader) (i : nat) :
  Inv ps s -> (i < length (message_offsets s))%nat ->
  message_offsets s !! i = boundaries ps !! i.
Proof.
  intros H Hi. rewrite (inv_offsets _ _ H) at 1. now apply lookup_take_lt.
Qed.

Section ValidTrace.

Variable ps : list (list byte).
Hypothesis Hfits : Forall fits_prefix ps.

Lemma boundary_cases (j : nat) (o : Z) :
  boundaries ps !! j = Some o ->
  (exists p, ps !! j = Some p /\ record_at (flat_trace ps) o p /\
             boundaries ps !! S j = Some (o + 4 + len p)) \/
  (j = length ps /\ o = len (flat_trace ps)).
Proof.
  intros Hj. destruct (ps !! j) as [p|] eqn:Hp.
  - left. exists p. split; [done|].
    destruct (records_of_trace ps [] [] j p Hp) as (o' & Ho' & Hrec & Hnext).
    change (boundaries_from (len []) ps) with (boundaries ps) in *.
    rewrite app_nil_l, app_nil_r in Hrec. now simplify_eq.
  - right. apply lookup_ge_None in Hp.
    assert (j < S (length ps))%nat.
    { apply lookup_lt_Some in Hj. unfold boundaries in Hj.
      now rewrite boundaries_from_length in Hj. }
    assert (j = length ps) by lia. subst j. split; [done|].
    unfold boundaries in Hj. rewrite boundaries_from_last in Hj.
    simplify_eq. lia.
Qed.

Lemma natural_boundary (s : Reader) (o : Z) :
  Inv ps s -> py_index (message_offsets s) (-1) = Some o ->
  (1 <= length (message_offsets s))%nat /\
  boundaries ps !! (length (message_offsets s) - 1)%nat = Some o.
Proof.
  intros HI Hl. rewrite py_index_last in Hl.
  destruct (message_offsets s) as [|x l] eqn:E; [done|].
  rewrite <- E in *. assert (1 <= length (message_offsets s))%nat
    by (rewrite E; simpl; lia).
  split; [done|]. rewrite <- Hl. symmetry. apply Inv_lookup; [done|lia].
Qed.

Lemma fits_lookup (j : nat) (p : list byte) : ps !! j = Some p -> fits_prefix p.
Proof. intros H. eapply Forall_lookup_1; eauto. Qed.

Lemma Inv_read_record (skip : bool) (s s' : Reader) (r : Result PyVal) :
  Inv ps s -> read_record skip s = (r, s') -> Inv ps s'.
Proof.
  intros HI Hrd.
  destruct (decide (py_index (message_offsets s) (-1) = Some (f_pos (file s))))
    as [Hnat|Hne].
  2:{ eapply Inv_same; [done| |].
      - eapply read_record_frame; eauto.
      - eapply read_record_same_file; eauto. }
  destruct (natural_boundary _ _ HI Hnat) as [HK Hb].
  set (K := length (message_offsets s)) in *.
  pose proof (Inv_length _ _ HI) as HKn. fold K in HKn.
  pose proof (inv_offsets _ _ HI) as Hoffs. fold K in Hoffs.
  destruct (boundary_cases _ _ Hb) as [(p & Hp & Hrec & Hnext)|[Hj Ho]].
  - (* a complete record starts here *)
    rewrite <- (inv_data _ _ HI) in Hrec.
    pose proof (fits_lookup _ _ Hp) as Hfit.
    assert (Happ : message_offsets s ++ [f_pos (file s) + 4 + len p]
                   = take (S K) (boundaries ps)).
    { replace (S K) with (S (K - 1 + 1)) by lia.
      rewrite (take_S_r _ _ (f_pos (file s) + 4 + len p)).
      - f_equal. replace (K - 1 + 1)%nat with K by lia. done.
      - replace (K - 1 + 1)%nat with (S (K - 1)) by lia. done. }
    assert (Hlen : length (message_offsets s ++ [f_pos (file s) + 4 + len p]) = S K).
    { rewrite length_app. simpl. lia. }
    assert (Hlen' : len (message_offsets s ++ [f_pos (file s) + 4 + len p])
                    = Z.of_nat K + 1).
    { unfold len at 1. rewrite Hlen. lia. }
    destruct skip.
    + rewrite (read_record_skip _ _ _ Hrec Hfit Hnat) in Hrd.
      rewrite Z.eqb_refl in Hrd. inversion Hrd; subst r s'; clear Hrd.
      split; cbn [file message_offsets current_index read_complete message_cache
                  f_data set_pos].
      * apply HI.
      * rewrite Hlen. exact Happ.
      * intros _ Hnil. apply (f_equal length) in Hnil. rewrite Hlen in Hnil. done.
      * intros Hrc. rewrite Hlen. apply (inv_complete _ _ HI) in Hrc. lia.
      * intros c k m Hc Hk. destruct (inv_cache _ _ HI c k m Hc Hk) as (H0 & Hpk & Hpos).
        split; [done|]. split; [done|]. left. rewrite Hlen'.
        assert (HlenK : len (message_offsets s) = Z.of_nat K) by done. lia.
    + rewrite (read_record_message _ _ _ Hrec Hfit Hnat) in Hrd.
      rewrite Z.eqb_refl in Hrd. inversion Hrd; subst r s'; clear Hrd.
      split; cbn [file message_offsets current_index read_complete message_cache
                  f_data set_pos].
      * apply HI.
      * rewrite Hlen. exact Happ.
      * intros _ Hnil. apply (f_equal length) in Hnil. rewrite Hlen in Hnil. done.
      * intros Hrc. rewrite Hlen. apply (inv_complete _ _ HI) in Hrc. lia.
      * intros c k m Hc Hk. rewrite Hlen'.
        destruct (message_cache s) as [c0|] eqn:Ec; [|done].
        inversion Hc; subst c; clear Hc.
        assert (HlenK : len (message_offsets s) = Z.of_nat K) by done.
        rewrite HlenK in Hk.
        destruct (decide (k = Z.of_nat K - 1)) as [->|Hkne].
        -- rewrite lookup_insert_eq in Hk. inversion Hk; subst m.
           split; [lia|]. split; [|lia].
           exists p. split; [|done].
           now replace (Z.to_nat (Z.of_nat K - 1)) with (K - 1)%nat by lia.
        -- rewrite lookup_insert_ne in Hk by done.
           destruct (inv_cache _ _ HI c0 k m Ec Hk) as (H0 & Hpk & Hpos).
           split; [done|]. split; [done|]. left. lia.
  - (* the end of the trace *)
    assert (Hpos : f_pos (file s) = f_size (file s)).
    { unfold f_size. now rewrite (inv_data _ _ HI). }
    rewrite (read_record_eof _ _ _ Hpos Hnat) in Hrd.
    rewrite Z.eqb_refl in Hrd. inversion Hrd; subst r s'; clear Hrd.
    assert (Hpop : py_pop (message_offsets s) = take (length ps) (boundaries ps)).
    { rewrite Hoffs. rewrite py_pop_take.
      - f_equal. lia.
      - unfold boundaries. rewrite boundaries_from_length. lia. }
    assert (Hlen : length (py_pop (message_offsets s)) = length ps).
    { rewrite Hpop, length_take. unfold boundaries.
      rewrite boundaries_from_length. lia. }
    split; cbn [file message_offsets current_index read_complete message_cache
                f_data set_pos].
    + apply HI.
    + rewrite Hlen. exact Hpop.
    + done.
    + intros _. lia.
    + intros c k m Hc Hk. destruct (inv_cache _ _ HI c k m Hc Hk) as (H0 & Hpk & Hposk).
      split; [done|]. split; [done|].
      assert (HlenK : len (message_offsets s) = Z.of_nat K) by done.
      assert (Hlen' : len (py_pop (message_offsets s)) = len ps)
        by (unfold len; now rewrite Hlen).
      rewrite Hlen'. unfold len in *. lia.
Qed.

Lemma seek_index_frame (index : option Z) (s s' : Reader) (r : Result unit) :
  seek_index index s = (r, s') -> same_table s s' /\ same_file s s'.
Proof.
  destruct s as [f ci offs rc cache]. unfold seek_index. unfold_m. unfold f_seek.
  intros H. destruct index; break_hyp H; simplify_eq; done.
Qed.

Lemma cached_message_frame (m : Message) (skip : bool) (s s' : Reader)
    (r : Result PyVal) :
  cached_message m skip s = (r, s') -> same_table s s' /\ same_file s s'.
Proof.
  destruct s as [f ci offs rc cache]. unfold cached_message. unfold_m.
  unfold f_seek, f_seek_end.
  intros H. break_hyp H; simplify_eq; done.
Qed.

Lemma Inv_fetch (skip : bool) (s s' : Reader) (r : Result PyVal) :
  Inv ps s -> fetch skip s = (r, s') -> Inv ps s'.
Proof.
  intros HI. unfold fetch. destruct (cache_lookup s (current_index s)); intros H.
  - apply cached_message_frame in H as [? ?]. eapply Inv_same; eauto.
  - eapply Inv_read_record; eauto.
Qed.

Lemma Inv_retrieve_message (index : option Z) (skip : bool) (s s' : Reader)
    (r : Result PyVal) :
  Inv ps s -> retrieve_message index skip s = (r, s') -> Inv ps s'.
Proof.
  intros HI. unfold retrieve_message, bind.
  destruct (seek_index index s) as [r0 s0] eqn:E.
  apply seek_index_frame in E as [? ?].
  assert (Inv ps s0) by (eapply Inv_same; eauto).
  destruct r0; intros H'; [eapply Inv_fetch; eauto| |]; now simplify_eq.
Qed.

Lemma boundary_bounds (j : nat) (o : Z) :
  boundaries ps !! j = Some o -> 0 <= o <= len (flat_trace ps).
Proof.
  intros Hj. split.
  - now apply boundaries_from_ge in Hj.
  - destruct (boundary_cases _ _ Hj) as [(p & _ & (_ & _ & _ & Hsz) & _)|[_ ->]].
    + pose proof (len_nonneg p). lia.
    + lia.
Qed.

Lemma Inv_last (s : Reader) :
  Inv ps s -> message_offsets s <> [] ->
  exists last, py_index (message_offsets s) (-1) = Some last.
Proof.
  intros HI Hne. rewrite py_index_last.
  destruct (message_offsets s) as [|x l] eqn:E; [done|].
  apply lookup_lt_is_Some_2. simpl. lia.
Qed.

Lemma cached_message_noskip (m : Message) (s : Reader) (o : Z) :
  (if current_index s + 1 =? len (message_offsets s)
   then o = f_size (file s)
   else py_index (message_offsets s) (current_index s + 1) = Some o /\
        0 <= o <= f_size (file s)) ->
  cached_message m false s =
    (Ok (PMsg m),
     {| file := set_pos o (file s);
        current_index := current_index s + 1;
        message_offsets := message_offsets s;
        read_complete := read_complete s;
        message_cache := message_cache s |}).
Proof.
  destruct s as [f ci offs rc cache]. unfold cached_message. unfold_m.
  cbn [file message_offsets current_index read_complete message_cache].
  destruct (ci + 1 =? len offs).
  - intros ->. reflexivity.
  - intros [Hpy Ho].
    cbn [file message_offsets current_index read_complete message_cache].
    rewrite Hpy.
    cbn [file message_offsets current_index read_complete message_cache].
    now rewrite f_seek_within.
Qed.

Lemma fetch_record (s : Reader) (j : nat) (p : list byte) :
  At ps s j -> ps !! j = Some p ->
  exists s', fetch false s = (Ok (PMsg (ParseFromString p)), s') /\
             At ps s' (S j) /\
             (length (message_offsets s) <= length (message_offsets s'))%nat.
Proof.
  intros (HI & Hci & Hpos) Hp.
  pose proof (lookup_lt_Some _ _ _ Hp) as Hjn.
  destruct (boundary_cases _ _ Hpos) as [(p' & Hp' & Hrec & Hnext)|[Hj _]]; [|lia].
  assert (p' = p) by congruence. subst p'.
  pose proof (Inv_length _ _ HI) as HKn.
  destruct (fetch false s) as [r s'] eqn:Hf.
  pose proof (Inv_fetch _ _ _ _ HI Hf) as HI'.
  unfold fetch in Hf. destruct (cache_lookup s (current_index s)) as [m|] eqn:Hc.
  - (* served from the cache *)
    unfold cache_lookup in Hc. destruct (message_cache s) as [c|] eqn:Ec; [|done].
    destruct (inv_cache _ _ HI c _ m Ec Hc) as (_ & (q & Hq & ->) & Hk).
    rewrite Hci, Nat2Z.id in Hq. assert (q = p) by congruence. subst q.
    rewrite Hci in Hk.
    rewrite (cached_message_noskip _ _ (f_pos (file s) + 4 + len p)) in Hf.
    + inversion Hf; subst r s'; clear Hf. exists
        {| file := set_pos (f_pos (file s) + 4 + len p) (file s);
           current_index := current_index s + 1;
           message_offsets := message_offsets s;
           read_complete := read_complete s;
           message_cache := message_cache s |}.
      split; [done|]. split; [|done]. split; [done|].
      cbn [file message_offsets current_index read_complete message_cache f_pos set_pos].
      split; [lia|done].
    + rewrite Hci. unfold len in *. destruct (Z.eqb_spec (Z.of_nat j + 1) (Z.of_nat (length (message_offsets s)))) as [He|Hn].
      * destruct Hk as [Hk|(_ & Hk & _)]; [lia|].
        assert (S j = length ps) by lia.
        unfold boundaries in Hnext. replace (S j) with (length ps) in Hnext by done.
        rewrite boundaries_from_last in Hnext. unfold f_size.
        rewrite (inv_data _ _ HI). injection Hnext as Hnext.
        unfold len in *. lia.
      * destruct Hk as [Hk|Hk]; [|lia]. split.
        -- rewrite py_index_nonneg by lia.
           replace (Z.to_nat (Z.of_nat j + 1)) with (S j) by lia.
           rewrite (Inv_lookup ps) by (done || lia). done.
        -- apply boundary_bounds in Hnext. unfold f_size.
           now rewrite (inv_data _ _ HI).
  - (* read from the file *)
    destruct (Inv_last s HI) as [last Hlast].
    { destruct (read_complete s) eqn:Hrc.
      - apply (inv_complete _ _ HI) in Hrc. intros Hnil. rewrite Hnil in Hrc.
        simpl in Hrc. lia.
      - now apply (inv_nonempty _ _ HI). }
    rewrite <- (inv_data _ _ HI) in Hrec.
    rewrite (read_record_message _ _ _ Hrec (fits_lookup _ _ Hp) Hlast) in Hf.
    inversion Hf; subst r. eexists. split; [reflexivity|].
    rewrite H1. split.
    + split; [done|]. rewrite <- H1.
      cbn [file message_offsets current_index read_complete message_cache f_pos set_pos].
      split; [lia|done].
    + rewrite <- H1.
      cbn [file message_offsets current_index read_complete message_cache f_pos set_pos].
      destruct (f_pos (file s) =? last); [|done]. rewrite length_app. lia.
Qed.

Lemma cache_miss_at_end (s : Reader) :
  Inv ps s -> cache_lookup s (Z.of_nat (length ps)) = None.
Proof.
  intros HI. unfold cache_lookup. destruct (message_cache s) as [c|] eqn:Ec; [|done].
  destruct (c !! Z.of_nat (length ps)) as [m|] eqn:Em; [|done].
  destruct (inv_cache _ _ HI c _ m Ec Em) as (_ & (q & Hq & _) & _).
  rewrite Nat2Z.id in Hq. apply lookup_lt_Some in Hq. lia.
Qed.

Lemma fetch_eof (skip : bool) (s : Reader) (last : Z) :
  At ps s (length ps) ->
  py_index (message_offsets s) (-1) = Some last ->
  fetch skip s =
    (Ok PNone,
     let natural := f_pos (file s) =? last in
     {| file := file s;
        current_index := current_index s;
        message_offsets :=
          if natural then py_pop (message_offsets s) else message_offsets s;
        read_complete := if natural then true else read_complete s;
        message_cache := message_cache s |}).
Proof.
  intros (HI & Hci & Hpos) Hlast. unfold fetch.
  replace (cache_lookup s (current_index s)) with (@None Message)
    by (rewrite Hci; symmetry; now apply cache_miss_at_end).
  apply read_record_eof; [|done].
  unfold boundaries in Hpos. rewrite boundaries_from_last in Hpos.
  unfold f_size. rewrite (inv_data _ _ HI). simplify_eq. lia.
Qed.

Lemma fetch_eof_At (skip : bool) (s : Reader) :
  At ps s (length ps) -> message_offsets s <> [] ->
  exists s', fetch skip s = (Ok PNone, s') /\ At ps s' (length ps).
Proof.
  intros HA Hne. pose proof HA as (HI & Hci & Hpos).
  destruct (Inv_last s HI Hne) as [last Hlast].
  pose proof (fetch_eof skip s last HA Hlast) as Hf.
  eexists. split; [exact Hf|]. split; [|done].
  eapply Inv_fetch; eauto.
Qed.

Lemma retrieve_message_None (skip : bool) (s : Reader) :
  retrieve_message None skip s = fetch skip s.
Proof. unfold retrieve_message, seek_index, bind, ret. now destruct (fetch skip s) as [[]]. Qed.

Lemma iter_spec (fuel : nat) (s : Reader) (j : nat) :
  At ps s j -> message_offsets s <> [] -> (length ps - j < fuel)%nat ->
  exists s',
    __iter__ fuel s = (Ok ((fun p => PMsg (ParseFromString p)) <$> drop j ps), s') /\
    At ps s' (length ps).
Proof.
  revert s j. induction fuel as [|fuel IH]; intros s j HA Hne Hfuel; [lia|].
  cbn [__iter__]. unfold bind at 1. rewrite retrieve_message_None.
  destruct (ps !! j) as [p|] eqn:Hp.
  - destruct (fetch_record s j p HA Hp) as (s1 & Hf & HA1 & Hmono).
    rewrite Hf. cbn [truthy]. unfold bind at 1.
    assert (Hne1 : message_offsets s1 <> []).
    { intros Hnil. rewrite Hnil in Hmono. destruct (message_offsets s); [done|].
      simpl in Hmono. lia. }
    apply lookup_lt_Some in Hp as Hlt.
    destruct (IH s1 (S j) HA1 Hne1 ltac:(lia)) as (s2 & Hit & HA2).
    rewrite Hit. unfold ret. exists s2. split; [|done].
    now rewrite (drop_S _ _ _ Hp).
  - apply lookup_ge_None in Hp.
    assert (Hj : j = length ps).
    { destruct HA as (_ & _ & Hb). apply lookup_lt_Some in Hb.
      unfold boundaries in Hb. rewrite boundaries_from_length in Hb. lia. }
    subst j. destruct (fetch_eof_At false s HA Hne) as (s1 & Hf & HA1).
    rewrite Hf. cbn [truthy]. unfold ret. exists s1. split; [|done].
    now rewrite drop_all.
Qed.

Lemma At_goto (s : Reader) (j : nat) (o : Z) :
  Inv ps s -> boundaries ps !! j = Some o -> At ps (goto o (Z.of_nat j) s) j.
Proof.
  intros HI Hb. split; [|done]. eapply Inv_same; [exact HI| |]; done.
Qed.

Lemma seek_index_At (s : Reader) (j : nat) :
  Inv ps s -> (j < length (message_offsets s))%nat ->
  exists o, boundaries ps !! j = Some o /\
            seek_index (Some (Z.of_nat j)) s = (Ok tt, goto o (Z.of_nat j) s).
Proof.
  intros HI Hj. pose proof (Inv_lookup ps s j HI Hj) as Hl.
  destruct (lookup_lt_is_Some_2 _ _ Hj) as [o Ho]. rewrite Ho in Hl.
  exists o. split; [done|]. pose proof (boundary_bounds j o (eq_sym Hl)) as Hb.
  rewrite <- (inv_data _ _ HI) in Hb.
  destruct s as [f ci offs rc cache]. unfold seek_index. unfold_m.
  cbn [file message_offsets current_index read_complete message_cache] in *.
  rewrite py_index_nonneg by lia. rewrite Nat2Z.id, Ho.
  cbn [file message_offsets current_index read_complete message_cache].
  now rewrite f_seek_within.
Qed.

Lemma restart_At (s : Reader) (j : nat) :
  Inv ps s -> (j < length (message_offsets s))%nat ->
  exists o, boundaries ps !! j = Some o /\
            restart (Some (Z.of_nat j)) s = (Ok tt, goto o (Z.of_nat j) s).
Proof.
  intros HI Hj. pose proof (Inv_lookup ps s j HI Hj) as Hl.
  destruct (lookup_lt_is_Some_2 _ _ Hj) as [o Ho]. rewrite Ho in Hl.
  exists o. split; [done|]. pose proof (boundary_bounds j o (eq_sym Hl)) as Hb.
  rewrite <- (inv_data _ _ HI) in Hb.
  assert (Hz : (if Z.of_nat j =? 0 then 0 else Z.of_nat j) = Z.of_nat j).
  { destruct (Z.eqb_spec (Z.of_nat j) 0); lia. }
  destruct s as [f ci offs rc cache]. unfold restart. unfold_m.
  cbn [file message_offsets current_index read_complete message_cache] in *.
  rewrite Hz. rewrite py_index_nonneg by lia. rewrite Nat2Z.id, Ho.
  cbn [file message_offsets current_index read_complete message_cache].
  now rewrite f_seek_within.
Qed.

(** One skipping read at the end of the table, as [retrieve_offsets]
    performs it. *)
Lemma fetch_skip_step (s : Reader) :
  At ps s (length (message_offsets s) - 1) ->
  read_complete s = false ->
  exists r s',
    fetch true s = (Ok r, s') /\ Inv ps s' /\
    message_cache s' = message_cache s /\
    ((length (message_offsets s) <= length ps)%nat /\
     read_complete s' = false /\
     length (message_offsets s') = S (length (message_offsets s)) /\
     At ps s' (length (message_offsets s)) \/
     (length (message_offsets s) = S (length ps)) /\
     read_complete s' = true /\
     message_offsets s' = take (length ps) (boundaries ps)).
Proof.
  intros HA Hrc. pose proof HA as (HI & Hci & Hpos).
  set (K := length (message_offsets s)) in *.
  assert (HK : (1 <= K)%nat).
  { pose proof (inv_nonempty _ _ HI Hrc) as Hne. subst K.
    destruct (message_offsets s); [done|simpl; lia]. }
  destruct (Inv_last s HI (inv_nonempty _ _ HI Hrc)) as [last Hlast].
  destruct (natural_boundary _ _ HI Hlast) as [_ Hb]. fold K in Hb.
  assert (last = f_pos (file s)) by congruence. subst last.
  assert (Hmiss : cache_lookup s (current_index s) = None).
  { unfold cache_lookup. destruct (message_cache s) as [c|] eqn:Ec; [|done].
    destruct (c !! current_index s) as [m|] eqn:Em; [|done].
    destruct (inv_cache _ _ HI c _ m Ec Em) as (_ & _ & Hk).
    unfold len in Hk. fold K in Hk. rewrite Hci in Hk.
    destruct Hk as [Hk|(_ & _ & Hk)]; [lia|congruence]. }
  destruct (fetch true s) as [r s'] eqn:Hf.
  pose proof (Inv_fetch _ _ _ _ HI Hf) as HI'.
  unfold fetch in Hf. rewrite Hmiss in Hf.
  destruct (boundary_cases _ _ Hpos) as [(p & Hp & Hrec & Hnext)|[Hj Ho]].
  - rewrite <- (inv_data _ _ HI) in Hrec.
    rewrite (read_record_skip _ _ _ Hrec (fits_lookup _ _ Hp) Hlast) in Hf.
    rewrite Z.eqb_refl in Hf. inversion Hf; subst r. eexists _, s'.
    split; [done|]. split; [done|]. rewrite <- H1.
    cbn [file message_offsets current_index read_complete message_cache f_pos set_pos].
    split; [done|]. left. apply lookup_lt_Some in Hp.
    split; [lia|]. split; [done|]. split; [rewrite length_app; simpl; lia|].
    split; [now rewrite H1|].
    cbn [file message_offsets current_index read_complete message_cache f_pos set_pos].
    split; [lia|]. fold K. now replace K with (S (K - 1)) at 1 by lia.
  - assert (Hsz : f_pos (file s) = f_size (file s)).
    { unfold f_size. now rewrite (inv_data _ _ HI). }
    rewrite (read_record_eof _ _ _ Hsz Hlast) in Hf.
    rewrite Z.eqb_refl in Hf. inversion Hf; subst r. eexists _, s'.
    split; [done|]. split; [done|]. rewrite <- H1.
    cbn [file message_offsets current_index read_complete message_cache f_pos set_pos].
    split; [done|]. right. split; [lia|]. split; [done|].
    rewrite (inv_offsets _ _ HI). fold K. rewrite py_pop_take.
    + f_equal. lia.
    + unfold boundaries. rewrite boundaries_from_length. lia.
Qed.

Lemma retrieve_offsets_loop_done (fuel : nat) (limit : option Z) (s : Reader) :
  read_complete s = true -> retrieve_offsets_loop fuel limit s = (Ok tt, s).
Proof. intros H. destruct fuel; simpl; now rewrite H. Qed.

Lemma retrieve_offsets_loop_all (fuel : nat) (limit : option Z) (s : Reader) :
  unbounded ps limit ->
  At ps s (length (message_offsets s) - 1) ->
  read_complete s = false ->
  (S (S (length ps)) - length (message_offsets s) <= fuel)%nat ->
  exists s',
    retrieve_offsets_loop fuel limit s = (Ok tt, s') /\ Inv ps s' /\
    message_offsets s' = take (length ps) (boundaries ps) /\
    read_complete s' = true /\ message_cache s' = message_cache s.
Proof.
  intros Hlim. revert s.
  induction fuel as [|fuel IH]; intros s HA Hrc Hfuel.
  { pose proof (Inv_length _ _ (proj1 HA)). lia. }
  cbn [retrieve_offsets_loop]. rewrite Hrc.
  replace (negb false && match limit with
                         | Some l => (l =? 0) || (len (message_offsets s) <=? l)
                         | None => true
                         end) with true.
  2:{ destruct limit as [l|]; [|done]. symmetry. apply orb_true_intro.
      pose proof (Inv_length _ _ (proj1 HA)).
      destruct Hlim as [->|Hl]; [now left|right].
      apply Z.leb_le. unfold len in *. lia. }
  unfold bind. rewrite retrieve_message_None.
  destruct (fetch_skip_step s HA Hrc)
    as (r & s1 & Hf & HI1 & Hc1 & [(Hn & Hrc1 & Hlen1 & HA1)|(Hn & Hrc1 & Ho1)]).
  - rewrite Hf. destruct (IH s1) as (s2 & Hl & HI2 & Ho2 & Hrc2 & Hc2).
    + rewrite Hlen1. now replace (S (length (message_offsets s)) - 1)%nat
        with (length (message_offsets s)) by lia.
    + done.
    + lia.
    + exists s2. rewrite Hc2, Hc1. done.
  - rewrite Hf, retrieve_offsets_loop_done by done. exists s1. done.
Qed.

Lemma retrieve_offsets_loop_upto (fuel : nat) (l : nat) (s : Reader) :
  (0 < l <= length ps)%nat ->
  (length (message_offsets s) <= S l)%nat ->
  At ps s (length (message_offsets s) - 1) ->
  read_complete s = false ->
  (S l - length (message_offsets s) <= fuel)%nat ->
  exists s',
    retrieve_offsets_loop fuel (Some (Z.of_nat l)) s = (Ok tt, s') /\ Inv ps s' /\
    length (message_offsets s') = S l /\
    message_cache s' = message_cache s.
Proof.
  intros Hl. revert s.
  induction fuel as [|fuel IH]; intros s HK HA Hrc Hfuel.
  - assert (length (message_offsets s) = S l) by lia.
    cbn [retrieve_offsets_loop]. rewrite Hrc.
    replace ((Z.of_nat l =? 0) || (len (message_offsets s) <=? Z.of_nat l))
      with false.
    2:{ symmetry. apply orb_false_intro; [apply Z.eqb_neq|apply Z.leb_gt];
        unfold len; lia. }
    exists s. split; [done|]. split; [apply HA|done].
  - cbn [retrieve_offsets_loop]. rewrite Hrc.
    destruct (decide (length (message_offsets s) = S l)) as [He|Hne].
    + replace ((Z.of_nat l =? 0) || (len (message_offsets s) <=? Z.of_nat l))
        with false.
      2:{ symmetry. apply orb_false_intro; [apply Z.eqb_neq|apply Z.leb_gt];
          unfold len; lia. }
      exists s. split; [done|]. split; [apply HA|done].
    + replace ((Z.of_nat l =? 0) || (len (message_offsets s) <=? Z.of_nat l))
        with true.
      2:{ symmetry. apply orb_true_intro. right. apply Z.leb_le. unfold len. lia. }
      cbn [negb andb]. unfold bind. rewrite retrieve_message_None.
      destruct (fetch_skip_step s HA Hrc)
        as (r & s1 & Hf & HI1 & Hc1 & [(Hn & Hrc1 & Hlen1 & HA1)|(Hn & Hrc1 & Ho1)]);
        [|lia].
      rewrite Hf. destruct (IH s1) as (s2 & Hl2 & HI2 & Ho2 & Hc2).
      * lia.
      * rewrite Hlen1. now replace (S (length (message_offsets s)) - 1)%nat
          with (length (message_offsets s)) by lia.
      * done.
      * lia.
      * exists s2. rewrite Hc2, Hc1. done.
Qed.

Lemma retrieve_offsets_start (s : Reader) :
  Inv ps s -> read_complete s = false ->
  exists o,
    py_index (message_offsets s) (-1) = Some o /\ 0 <= o <= f_size (file s) /\
    At ps (goto o (len (message_offsets s) - 1) s) (length (message_offsets s) - 1).
Proof.
  intros HI Hrc.
  destruct (Inv_last s HI (inv_nonempty _ _ HI Hrc)) as [last Hlast].
  destruct (natural_boundary _ _ HI Hlast) as [HK Hb].
  exists last. split; [done|]. split.
  - unfold f_size. rewrite (inv_data _ _ HI). eapply boundary_bounds; eauto.
  - replace (len (message_offsets s) - 1)
      with (Z.of_nat (length (message_offsets s) - 1)) by (unfold len; lia).
    now apply At_goto.
Qed.

Lemma retrieve_offsets_unfold (fuel : nat) (limit : option Z) (s : Reader) (o : Z) :
  read_complete s = false ->
  py_index (message_offsets s) (-1) = Some o -> 0 <= o <= f_size (file s) ->
  retrieve_offsets fuel limit s =
    (retrieve_offsets_loop fuel limit ;;; gets message_offsets)
      (goto o (len (message_offsets s) - 1) s).
Proof.
  intros Hrc Ho Hb. destruct s as [f ci offs rc cache].
  cbn [file message_offsets current_index read_complete message_cache] in *.
  subst rc. unfold retrieve_offsets, goto.
  unfold bind at 1. unfold gets at 1. cbn [negb read_complete].
  unfold bind at 1. unfold bind at 1. unfold gets at 1.
  unfold bind at 1. unfold set_current_index at 1.
  unfold bind at 1. unfold offset_at at 1.
  cbn [file message_offsets current_index read_complete message_cache].
  rewrite Ho. unfold file_seek.
  cbn [file message_offsets current_index read_complete message_cache].
  rewrite f_seek_within by done. unfold set_file.
  cbn [file message_offsets current_index read_complete message_cache].
  reflexivity.
Qed.

Lemma retrieve_offsets_all (fuel : nat) (limit : option Z) (s : Reader) :
  unbounded ps limit ->
  Inv ps s -> read_complete s = false ->
  (S (S (length ps)) - length (message_offsets s) <= fuel)%nat ->
  exists s',
    retrieve_offsets fuel limit s = (Ok (take (length ps) (boundaries ps)), s') /\
    Inv ps s' /\ read_complete s' = true /\
    message_offsets s' = take (length ps) (boundaries ps) /\
    message_cache s' = message_cache s.
Proof.
  intros Hlim HI Hrc Hfuel.
  destruct (retrieve_offsets_start s HI Hrc) as (o & Ho & Hb & HA).
  rewrite (retrieve_offsets_unfold _ _ _ o) by done.
  destruct (retrieve_offsets_loop_all fuel limit _ Hlim HA Hrc Hfuel)
    as (s' & Hl & HI' & Ho' & Hrc' & Hc').
  unfold bind. rewrite Hl. unfold gets. rewrite Ho'. exists s'. done.
Qed.

Lemma retrieve_offsets_upto (fuel : nat) (l : nat) (s : Reader) :
  (0 < l <= length ps)%nat ->
  (length (message_offsets s) <= S l)%nat ->
  Inv ps s -> read_complete s = false ->
  (S l - length (message_offsets s) <= fuel)%nat ->
  exists s',
    retrieve_offsets fuel (Some (Z.of_nat l)) s = (Ok (message_offsets s'), s') /\
    Inv ps s' /\ length (message_offsets s') = S l /\
    message_cache s' = message_cache s.
Proof.
  intros Hl HK HI Hrc Hfuel.
  destruct (retrieve_offsets_start s HI Hrc) as (o & Ho & Hb & HA).
  rewrite (retrieve_offsets_unfold _ _ _ o) by done.
  destruct (retrieve_offsets_loop_upto fuel l
              (goto o (len (message_offsets s) - 1) s) Hl HK HA Hrc Hfuel)
    as (s' & Hl' & HI' & Hlen' & Hc').
  unfold bind. rewrite Hl'. unfold gets. exists s'. done.
Qed.

(** [get_message_by_index] on an index that holds a record: the record is
    returned and the invariant is kept. *)
Lemma get_message_by_index_spec (fuel : nat) (s : Reader) (i : nat) (p : list byte) :
  Inv ps s -> ps !! i = Some p -> (S i <= fuel)%nat ->
  exists s',
    get_message_by_index fuel (Z.of_nat i) s = (Ok (PMsg (ParseFromString p)), s') /\
    Inv ps s'.
Proof.
  intros HI Hp Hfuel. pose proof (lookup_lt_Some _ _ _ Hp) as Hin.
  unfold get_message_by_index. unfold bind at 1. unfold gets at 1.
  unfold bind at 1.
  (* extend the table when the index is not covered yet *)
  assert (Hext : exists s1,
    (if len (message_offsets s) <=? Z.of_nat i
     then retrieve_offsets fuel (Some (Z.of_nat i));;; ret ()
     else ret ()) s = (Ok tt, s1) /\ Inv ps s1 /\
    (i < length (message_offsets s1))%nat).
  { destruct (Z.leb_spec (len (message_offsets s)) (Z.of_nat i)) as [Hle|Hgt].
    - unfold len in Hle.
      assert (Hrc : read_complete s = false).
      { destruct (read_complete s) eqn:E; [|done].
        apply (inv_complete _ _ HI) in E. lia. }
      assert (0 < i)%nat.
      { pose proof (inv_nonempty _ _ HI Hrc). destruct (message_offsets s); [done|].
        simpl in Hle. lia. }
      destruct (retrieve_offsets_upto fuel i s) as (s1 & Hr & HI1 & Hlen1 & _);
        try done; try lia.
      unfold bind. rewrite Hr. unfold ret. exists s1. split; [done|].
      split; [done|lia].
    - unfold ret. exists s. unfold len in Hgt. split; [done|]. split; [done|lia]. }
  destruct Hext as (s1 & -> & HI1 & Hcov).
  unfold bind at 1. unfold gets at 1. unfold id.
  destruct (cache_lookup s1 (Z.of_nat i)) as [m|] eqn:Hc.
  - unfold cache_lookup in Hc. destruct (message_cache s1) as [c|] eqn:Ec; [|done].
    destruct (inv_cache _ _ HI1 c _ m Ec Hc) as (_ & (q & Hq & ->) & _).
    rewrite Nat2Z.id in Hq. assert (q = p) by congruence. subst q.
    unfold ret. exists s1. done.
  - destruct (seek_index_At s1 i HI1 Hcov) as (o & Ho & Hseek).
    unfold retrieve_message. unfold bind at 1. rewrite Hseek.
    pose proof (At_goto s1 i o HI1 Ho) as HA.
    destruct (fetch_record _ i p HA Hp) as (s2 & Hf & HA2 & _).
    exists s2. split; [exact Hf|apply HA2].
Qed.

End ValidTrace.

(** ** The invariant holds in every reachable state *)

Section Reachable.

Variable ps : list (list byte).
Hypothesis Hfits : Forall fits_prefix ps.

Lemma keeps_bind {A B} (m : M A) (k : A -> M B) :
  keeps ps m -> (forall a, keeps ps (k a)) -> keeps ps (bind m k).
Proof.
  intros Hm Hk s r s' HI. unfold bind.
  destruct (m s) as [[a|e|] s1] eqn:E; intros Hr.
  - eapply Hk; [eapply Hm; eauto|exact Hr].
  - inversion Hr; subst. eapply Hm; eauto.
  - inversion Hr; subst. eapply Hm; eauto.
Qed.

Lemma keeps_ret {A} (a : A) : keeps ps (ret a).
Proof. intros s r s' HI Hr. now inversion Hr; subst. Qed.

Lemma keeps_gets {A} (f : Reader -> A) : keeps ps (gets f).
Proof. intros s r s' HI Hr. now inversion Hr; subst. Qed.

Lemma keeps_retrieve_message (index : option Z) (skip : bool) :
  keeps ps (retrieve_message index skip).
Proof. intros s r s' HI Hr. eapply Inv_retrieve_message; eauto. Qed.

Lemma keeps_restart (index : option Z) : keeps ps (restart index).
Proof.
  intros s r s' HI Hr. eapply Inv_same; [exact HI| |];
    destruct s as [f ci offs rc cache]; unfold restart in Hr; unfold_m_in Hr;
    unfold f_seek in Hr; break_hyp Hr; simplify_eq; done.
Qed.

Lemma keeps_retrieve_offsets_loop (fuel : nat) (limit : option Z) :
  keeps ps (retrieve_offsets_loop fuel limit).
Proof.
  induction fuel as [|fuel IH]; intros s r s' HI Hr; cbn [retrieve_offsets_loop] in Hr.
  - destruct (_ && _); now inversion Hr; subst.
  - destruct (_ && _); [|now inversion Hr; subst].
    revert s r s' HI Hr. apply keeps_bind; [apply keeps_retrieve_message|].
    intros _. exact IH.
Qed.

Lemma keeps_retrieve_offsets (fuel : nat) (limit : option Z) :
  keeps ps (retrieve_offsets fuel limit).
Proof.
  unfold retrieve_offsets. apply keeps_bind; [apply keeps_gets|]. intros rc.
  apply keeps_bind.
  - destruct (negb rc); [|apply keeps_ret].
    intros s r s' HI Hr. eapply Inv_same; [exact HI| |];
      destruct s as [f ci offs rc' cache]; unfold_m_in Hr; unfold f_seek in Hr;
      break_hyp Hr; simplify_eq; done.
  - intros _. apply keeps_bind; [apply keeps_retrieve_offsets_loop|].
    intros _. apply keeps_gets.
Qed.

Lemma keeps_iter (fuel : nat) : keeps ps (__iter__ fuel).
Proof.
  induction fuel as [|fuel IH]; cbn [__iter__].
  - intros s r s' HI Hr. now inversion Hr; subst.
  - apply keeps_bind; [apply keeps_retrieve_message|]. intros message.
    destruct (truthy message); [|apply keeps_ret].
    apply keeps_bind; [exact IH|]. intros rest. apply keeps_ret.
Qed.

Lemma keeps_get_message_by_index (fuel : nat) (index : Z) :
  keeps ps (get_message_by_index fuel index).
Proof.
  unfold get_message_by_index.
  apply keeps_bind; [apply keeps_gets|]. intros offs.
  apply keeps_bind.
  { destruct (len offs <=? index); [|apply keeps_ret].
    apply keeps_bind; [apply keeps_retrieve_offsets|]. intros _. apply keeps_ret. }
  intros _. apply keeps_bind; [apply keeps_gets|]. intros s0.
  destruct (cache_lookup s0 index); [apply keeps_ret|apply keeps_retrieve_message].
Qed.

Lemma keeps_index_range_loop (fuel : nat) (current : Z) (end_ : option Z) :
  keeps ps (index_range_loop fuel current end_).
Proof.
  revert current. induction fuel as [|fuel IH]; intros current s r s' HI Hr;
    cbn [index_range_loop] in Hr.
  - destruct (match end_ with Some e => current <? e | None => true end);
      now inversion Hr; subst.
  - destruct (match end_ with Some e => current <? e | None => true end);
      [|now inversion Hr; subst].
    destruct (cache_lookup s current).
    + revert s r s' HI Hr. apply keeps_bind; [apply IH|]. intros rest. apply keeps_ret.
    + revert s r s' HI Hr. apply keeps_bind; [apply keeps_retrieve_message|].
      intros message. destruct message; [apply keeps_ret| |];
        (apply keeps_bind; [apply IH|]; intros rest; apply keeps_ret).
Qed.

Lemma keeps_get_messages_in_index_range (fuel : nat) (begin : Z) (end_ : option Z) :
  keeps ps (get_messages_in_index_range fuel begin end_).
Proof.
  unfold get_messages_in_index_range.
  apply keeps_bind; [apply keeps_gets|]. intros offs.
  apply keeps_bind.
  { destruct (len offs <=? begin); [|apply keeps_ret].
    apply keeps_bind; [apply keeps_retrieve_offsets|]. intros _. apply keeps_ret. }
  intros _. apply keeps_bind; [apply keeps_restart|]. intros _.
  apply keeps_index_range_loop.
Qed.

(** Every state a reader opened on a valid trace can be brought to by its
    methods satisfies the invariant. *)
Lemma reachable_Inv (lzma cache_messages : bool) (s : Reader) :
  reachable (flat_trace ps) lzma cache_messages s -> Inv ps s.
Proof.
  induction 1 as [|c s Hreach IH]; [apply Inv_init|].
  destruct c; cbn [after_call].
  - eapply keeps_retrieve_message; [exact IH|apply surjective_pairing].
  - eapply keeps_retrieve_offsets; [exact IH|apply surjective_pairing].
  - eapply keeps_restart; [exact IH|apply surjective_pairing].
  - eapply keeps_iter; [exact IH|apply surjective_pairing].
  - eapply keeps_get_message_by_index; [exact IH|apply surjective_pairing].
  - eapply keeps_get_messages_in_index_range; [exact IH|apply surjective_pairing].
Qed.

End Reachable.

(** ** Iteration over a trace that ends in a partial record *)

Lemma read_record_stops (s : Reader) (last : Z) :
  incomplete (drop (Z.to_nat (f_pos (file s))) (f_data (file s))) ->
  0 <= f_pos (file s) <= f_size (file s) ->
  py_index (message_offsets s) (-1) = Some last ->
  read_record false s =
    (Ok PNone,
     let natural := f_pos (file s) =? last in
     {| file := file s;
        current_index := current_index s;
        message_offsets :=
          if natural then py_pop (message_offsets s) else message_offsets s;
        read_complete := if natural then true else read_complete s;
        message_cache := message_cache s |}).
Proof.
  intros Hinc Hpos Hlast. destruct s as [f ci offs rc cache].
  cbn [file message_offsets current_index read_complete message_cache] in *.
  set (rest := drop (Z.to_nat (f_pos f)) (f_data f)) in *.
  assert (Hseek : forall x, f_seek (f_pos f) (set_pos x f) = inr f).
  { intros x. rewrite f_seek_within by (unfold f_size; cbn [f_data set_pos]; exact Hpos).
    now rewrite set_pos_set_pos, set_pos_id. }
  assert (Hend : forall x,
    end_of_stream (f_pos f)
      {| file := set_pos x f; current_index := ci; message_offsets := offs;
         read_complete := rc; message_cache := cache |}
    = (Ok PNone,
       {| file := f; current_index := ci;
          message_offsets := if f_pos f =? last then py_pop offs else offs;
          read_complete := if f_pos f =? last then true else rc;
          message_cache := cache |})).
  { intros x. unfold end_of_stream. unfold_m.
    cbn [file message_offsets current_index read_complete message_cache].
    rewrite Hlast.
    destruct (f_pos f =? last);
      cbn [file message_offsets current_index read_complete message_cache];
      rewrite Hseek; reflexivity. }
  unfold read_record. unfold_m.
  cbn [file message_offsets current_index read_complete message_cache].
  change _header_length with 4. unfold f_read at 1. change (Z.to_nat 4) with 4%nat.
  fold rest. cbv beta iota zeta.
  destruct (Z.ltb_spec (len (take 4 rest)) 4) as [Hshort|Hfull].
  - apply Hend.
  - cbn [file message_offsets current_index read_complete message_cache].
    assert (Hl4 : len (take 4 rest) = 4).
    { unfold len in *. rewrite length_take in *. lia. }
    assert (Hrest : 4 <= len rest).
    { unfold len in *. rewrite length_take in Hl4. lia. }
    destruct Hinc as [Hinc|Hinc]; [lia|].
    unfold f_read. cbn [f_pos f_data set_pos]. rewrite Hl4.
    replace (drop (Z.to_nat (f_pos f + 4)) (f_data f)) with (drop 4 rest).
    2:{ unfold rest. rewrite drop_drop. f_equal. lia. }
    cbv beta iota zeta.
    cbn [file message_offsets current_index read_complete message_cache].
    set (L := unpack_le32 (take 4 rest)) in *.
    replace (len (take (Z.to_nat L) (drop 4 rest)) <? L) with true.
    2:{ symmetry. apply Z.ltb_lt. unfold len in *.
        rewrite length_take, length_drop. lia. }
    rewrite set_pos_set_pos. apply Hend.
Qed.

Section Truncated.

Variable ps : list (list byte).
Variable tail : list byte.
Hypothesis Hfits : Forall fits_prefix ps.
Hypothesis Htail : incomplete tail.

Local Abbreviation data := (flat_trace ps ++ tail).

Lemma cache_of_miss (j : nat) (k : Z) : Z.of_nat j <= k -> cache_of ps j !! k = None.
Proof.
  induction j as [|j IH]; intros Hk; cbn [cache_of]; [apply lookup_empty|].
  destruct (ps !! j); [rewrite lookup_insert_ne by lia|]; apply IH; lia.
Qed.

Lemma drop_at_end :
  drop (Z.to_nat (len (flat_trace ps))) data = tail.
Proof. unfold len. rewrite Nat2Z.id. apply drop_app_length. Qed.

Lemma read_state_fetch (lzma cache_messages : bool) (j : nat) (p : list byte) :
  ps !! j = Some p ->
  fetch false (read_state ps data lzma cache_messages j)
  = (Ok (PMsg (ParseFromString p)), read_state ps data lzma cache_messages (S j)).
Proof.
  intros Hp.
  destruct (records_of_trace ps [] tail j p Hp) as (o & Ho & Hrec & Hnext).
  change (boundaries_from (len []) ps) with (boundaries ps) in *.
  rewrite app_nil_l in Hrec.
  assert (Hmiss : cache_lookup (read_state ps data lzma cache_messages j)
                    (current_index (read_state ps data lzma cache_messages j)) = None).
  { unfold cache_lookup, read_state.
    cbn [file message_offsets current_index read_complete message_cache].
    destruct cache_messages; [|done]. apply cache_of_miss. lia. }
  unfold fetch. rewrite Hmiss.
  assert (Hlast : py_index (message_offsets (read_state ps data lzma cache_messages j)) (-1)
                  = Some o).
  { unfold read_state.
    cbn [file message_offsets current_index read_complete message_cache].
    assert (Hlen : length (take (S j) (boundaries ps)) = S j).
    { rewrite length_take. apply lookup_lt_Some in Hnext. lia. }
    rewrite py_index_last_lookup by lia. rewrite Hlen.
    replace (S j - 1)%nat with j by lia.
    rewrite lookup_take_lt by lia. exact Ho. }
  rewrite (read_record_message _ p o).
  - unfold read_state.
    cbn [file message_offsets current_index read_complete message_cache f_pos set_pos
         f_data f_lzma].
    rewrite Ho, Hnext. cbn [default from_option id]. rewrite Z.eqb_refl.
    f_equal. f_equal.
    + lia.
    + symmetry. apply take_S_r. exact Hnext.
    + destruct cache_messages; [|done]. cbn [cache_of]. rewrite Hp.
      do 2 f_equal. unfold len. rewrite length_take.
      apply lookup_lt_Some in Hnext. lia.
  - unfold read_state. cbn [file f_data f_pos]. rewrite Ho. exact Hrec.
  - eapply Forall_lookup_1; eauto.
  - exact Hlast.
Qed.

Lemma read_state_end (lzma cache_messages : bool) :
  fetch false (read_state ps data lzma cache_messages (length ps))
  = (Ok PNone, end_state ps data lzma cache_messages).
Proof.
  assert (Hb : boundaries ps !! length ps = Some (len (flat_trace ps))).
  { unfold boundaries. now rewrite boundaries_from_last. }
  assert (Hmiss : cache_lookup (read_state ps data lzma cache_messages (length ps))
                    (Z.of_nat (length ps)) = None).
  { unfold cache_lookup, read_state. cbn [message_cache].
    destruct cache_messages; [|done]. apply cache_of_miss. lia. }
  unfold fetch.
  replace (current_index (read_state ps data lzma cache_messages (length ps)))
    with (Z.of_nat (length ps)) by reflexivity.
  rewrite Hmiss.
  assert (Hlen : length (take (S (length ps)) (boundaries ps)) = S (length ps)).
  { rewrite length_take. unfold boundaries. rewrite boundaries_from_length. lia. }
  rewrite (read_record_stops _ (len (flat_trace ps))).
  - unfold read_state, end_state.
    cbn [file message_offsets current_index read_complete message_cache f_pos].
    rewrite Hb. cbn [default from_option id]. rewrite Z.eqb_refl. f_equal. f_equal.
    rewrite py_pop_take.
    + f_equal. lia.
    + unfold boundaries. rewrite boundaries_from_length. lia.
  - unfold read_state. cbn [file f_pos f_data]. rewrite Hb. cbn [default from_option id].
    rewrite drop_at_end. exact Htail.
  - unfold read_state, f_size. cbn [file f_pos f_data]. rewrite Hb. cbn [default from_option id].
    rewrite len_app. pose proof (len_nonneg (flat_trace ps)).
    pose proof (len_nonneg tail). lia.
  - unfold read_state. cbn [message_offsets].
    rewrite py_index_last_lookup by lia. rewrite Hlen.
    replace (S (length ps) - 1)%nat with (length ps) by lia.
    rewrite lookup_take_lt by lia. exact Hb.
Qed.

Lemma iter_read_state (lzma cache_messages : bool) (fuel j : nat) :
  (j <= length ps)%nat -> (length ps - j < fuel)%nat ->
  __iter__ fuel (read_state ps data lzma cache_messages j)
  = (Ok (decoded (drop j ps)), end_state ps data lzma cache_messages).
Proof.
  revert j. induction fuel as [|fuel IH]; intros j Hj Hfuel; [lia|].
  cbn [__iter__]. unfold bind at 1. rewrite retrieve_message_None.
  destruct (ps !! j) as [p|] eqn:Hp.
  - rewrite (read_state_fetch _ _ _ _ Hp). cbn [truthy]. unfold bind at 1.
    apply lookup_lt_Some in Hp as Hlt.
    rewrite IH by lia. unfold ret. rewrite (drop_S _ _ _ Hp). reflexivity.
  - apply lookup_ge_None in Hp. assert (j = length ps) by lia. subst j.
    rewrite read_state_end. cbn [truthy]. unfold ret. now rewrite drop_all.
Qed.

(** At the boundary, once the end of the stream has been met: with a
    record before it, a further call returns the sentinel and changes
    nothing. *)
Lemma end_state_again (lzma cache_messages : bool) :
  ps <> [] ->
  retrieve_message None false (end_state ps data lzma cache_messages)
  = (Ok PNone, end_state ps data lzma cache_messages).
Proof.
  intros Hne. rewrite retrieve_message_None.
  assert (Hn : (0 < length ps)%nat) by (destruct ps; [done|simpl; lia]).
  assert (Hb : boundaries ps !! length ps = Some (len (flat_trace ps))).
  { unfold boundaries. now rewrite boundaries_from_last. }
  destruct (lookup_lt_is_Some_2 (boundaries ps) (length ps - 1)) as [o Ho].
  { unfold boundaries. rewrite boundaries_from_length. lia. }
  assert (Hlt : o < len (flat_trace ps)).
  { eapply (boundaries_from_lt ps 0 (length ps - 1) (length ps)); eauto. lia. }
  assert (Hmiss : cache_lookup (end_state ps data lzma cache_messages) (len ps) = None).
  { unfold cache_lookup, end_state. cbn [message_cache].
    destruct cache_messages; [|done]. apply cache_of_miss. unfold len. lia. }
  unfold fetch.
  replace (current_index (end_state ps data lzma cache_messages))
    with (len ps) by reflexivity.
  rewrite Hmiss.
  rewrite (read_record_stops _ o).
  - unfold end_state.
    cbn [file message_offsets current_index read_complete message_cache f_pos].
    replace (len (flat_trace ps) =? o) with false by lia. reflexivity.
  - unfold end_state. cbn [file f_pos f_data]. rewrite drop_at_end. exact Htail.
  - unfold end_state, f_size. cbn [file f_pos f_data].
    rewrite len_app. pose proof (len_nonneg (flat_trace ps)).
    pose proof (len_nonneg tail). lia.
  - unfold end_state. cbn [message_offsets].
    assert (Hlen : length (take (length ps) (boundaries ps)) = length ps).
    { rewrite length_take. unfold boundaries. rewrite boundaries_from_length. lia. }
    rewrite py_index_last_lookup by lia. rewrite Hlen.
    rewrite lookup_take_lt by lia. exact Ho.
Qed.

End Truncated.

(** With no record before the boundary the table is empty there, and a
    further call raises. *)
Lemma end_state_empty_raises (tail : list byte) (lzma cache_messages : bool) :
  exists s',
    retrieve_message None false (end_state [] tail lzma cache_messages)
    = (Raise IndexError, s').
Proof.
  rewrite retrieve_message_None. unfold fetch, cache_lookup, end_state.
  cbn [file message_offsets current_index read_complete message_cache cache_of
       length take].
  replace (match (if cache_messages then Some ∅ else None) with
           | Some c => c !! len []
           | None => None
           end) with (@None Message) by (destruct cache_messages; done).
  unfold read_record, end_of_stream. unfold_m. unfold f_read, f_seek.
  cbn [file message_offsets current_index read_complete message_cache
       f_pos f_data f_lzma set_pos].
  change (py_index [] (-1)) with (@None Z).
  repeat match goal with
         | |- context [if ?b then _ else _] => destruct b
         end; eexists; reflexivity.
Qed.

Lemma init_read_state (ps : list (list byte)) (data : list byte)
    (lzma cache_messages : bool) :
  __init__ data lzma cache_messages = read_state ps data lzma cache_messages 0.
Proof.
  unfold __init__, read_state, boundaries. rewrite boundaries_from_head.
  now destruct ps.
Qed.

(** Iteration over a trace of complete records followed by a partial one
    yields exactly the complete records and stops at the sentinel, with the
    stream back at the start of the partial record; when at least one
    record precedes the cut, a further [retrieve_message] call returns the
    sentinel again and leaves the reader unchanged. *)
Lemma truncated_iteration (ps : list (list byte)) (tail : list byte)
    (lzma cache_messages : bool) (fuel : nat) :
  Forall fits_prefix ps -> incomplete tail -> (length ps < fuel)%nat ->
  let s1 := end_state ps (flat_trace ps ++ tail) lzma cache_messages in
  __iter__ fuel (__init__ (flat_trace ps ++ tail) lzma cache_messages)
    = (Ok (decoded ps), s1) /\
  f_pos (file s1) = len (flat_trace ps) /\
  (ps <> [] -> retrieve_message None false s1 = (Ok PNone, s1)).
Proof.
  intros Hfits Htail Hfuel s1. split; [|split; [reflexivity|]].
  - rewrite (init_read_state ps).
    rewrite (iter_read_state ps tail Hfits Htail lzma cache_messages fuel 0) by lia.
    reflexivity.
  - intros Hne. now apply end_state_again.
Qed.

(** When the partial record is the first one, iteration yields nothing and
    the next call at the boundary raises, whatever the partial record is. *)
Lemma truncated_first_record_raises (tail : list byte) (lzma cache_messages : bool)
    (fuel : nat) :
  incomplete tail -> (0 < fuel)%nat ->
  exists s1 s2,
    __iter__ fuel (__init__ tail lzma cache_messages) = (Ok [], s1) /\
    message_offsets s1 = [] /\
    retrieve_message None false s1 = (Raise IndexError, s2).
Proof.
  intros Htail Hfuel.
  destruct (truncated_iteration [] tail lzma cache_messages fuel) as (Hit & _ & _);
    [constructor|done|simpl; lia|].
  destruct (end_state_empty_raises tail lzma cache_messages) as [s2 Hs2].
  exists (end_state [] tail lzma cache_messages), s2.
  split; [exact Hit|]. split; [reflexivity|exact Hs2].
Qed.

(** ** The flat reader: offsets, index access, restart *)

Lemma boundaries_take_increasing (ps : list (list byte)) (k i : nat) (x y : Z) :
  take k (boundaries ps) !! i = Some x ->
  take k (boundaries ps) !! S i = Some y ->
  x < y.
Proof.
  intros Hx Hy. apply lookup_take_Some in Hx as [Hx _].
  apply lookup_take_Some in Hy as [Hy _].
  eapply (boundaries_from_lt ps 0 i (S i)); eauto.
Qed.

Lemma length_take_boundaries (ps : list (list byte)) :
  length (take (length ps) (boundaries ps)) = length ps.
Proof.
  rewrite length_take. unfold boundaries. rewrite boundaries_from_length. lia.
Qed.

(** C1 (as the code has it): on a valid flat trace with [n] complete
    records, [retrieve_offsets()] without a limit on a freshly opened reader
    scans to the end of the file and returns the table of the [n] record
    start offsets: its length is [n] (the end-of-stream entry is popped when
    the end is met), and its entries are strictly increasing. *)
Theorem retrieve_offsets_table (ps : list (list byte)) (lzma cache_messages : bool)
    (fuel : nat) :
  Forall fits_prefix ps -> (length ps + 1 < fuel)%nat ->
  exists offs s',
    retrieve_offsets fuel None (__init__ (flat_trace ps) lzma cache_messages)
      = (Ok offs, s') /\
    message_offsets s' = offs /\ read_complete s' = true /\
    offs = take (length ps) (boundaries ps) /\
    length offs = length ps /\
    (forall i x y, offs !! i = Some x -> offs !! S i = Some y -> x < y).
Proof.
  intros Hfits Hfuel.
  destruct (retrieve_offsets_all ps Hfits fuel None
              (__init__ (flat_trace ps) lzma cache_messages))
    as (s' & Hr & _ & Hrc & Ho & _).
  - exact I.
  - apply Inv_init.
  - reflexivity.
  - simpl. lia.
  - exists (take (length ps) (boundaries ps)), s'.
    split; [exact Hr|]. split; [exact Ho|]. split; [exact Hrc|].
    split; [reflexivity|]. split; [apply length_take_boundaries|].
    intros i x y. apply boundaries_take_increasing.
Qed.

Lemma retrieve_offsets_table_witness :
  Forall fits_prefix sample_payloads /\ (length sample_payloads + 1 < 4)%nat /\
  exists offs s',
    retrieve_offsets 4 None (__init__ (flat_trace sample_payloads) false false)
      = (Ok offs, s') /\
    message_offsets s' = offs /\ read_complete s' = true /\
    offs = take (length sample_payloads) (boundaries sample_payloads) /\
    length offs = length sample_payloads /\
    (forall i x y, offs !! i = Some x -> offs !! S i = Some y -> x < y).
Proof.
  split; [repeat constructor|]. split; [simpl; lia|].
  apply (retrieve_offsets_table sample_payloads false false 4);
    [repeat constructor|simpl; lia].
Defined.

(** C1, as stated, fails: on the two-record sample trace the table
    returned by [retrieve_offsets()] has two entries, not three. *)
Lemma retrieve_offsets_length_counterexample :
  ~ (exists offs s',
       retrieve_offsets 4 None (__init__ (flat_trace sample_payloads) false false)
         = (Ok offs, s') /\
       length offs = S (length sample_payloads)).
Proof.
  intros (offs & s' & Hr & Hl). vm_compute in Hr.
  inversion Hr; subst. discriminate Hl.
Qed.

Lemma iter_init (ps : list (list byte)) (lzma cache_messages : bool) (fuel : nat) :
  Forall fits_prefix ps -> (length ps < fuel)%nat ->
  exists s', __iter__ fuel (__init__ (flat_trace ps) lzma cache_messages)
             = (Ok (decoded ps), s') /\ Inv ps s'.
Proof.
  intros Hfits Hfuel.
  destruct (iter_spec ps Hfits fuel (__init__ (flat_trace ps) lzma cache_messages) 0)
    as (s' & Hit & HA).
  - split; [apply Inv_init|]. split; [reflexivity|].
    apply boundaries_from_head.
  - discriminate.
  - lia.
  - exists s'. split; [exact Hit|apply HA].
Qed.

(** C2: on a valid flat trace, [get_message_by_index(i)] for an index in
    range returns the record that sequential iteration from the start yields
    at position [i], the message parsed from the [i]-th payload; this holds
    in every state of the reader that satisfies the table invariant, a
    freshly opened reader included. *)
Theorem get_message_by_index_matches_iter (ps : list (list byte))
    (lzma cache_messages : bool) (s : Reader) (fuel : nat) (i : Z) :
  Forall fits_prefix ps -> Inv ps s -> 0 <= i < len ps -> (length ps < fuel)%nat ->
  exists m s1 ms s2,
    get_message_by_index fuel i s = (Ok (PMsg m), s1) /\
    __iter__ fuel (__init__ (flat_trace ps) lzma cache_messages) = (Ok ms, s2) /\
    length ms = length ps /\
    ms !! Z.to_nat i = Some (PMsg m) /\
    ParseFromString <$> ps !! Z.to_nat i = Some m.
Proof.
  intros Hfits HI Hi Hfuel. unfold len in Hi.
  destruct (lookup_lt_is_Some_2 ps (Z.to_nat i) ltac:(lia)) as [p Hp].
  destruct (get_message_by_index_spec ps Hfits fuel s (Z.to_nat i) p HI Hp ltac:(lia))
    as (s1 & Hget & _).
  rewrite Z2Nat.id in Hget by lia.
  destruct (iter_init ps lzma cache_messages fuel Hfits Hfuel) as (s2 & Hit & _).
  exists (ParseFromString p), s1, (decoded ps), s2.
  split; [exact Hget|]. split; [exact Hit|]. unfold decoded.
  split; [apply length_fmap|]. rewrite list_lookup_fmap, Hp. done.
Qed.

Lemma get_message_by_index_matches_iter_witness :
  exists m s1 ms s2,
    get_message_by_index 3 1 (__init__ (flat_trace sample_payloads) false false)
      = (Ok (PMsg m), s1) /\
    __iter__ 3 (__init__ (flat_trace sample_payloads) false true) = (Ok ms, s2) /\
    length ms = length sample_payloads /\
    ms !! Z.to_nat 1 = Some (PMsg m) /\
    ParseFromString <$> sample_payloads !! Z.to_nat 1 = Some m.
Proof.
  apply (get_message_by_index_matches_iter sample_payloads false true).
  - repeat constructor.
  - split; [reflexivity|reflexivity|discriminate|discriminate|].
    intros c k m Hc. discriminate Hc.
  - unfold len. simpl. lia.
  - simpl. lia.
Defined.

(** ** The flat reader: reads away from the end of the table *)

Lemma frame_when_not_at_end (index : option Z) (skip : bool)
    (s s' : Reader) (r : Result PyVal) :
  (forall o, read_start index s = Some o ->
             py_index (message_offsets s) (-1) <> Some o) ->
  retrieve_message index skip s = (r, s') ->
  same_table s s'.
Proof.
  intros Hstart. unfold retrieve_message, bind, read_start in *.
  destruct (seek_index index s) as [r0 s0] eqn:Hseek.
  destruct (seek_index_frame _ _ _ _ Hseek) as [(Ho & Hc & Hr) _].
  destruct r0; intros H; [| |]; try (inversion H; subst; done).
  unfold fetch in H. destruct (cache_lookup s0 (current_index s0)).
  - apply cached_message_frame in H as [(Ho' & Hc' & Hr') _].
    unfold same_table. now rewrite Ho', Hc', Hr'.
  - apply read_record_frame in H as (Ho' & Hc' & Hr').
    + unfold same_table. now rewrite Ho', Hc', Hr'.
    + rewrite Ho. now apply Hstart.
Qed.

(** C5: a [retrieve_message] call whose read does not start at the last
    entry of the offset table leaves the offset table and the message cache
    as they were, whatever it returns or raises. *)
Theorem retrieve_message_frame (index : option Z) (skip : bool)
    (s s' : Reader) (r : Result PyVal) :
  (forall o, read_start index s = Some o ->
             py_index (message_offsets s) (-1) <> Some o) ->
  retrieve_message index skip s = (r, s') ->
  message_offsets s' = message_offsets s /\ message_cache s' = message_cache s.
Proof.
  intros Hstart H.
  destruct (frame_when_not_at_end _ _ _ _ _ Hstart H) as (? & ? & _). done.
Qed.

Lemma retrieve_message_frame_witness :
  (forall o, read_start (Some 0) sample_scanned = Some o ->
             py_index (message_offsets sample_scanned) (-1) <> Some o) /\
  message_offsets (snd (retrieve_message (Some 0) false sample_scanned))
    = message_offsets sample_scanned /\
  message_cache (snd (retrieve_message (Some 0) false sample_scanned))
    = message_cache sample_scanned.
Proof.
  assert (H : forall o, read_start (Some 0) sample_scanned = Some o ->
                        py_index (message_offsets sample_scanned) (-1) <> Some o).
  { intros o Ho. vm_compute in Ho. injection Ho as <-. vm_compute. discriminate. }
  split; [exact H|].
  apply (retrieve_message_frame (Some 0) false sample_scanned
           (snd (retrieve_message (Some 0) false sample_scanned))
           (fst (retrieve_message (Some 0) false sample_scanned)) H).
  apply surjective_pairing.
Defined.

(** ** The flat reader: restart from an index *)

(** C9: on a valid flat trace, in a reader whose offset table already
    covers index [i] (with [0 <= i < n]), [restart(i)] followed by iteration
    yields the records [i], [i+1], ..., [n-1] in order. *)
Theorem restart_then_iter_suffix (ps : list (list byte)) (s : Reader)
    (fuel : nat) (i : Z) :
  Forall fits_prefix ps -> Inv ps s ->
  0 <= i < len ps -> i < len (message_offsets s) -> (length ps < fuel)%nat ->
  exists s1 s2,
    restart (Some i) s = (Ok tt, s1) /\
    __iter__ fuel s1 = (Ok (decoded (drop (Z.to_nat i) ps)), s2).
Proof.
  intros Hfits HI Hi Hcov Hfuel. unfold len in *.
  destruct (restart_At ps s (Z.to_nat i) HI ltac:(lia)) as (o & Ho & Hre).
  rewrite Z2Nat.id in Hre by lia.
  pose proof (At_goto ps s (Z.to_nat i) o HI Ho) as HA.
  rewrite Z2Nat.id in HA by lia.
  destruct (iter_spec ps Hfits fuel (goto o i s) (Z.to_nat i) HA)
    as (s2 & Hit & _).
  - cbn [goto message_offsets]. intros Hnil. rewrite Hnil in Hcov. simpl in Hcov. lia.
  - lia.
  - exists (goto o i s), s2. split; [exact Hre|exact Hit].
Qed.

Lemma restart_then_iter_suffix_witness :
  exists s1 s2,
    restart (Some 1) sample_scanned = (Ok tt, s1) /\
    __iter__ 3 s1 = (Ok (decoded (drop (Z.to_nat 1) sample_payloads)), s2).
Proof.
  apply (restart_then_iter_suffix sample_payloads sample_scanned 3 1).
  - repeat constructor.
  - split; [reflexivity|reflexivity|discriminate|discriminate|].
    intros c k m Hc Hk. injection Hc as <-. rewrite lookup_empty in Hk.
    discriminate Hk.
  - unfold len. simpl. lia.
  - unfold len. simpl. lia.
  - simpl. lia.
Defined.

(** ** The flat reader: negative indices *)

Lemma read_record_noskip_returns (s : Reader) :
  message_offsets s <> [] -> 0 <= f_pos (file s) ->
  exists r s', read_record false s = (Ok r, s') /\
               (r = PNone \/ exists m, r = PMsg m).
Proof.
  intros Hne Hpos. destruct (read_record false s) as [r s'] eqn:H.
  destruct s as [f ci offs rc cache].
  cbn [file message_offsets current_index read_complete message_cache] in *.
  assert (Hlast : py_index offs (-1) <> None).
  { rewrite py_index_last. destruct offs as [|x l]; [done|].
    intros Hn. apply lookup_ge_None in Hn. simpl in Hn. lia. }
  unfold read_record, end_of_stream in H. unfold_m_in H. unfold f_read, f_seek in H.
  break_hyp H; simplify_eq; try done; try lia;
    do 2 eexists; (split; [reflexivity|eauto]).
Qed.

Lemma get_message_by_index_negative (fuel : nat) (s : Reader) (k o : Z) :
  - len (message_offsets s) <= k < 0 ->
  message_offsets s !! Z.to_nat (len (message_offsets s) + k) = Some o ->
  0 <= o ->
  get_message_by_index fuel k s =
    match cache_lookup s k with
    | Some message => (Ok (PMsg message), s)
    | None =>
        read_record false
          (goto (if f_lzma (file s) then Z.min o (f_size (file s)) else o) k s)
    end.
Proof.
  intros Hk Ho Ho0. destruct s as [f ci offs rc cache].
  cbn [file message_offsets current_index read_complete message_cache] in *.
  unfold get_message_by_index, retrieve_message, seek_index, fetch, goto.
  unfold_m. cbn [file message_offsets current_index read_complete message_cache].
  pose proof (len_nonneg offs).
  replace (len offs <=? k) with false by lia. unfold id.
  unfold cache_lookup at 1.
  cbn [file message_offsets current_index read_complete message_cache].
  destruct (match cache with Some c => c !! k | None => None end) as [m|] eqn:Hc.
  - unfold cache_lookup.
    cbn [file message_offsets current_index read_complete message_cache].
    now rewrite Hc.
  - assert (Hpy : py_index offs k = Some o).
    { unfold py_index. replace (k <? 0) with true by lia.
      replace (k <? - len offs) with false by lia. done. }
    cbn [file message_offsets current_index read_complete message_cache].
    rewrite Hpy.
    cbn [file message_offsets current_index read_complete message_cache].
    unfold f_seek. replace (o <? 0) with false by lia.
    cbn [file message_offsets current_index read_complete message_cache].
    unfold cache_lookup.
    cbn [file message_offsets current_index read_complete message_cache].
    rewrite Hc. reflexivity.
Qed.

(** C10: in a flat reader whose offset table is not empty (and holds file
    offsets, which are not negative), [get_message_by_index(k)] with
    [-len(table) <= k < 0] does not raise: Python's list indexing resolves
    [k] to the entry [len(table) + k], the reader seeks there, and the call
    returns the record read at that offset or the [None] sentinel. *)
Theorem negative_index_not_rejected (fuel : nat) (s : Reader) (k : Z) :
  message_offsets s <> [] ->
  - len (message_offsets s) <= k < 0 ->
  Forall (fun o => 0 <= o) (message_offsets s) ->
  exists o r s',
    message_offsets s !! Z.to_nat (len (message_offsets s) + k) = Some o /\
    get_message_by_index fuel k s = (Ok r, s') /\
    (r = PNone \/ exists m, r = PMsg m) /\
    (cache_lookup s k = None ->
     get_message_by_index fuel k s =
       read_record false
         (goto (if f_lzma (file s) then Z.min o (f_size (file s)) else o) k s)).
Proof.
  intros Hne Hk Hpos.
  destruct (lookup_lt_is_Some_2 (message_offsets s)
              (Z.to_nat (len (message_offsets s) + k))) as [o Ho].
  { unfold len in *. lia. }
  assert (Ho0 : 0 <= o) by (eapply (Forall_lookup_1 _ _ _ _ Hpos Ho)).
  rewrite (get_message_by_index_negative fuel s k o Hk Ho Ho0).
  exists o. destruct (cache_lookup s k) as [m|] eqn:Hc.
  - exists (PMsg m), s. split; [done|]. split; [done|]. split; [eauto|done].
  - destruct (read_record_noskip_returns
                (goto (if f_lzma (file s) then Z.min o (f_size (file s)) else o) k s))
      as (r & s' & Hr & Hcases).
    + exact Hne.
    + cbn [goto file f_pos set_pos]. pose proof (len_nonneg (f_data (file s))).
      unfold f_size. destruct (f_lzma (file s)); lia.
    + exists r, s'. rewrite Hr. done.
Qed.

Lemma negative_index_not_rejected_witness :
  exists o r s',
    message_offsets sample_scanned
      !! Z.to_nat (len (message_offsets sample_scanned) + -2) = Some o /\
    get_message_by_index 0 (-2) sample_scanned = (Ok r, s') /\
    (r = PNone \/ exists m, r = PMsg m) /\
    (cache_lookup sample_scanned (-2) = None ->
     get_message_by_index 0 (-2) sample_scanned =
       read_record false
         (goto (if f_lzma (file sample_scanned)
                then Z.min o (f_size (file sample_scanned)) else o)
            (-2) sample_scanned)).
Proof.
  apply (negative_index_not_rejected 0 sample_scanned (-2)).
  - discriminate.
  - unfold len. simpl. lia.
  - repeat constructor; lia.
Defined.

(** On the sample trace with its table built, index [-1] reads at the last
    known offset, the end of the file, and yields the sentinel; index [-2]
    yields the last record. *)
Example negative_index_sample :
  fst (get_message_by_index 0 (-1) sample_scanned) = Ok PNone /\
  fst (get_message_by_index 0 (-2) sample_scanned)
    = Ok (PMsg (ParseFromString [Byte.x64])).
Proof. split; vm_compute; reflexivity. Qed.

(** ** The flat reader: indices at and past the end *)

Lemma cache_miss_beyond (ps : list (list byte)) (s : Reader) (i : Z) :
  Inv ps s -> len ps <= i -> cache_lookup s i = None.
Proof.
  intros HI Hi. unfold cache_lookup. destruct (message_cache s) as [c|] eqn:Ec; [|done].
  destruct (c !! i) as [m|] eqn:Em; [|done].
  destruct (inv_cache _ _ HI c _ m Ec Em) as (? & (q & Hq & _) & _).
  apply lookup_lt_Some in Hq. unfold len in Hi. lia.
Qed.

(** Index [n] on a reader that has not met the end of the stream: the table
    is extended up to the end-of-stream offset, and the read there returns
    the sentinel. *)
Lemma get_message_by_index_at_end (ps : list (list byte)) (s : Reader) (fuel : nat) :
  Forall fits_prefix ps -> Inv ps s -> read_complete s = false ->
  (length ps < fuel)%nat ->
  exists s', get_message_by_index fuel (len ps) s = (Ok PNone, s').
Proof.
  intros Hfits HI Hrc Hfuel.
  pose proof (Inv_length _ _ HI) as HK.
  pose proof (inv_nonempty _ _ HI Hrc) as Hne.
  unfold get_message_by_index. unfold bind at 1. unfold gets at 1.
  unfold bind at 1.
  assert (Hext : exists s1,
    (if len (message_offsets s) <=? len ps
     then retrieve_offsets fuel (Some (len ps));;; ret ()
     else ret ()) s = (Ok tt, s1) /\ Inv ps s1 /\
    length (message_offsets s1) = S (length ps)).
  { destruct (Z.leb_spec (len (message_offsets s)) (len ps)) as [Hle|Hgt];
      unfold len in *.
    - assert (0 < length ps)%nat.
      { destruct (message_offsets s); [done|]. simpl in Hle. lia. }
      destruct (retrieve_offsets_upto ps Hfits fuel (length ps) s)
        as (s1 & Hr & HI1 & Hlen1 & _); try done; try lia.
      unfold bind. rewrite Hr. unfold ret. exists s1. done.
    - unfold ret. exists s. split; [done|]. split; [done|lia]. }
  destruct Hext as (s1 & -> & HI1 & Hlen1).
  unfold bind at 1. unfold gets at 1. unfold id.
  rewrite (cache_miss_beyond ps s1 (len ps) HI1) by lia.
  destruct (seek_index_At ps s1 (length ps) HI1 ltac:(lia)) as (o & Ho & Hseek).
  unfold retrieve_message. unfold bind at 1. unfold len at 1. rewrite Hseek.
  pose proof (At_goto ps s1 (length ps) o HI1 Ho) as HA.
  destruct (fetch_eof_At ps Hfits false _ HA) as (s2 & Hf & _).
  - cbn [goto message_offsets]. intros Hnil. rewrite Hnil in Hlen1. done.
  - exists s2. exact Hf.
Qed.

(** An index past [n]: the scan runs to the end of the stream and the
    lookup in the table raises. *)
Lemma get_message_by_index_beyond (ps : list (list byte)) (s : Reader)
    (fuel : nat) (i : Z) :
  Forall fits_prefix ps -> Inv ps s -> len ps < i -> (length ps + 1 < fuel)%nat ->
  exists s', get_message_by_index fuel i s = (Raise IndexError, s') /\
             read_complete s' = true.
Proof.
  intros Hfits HI Hi Hfuel.
  pose proof (Inv_length _ _ HI) as HK.
  unfold get_message_by_index. unfold bind at 1. unfold gets at 1.
  unfold bind at 1.
  assert (Hext : exists s1,
    (if len (message_offsets s) <=? i
     then retrieve_offsets fuel (Some i);;; ret ()
     else ret ()) s = (Ok tt, s1) /\ Inv ps s1 /\ read_complete s1 = true).
  { replace (len (message_offsets s) <=? i) with true by (unfold len in *; lia).
    destruct (read_complete s) eqn:Hrc.
    - exists s. split; [|done].
      unfold retrieve_offsets, bind, gets, ret. rewrite Hrc. cbn [negb].
      now rewrite retrieve_offsets_loop_done.
    - destruct (retrieve_offsets_all ps Hfits fuel (Some i) s)
        as (s1 & Hr & HI1 & Hrc1 & _); try done.
      + right. lia.
      + lia.
      + unfold bind. rewrite Hr. unfold ret. exists s1. done. }
  destruct Hext as (s1 & -> & HI1 & Hrc1).
  unfold bind at 1. unfold gets at 1. unfold id.
  rewrite (cache_miss_beyond ps s1 i HI1) by lia.
  pose proof (Inv_length _ _ HI1) as HK1.
  unfold retrieve_message, seek_index. unfold_m.
  cbn [file message_offsets current_index read_complete message_cache].
  rewrite py_index_nonneg by (pose proof (len_nonneg ps); lia).
  rewrite lookup_ge_None_2 by (unfold len in *; lia).
  eexists. split; [reflexivity|exact Hrc1].
Qed.


(** ** The flat reader: a trace whose first record is truncated *)

(** C3 at a failing input.  The trace holds one record cut short, either
    inside its length prefix or inside its payload.  Iteration yields nothing
    and stops at the sentinel without an error, the stream is back at offset
    0 and the offset table is left empty; the next [retrieve_message] call
    at that boundary then raises [IndexError] from [message_offsets[-1]]
    instead of returning the sentinel again. *)
Theorem truncated_first_record_repeat_raises (lzma cache_messages : bool) :
  (exists s1 s2,
     __iter__ 2 (__init__ [Byte.x05] lzma cache_messages) = (Ok [], s1) /\
     f_pos (file s1) = 0 /\ message_offsets s1 = [] /\
     retrieve_message None false s1 = (Raise IndexError, s2)) /\
  (exists s1 s2,
     __iter__ 2 (__init__ [Byte.x05; Byte.x00; Byte.x00; Byte.x00; Byte.x61]
               lzma cache_messages) = (Ok [], s1) /\
     f_pos (file s1) = 0 /\ message_offsets s1 = [] /\
     retrieve_message None false s1 = (Raise IndexError, s2)).
Proof.
  destruct lzma, cache_messages; split; do 2 eexists;
    (split; [vm_compute; reflexivity|]);
    (split; [reflexivity|]); (split; [reflexivity|]);
    vm_compute; reflexivity.
Qed.

(** With complete records before the cut the boundary is stable: on the
    sample trace followed by a record cut inside its payload, iteration
    yields the two records, and a further [retrieve_message] call returns
    the sentinel again and leaves the reader as it was, at offset 12. *)
Example truncated_after_records_sample :
  let data := flat_trace sample_payloads
              ++ [Byte.x05; Byte.x00; Byte.x00; Byte.x00; Byte.x61] in
  exists s1,
    __iter__ 3 (__init__ data false true) = (Ok (decoded sample_payloads), s1) /\
    f_pos (file s1) = 12 /\ message_offsets s1 = [0; 7] /\
    retrieve_message None false s1 = (Ok PNone, s1).
Proof.
  intros data. eexists. split; [vm_compute; reflexivity|].
  split; [reflexivity|]. split; [reflexivity|]. vm_compute. reflexivity.
Qed.

(** ** The facade over a chunked trace *)

(** C8: when the active reader of an [OSITrace] is the multi-channel
    (mcap) reader, each legacy accessor ([retrieve_offsets],
    [retrieve_message], [get_message_by_index],
    [get_messages_in_index_range]) and [restart] with an index that is not
    [None] raises [NotImplementedError], whatever its arguments, and leaves
    the trace as it was. *)
Theorem legacy_accessors_unsupported_on_multi (m : MultiTrace) (fuel : nat)
    (limit index end_ : option Z) (skip : bool) (i from k : Z) :
  let t := {| reader := Some (Multi m) |} in
  OSITrace.retrieve_offsets fuel limit t = (Raise NotImplementedError, t) /\
  OSITrace.retrieve_message index skip t = (Raise NotImplementedError, t) /\
  OSITrace.get_message_by_index fuel i t = (Raise NotImplementedError, t) /\
  OSITrace.get_messages_in_index_range fuel from end_ t
    = (Raise NotImplementedError, t) /\
  OSITrace.restart (Some k) t = (Raise NotImplementedError, t).
Proof. repeat split. Qed.

(** Without an index, [restart] is supported on a chunked trace: it drops
    the iterator. *)
Lemma restart_multi_without_index (m : MultiTrace) :
  OSITrace.restart None {| reader := Some (Multi m) |}
  = (Ok tt, {| reader := Some (Multi {| multi_topic := multi_topic m; _iter := None |}) |}).
Proof. reflexivity. Qed.

(** ** The chunked reader *)

Section Chunked.

Context `{MessageQueue} `{McapFile}.

Lemma extend_index_nil (s : IndexedReader) : extend_index [] s = s.
Proof. destruct s. unfold extend_index. simpl. now rewrite app_nil_r. Qed.

Lemma extend_append (e : option Z * Z) (es : list (option Z * Z))
    (s : IndexedReader) :
  extend_index es (append_index e s) = extend_index (e :: es) s.
Proof.
  unfold extend_index, append_index. simpl. now rewrite <- app_assoc.
Qed.

(** A run of the merge loop does not read the reader's state: it yields
    the same values and appends the same entries whatever the state is.
    The entries carry a chunk offset, one per yielded value, and the
    global indices count up from [global_idx]. *)
Lemma merge_loop_uniform (fuel : nat) (summary : Summary) (args : IterArgs)
    (brk : Yield -> bool) (q : queue) (global_idx : Z) :
  exists ys stop es,
    (forall s, merge_loop fuel summary args brk q global_idx s
               = (ys, stop, extend_index es s)) /\
    length es = length ys /\
    Forall (fun e => is_Some (fst e)) es /\
    (forall k y, ys !! k = Some y -> snd y = global_idx + Z.of_nat k).
Proof.
  revert q global_idx. induction fuel as [|fuel IH]; intros q g.
  { exists [], NoFuel, []. split; [intros s; now rewrite extend_index_nil|]. done. }
  cbn [merge_loop]. destruct (mq_pop q) as [[[c|t off j] q']|].
  - destruct (chunk_records (chunk_start_offset c + 1 + 8)) as [e|records].
    { exists [], (Raised e), []. split; [intros s; now rewrite extend_index_nil|]. done. }
    destruct (push_records summary args (chunk_start_offset c) 0 records q')
      as [e|q''].
    { exists [], (Raised e), []. split; [intros s; now rewrite extend_index_nil|]. done. }
    apply IH.
  - destruct (brk (t, g)) eqn:Hb.
    + exists [(t, g)], Break, [(Some off, j)]. split; [done|]. split; [done|].
      split; [repeat constructor; eauto|].
      intros [|k] y Hy; simpl in Hy; [|done]. inversion Hy; subst. simpl. lia.
    + destruct (IH q' (g + 1)) as (ys & stop & es & Hrun & Hlen & Hsome & Hidx).
      exists ((t, g) :: ys), stop, ((Some off, j) :: es). split.
      * intros s. rewrite Hrun. now rewrite extend_append.
      * split; [simpl; lia|]. split; [constructor; eauto|].
        intros [|k] y Hy; simpl in Hy.
        -- inversion Hy; subst. simpl. lia.
        -- apply Hidx in Hy. lia.
  - exists [], Exhausted, []. split; [intros s; now rewrite extend_index_nil|]. done.
Qed.

Lemma linear_loop_uniform (brk : Yield -> bool) (items : list MessageTuple)
    (err : option Exn) (global_idx : Z) :
  exists ys stop es,
    (forall s, linear_loop brk items err global_idx s
               = (ys, stop, extend_index es s)) /\
    length es = length ys /\
    (forall k y, ys !! k = Some y -> snd y = global_idx + Z.of_nat k).
Proof.
  revert global_idx. induction items as [|t items IH]; intros g.
  { eexists [], _, []. split; [intros s; now rewrite extend_index_nil|]. done. }
  cbn [linear_loop]. destruct (brk (t, g)) eqn:Hb.
  - exists [(t, g)], Break, [(None, g)]. split; [done|]. split; [done|].
    intros [|k] y Hy; simpl in Hy; [|done]. inversion Hy; subst. simpl. lia.
  - destruct (IH (g + 1)) as (ys & stop & es & Hrun & Hlen & Hidx).
    exists ((t, g) :: ys), stop, ((None, g) :: es). split.
    + intros s. rewrite Hrun. now rewrite extend_append.
    + split; [simpl; lia|].
      intros [|k] y Hy; simpl in Hy.
      * inversion Hy; subst. simpl. lia.
      * apply Hidx in Hy. lia.
Qed.

Lemma iter_messages_uniform (fuel : nat) (args : IterArgs) (brk : Yield -> bool) :
  exists ys stop es,
    (forall s, iter_messages fuel args brk s
               = (ys, stop, {| _index_map := es; _decoders := _decoders s |})) /\
    length es = length ys /\
    (has_chunk_index -> Forall (fun e => is_Some (fst e)) es) /\
    (forall k y, ys !! k = Some y -> snd y = Z.of_nat k).
Proof.
  unfold iter_messages.
  assert (Hlin : exists ys stop es,
    (forall s,
       (let (items, err) :=
          non_seeking_messages (topics args) (start_time args) (end_time args)
            (log_time_order args) in
        linear_loop brk items err 0 (clear_index s))
       = (ys, stop, {| _index_map := es; _decoders := _decoders s |})) /\
    length es = length ys /\
    (forall k y, ys !! k = Some y -> snd y = Z.of_nat k)).
  { destruct (non_seeking_messages _ _ _ _) as [items err].
    destruct (linear_loop_uniform brk items err 0) as (ys & stop & es & Hrun & Hlen & Hidx).
    exists ys, stop, es. split; [|split; [done|]].
    - intros s. now rewrite Hrun.
    - intros k y Hy. apply Hidx in Hy. lia. }
  destruct get_summary as [summary|] eqn:Hsum.
  - destruct (Z.eqb_spec (len (chunk_indexes summary)) 0) as [He|Hn].
    + destruct Hlin as (ys & stop & es & Hrun & Hlen & Hidx).
      exists ys, stop, es. split; [done|]. split; [done|]. split; [|done].
      intros (sm & Hsm & Hne). exfalso.
      assert (sm = summary) by congruence. subst sm.
      destruct (chunk_indexes summary); [done|]. unfold len in He. simpl in He. lia.
    + destruct (merge_loop_uniform fuel summary args brk (initial_queue summary args) 0)
        as (ys & stop & es & Hrun & Hlen & Hsome & Hidx).
      exists ys, stop, es. split; [|split; [done|split; [done|]]].
      * intros s. now rewrite Hrun.
      * intros k y Hy. apply Hidx in Hy. lia.
  - destruct Hlin as (ys & stop & es & Hrun & Hlen & Hidx).
    exists ys, stop, es. split; [done|]. split; [done|]. split; [|done].
    intros (sm & Hsm & _). congruence.
Qed.

(** A consumer that would not leave at any of the yielded values sees
    the whole run. *)
Lemma merge_loop_never (fuel : nat) (summary : Summary) (args : IterArgs)
    (brk : Yield -> bool) (q : queue) (g : Z) (s s' : IndexedReader)
    (ys : list Yield) (stop : Stop) :
  merge_loop fuel summary args never q g s = (ys, stop, s') ->
  (forall y, y ∈ ys -> brk y = false) ->
  merge_loop fuel summary args brk q g s = (ys, stop, s').
Proof.
  revert q g s s' ys stop. induction fuel as [|fuel IH]; intros q g s s' ys stop Hrun Hb.
  { exact Hrun. }
  cbn [merge_loop] in *. destruct (mq_pop q) as [[[c|t off j] q']|]; [| |done].
  - destruct (chunk_records (chunk_start_offset c + 1 + 8)) as [e|records]; [done|].
    destruct (push_records summary args (chunk_start_offset c) 0 records q')
      as [e|q'']; [done|]. now apply IH.
  - unfold never in Hrun at 1.
    destruct (merge_loop fuel summary args never q' (g + 1)
                (append_index (Some off, j) s)) as [[ys0 stop0] s0] eqn:Hrest.
    inversion Hrun; subst ys stop s0; clear Hrun.
    rewrite (Hb (t, g)) by (left).
    rewrite (IH _ _ _ _ _ _ Hrest); [done|].
    intros y Hy. apply Hb. now right.
Qed.

Lemma linear_loop_never (brk : Yield -> bool) (items : list MessageTuple)
    (err : option Exn) (g : Z) (s s' : IndexedReader) (ys : list Yield)
    (stop : Stop) :
  linear_loop never items err g s = (ys, stop, s') ->
  (forall y, y ∈ ys -> brk y = false) ->
  linear_loop brk items err g s = (ys, stop, s').
Proof.
  revert g s s' ys stop. induction items as [|t items IH]; intros g s s' ys stop Hrun Hb.
  { exact Hrun. }
  cbn [linear_loop] in *. unfold never in Hrun at 1.
  destruct (linear_loop never items err (g + 1) (append_index (None, g) s))
    as [[ys0 stop0] s0] eqn:Hrest.
  inversion Hrun; subst ys stop s0; clear Hrun.
  rewrite (Hb (t, g)) by (left).
  rewrite (IH _ _ _ _ _ Hrest); [done|].
  intros y Hy. apply Hb. now right.
Qed.

Lemma iter_messages_never (fuel : nat) (args : IterArgs) (brk : Yield -> bool)
    (s s' : IndexedReader) (ys : list Yield) (stop : Stop) :
  iter_messages fuel args never s = (ys, stop, s') ->
  (forall y, y ∈ ys -> brk y = false) ->
  iter_messages fuel args brk s = (ys, stop, s').
Proof.
  unfold iter_messages. intros Hrun Hb.
  destruct (non_seeking_messages _ _ _ _) as [items err].
  destruct get_summary as [summary|].
  - destruct (len (chunk_indexes summary) =? 0).
    + now apply linear_loop_never.
    + now apply merge_loop_never.
  - now apply linear_loop_never.
Qed.

(** *** Termination of the merge loop *)

Lemma queue_weight_push (x : QItem) (q : queue) :
  queue_weight (mq_push x q) = (item_weight x + queue_weight q)%nat.
Proof. unfold queue_weight. now rewrite mq_push_items. Qed.

Lemma queue_weight_pop (q q' : queue) (x : QItem) :
  mq_pop q = Some (x, q') ->
  queue_weight q = (item_weight x + queue_weight q')%nat.
Proof. intros Hp. unfold queue_weight. now rewrite (mq_pop_some _ _ _ Hp). Qed.

Lemma push_records_weight (summary : Summary) (args : IterArgs) (off j : Z)
    (records : list McapRecord) (q q' : queue) :
  push_records summary args off j records q = inr q' ->
  (queue_weight q' <= queue_weight q + length records)%nat.
Proof.
  revert j q. induction records as [|r records IH]; intros j q Hp; cbn [push_records] in Hp.
  { inversion Hp; subst. lia. }
  destruct r as [m|].
  - destruct (channels summary !! channel_id m) as [channel|]; [|done].
    destruct (filtered_out args channel m).
    + apply IH in Hp. simpl. lia.
    + destruct (schema_of summary channel) as [schema|]; [|done].
      apply IH in Hp. rewrite queue_weight_push in Hp. simpl in *. lia.
  - apply IH in Hp. simpl. lia.
Qed.

Lemma merge_loop_fuel (fuel : nat) (summary : Summary) (args : IterArgs)
    (brk : Yield -> bool) (q : queue) (g : Z) (s : IndexedReader) :
  (queue_weight q < fuel)%nat ->
  snd (fst (merge_loop fuel summary args brk q g s)) <> NoFuel.
Proof.
  revert q g s. induction fuel as [|fuel IH]; intros q g s Hw; [lia|].
  cbn [merge_loop]. destruct (mq_pop q) as [[[c|t off j] q']|] eqn:Hpop; [| |done].
  - apply queue_weight_pop in Hpop. cbn [item_weight] in Hpop.
    destruct (chunk_records (chunk_start_offset c + 1 + 8)) as [e|records]; [done|].
    destruct (push_records summary args (chunk_start_offset c) 0 records q')
      as [e|q''] eqn:Hpush; [done|].
    apply push_records_weight in Hpush. apply IH. lia.
  - apply queue_weight_pop in Hpop. cbn [item_weight] in Hpop.
    destruct (brk (t, g)); [done|].
    specialize (IH q' (g + 1) (append_index (Some off, j) s) ltac:(lia)).
    destruct (merge_loop fuel summary args brk q' (g + 1)
                (append_index (Some off, j) s)) as [[ys0 stop0] s0].
    exact IH.
Qed.

Lemma linear_loop_fuel (brk : Yield -> bool) (items : list MessageTuple)
    (err : option Exn) (g : Z) (s : IndexedReader) :
  snd (fst (linear_loop brk items err g s)) <> NoFuel.
Proof.
  revert g s. induction items as [|t items IH]; intros g s; cbn [linear_loop].
  { now destruct err. }
  destruct (brk (t, g)); [done|].
  specialize (IH (g + 1) (append_index (None, g) s)).
  destruct (linear_loop brk items err (g + 1) (append_index (None, g) s))
    as [[ys0 stop0] s0].
  exact IH.
Qed.

(** With [iter_fuel] the loop of [iter_messages] runs to its end. *)
Lemma iter_messages_fuel (fuel : nat) (args : IterArgs) (brk : Yield -> bool)
    (s : IndexedReader) :
  (iter_fuel args <= fuel)%nat ->
  snd (fst (iter_messages fuel args brk s)) <> NoFuel.
Proof.
  unfold iter_messages, iter_fuel. intros Hf.
  destruct (non_seeking_messages _ _ _ _) as [items err].
  destruct get_summary as [summary|].
  - destruct (len (chunk_indexes summary) =? 0).
    + apply linear_loop_fuel.
    + apply merge_loop_fuel. lia.
  - apply linear_loop_fuel.
Qed.

(** *** Decoding a record again *)

Lemma decoded_message_again (schema : option Schema) (channel : Channel)
    (m : McapMessage) (s s' : IndexedReader) (r : Result Decoded) :
  decoded_message schema channel m s = (r, s') ->
  decoded_message schema channel m s' = (r, s') /\
  _index_map s' = _index_map s.
Proof.
  unfold decoded_message. intros Hd.
  destruct (_decoders s !! channel_id m) as [d|] eqn:Hc.
  - inversion Hd; subst. now rewrite Hc.
  - destruct (first_decoder _decoder_factories channel schema) as [d|].
    + inversion Hd; subst. cbn [_decoders _index_map].
      now rewrite lookup_insert_eq.
    + inversion Hd; subst. now rewrite Hc.
Qed.

Lemma get_from_chunk_again (off j : Z) (s s' : IndexedReader)
    (r : Result DecodedMessageTuple) :
  get_from_chunk off j s = (r, s') ->
  get_from_chunk off j s' = (r, s') /\ _index_map s' = _index_map s.
Proof.
  unfold get_from_chunk. intros Hg.
  destruct (chunk_records (off + 1 + 8)) as [e|records]; [now inversion Hg|].
  destruct (find_in_chunk 0 j records) as [record|]; [|now inversion Hg].
  destruct get_summary as [summary|]; [|now inversion Hg].
  destruct (channels summary !! channel_id record) as [channel|]; [|now inversion Hg].
  destruct (schema_of summary channel) as [schema|]; [|now inversion Hg].
  destruct (decoded_message schema channel record s) as [rd sd] eqn:Hd.
  destruct (decoded_message_again _ _ _ _ _ _ Hd) as [Hd' Hmap].
  destruct rd; inversion Hg; subst; now rewrite Hd'.
Qed.

(** *** Where the loop of [get] leaves the iteration *)

Lemma merge_loop_stops_at (j : Z) (fuel : nat) (summary : Summary)
    (args : IterArgs) (q : queue) (g : Z) (s s' : IndexedReader)
    (ys : list Yield) (stop : Stop) :
  g <= j ->
  merge_loop fuel summary args (fun y => j <=? snd y) q g s = (ys, stop, s') ->
  count_ok j g ys stop.
Proof.
  revert q g s s' ys stop. induction fuel as [|fuel IH]; intros q g s s' ys stop Hg Hrun.
  { inversion Hrun; subst. unfold count_ok, len. simpl. lia. }
  cbn [merge_loop] in Hrun. destruct (mq_pop q) as [[[c|t off k] q']|].
  - destruct (chunk_records (chunk_start_offset c + 1 + 8)) as [e|records].
    { inversion Hrun; subst. unfold count_ok, len. simpl. lia. }
    destruct (push_records summary args (chunk_start_offset c) 0 records q')
      as [e|q''].
    { inversion Hrun; subst. unfold count_ok, len. simpl. lia. }
    eapply IH; eauto.
  - cbn [snd] in Hrun. destruct (Z.leb_spec j g) as [Hle|Hlt].
    + inversion Hrun; subst. unfold count_ok, len. simpl. lia.
    + destruct (merge_loop fuel summary args (fun y => j <=? snd y) q' (g + 1)
                  (append_index (Some off, k) s)) as [[ys0 stop0] s0] eqn:Hrest.
      inversion Hrun; subst ys stop s0; clear Hrun.
      apply IH in Hrest; [|lia]. unfold count_ok, len in *.
      destruct stop0; cbn [length]; lia.
  - inversion Hrun; subst. unfold count_ok, len. simpl. lia.
Qed.

Lemma linear_loop_stops_at (j : Z) (items : list MessageTuple)
    (err : option Exn) (g : Z) (s s' : IndexedReader) (ys : list Yield)
    (stop : Stop) :
  g <= j ->
  linear_loop (fun y => j <=? snd y) items err g s = (ys, stop, s') ->
  count_ok j g ys stop.
Proof.
  revert g s s' ys stop. induction items as [|t items IH]; intros g s s' ys stop Hg Hrun;
    cbn [linear_loop] in Hrun.
  { inversion Hrun; subst. unfold count_ok, len. destruct err; simpl; lia. }
  cbn [snd] in Hrun. destruct (Z.leb_spec j g) as [Hle|Hlt].
  - inversion Hrun; subst. unfold count_ok, len. simpl. lia.
  - destruct (linear_loop (fun y => j <=? snd y) items err (g + 1)
                (append_index (None, g) s)) as [[ys0 stop0] s0] eqn:Hrest.
    inversion Hrun; subst ys stop s0; clear Hrun.
    apply IH in Hrest; [|lia]. unfold count_ok, len in *.
    destruct stop0; cbn [length]; lia.
Qed.

Lemma iter_messages_stops_at (j : Z) (fuel : nat) (args : IterArgs)
    (s s' : IndexedReader) (ys : list Yield) (stop : Stop) :
  0 <= j ->
  iter_messages fuel args (fun y => j <=? snd y) s = (ys, stop, s') ->
  count_ok j 0 ys stop.
Proof.
  unfold iter_messages. intros Hj Hrun.
  destruct (non_seeking_messages _ _ _ _) as [items err].
  destruct get_summary as [summary|].
  - destruct (len (chunk_indexes summary) =? 0).
    + eapply linear_loop_stops_at; eauto.
    + eapply merge_loop_stops_at; eauto.
  - eapply linear_loop_stops_at; eauto.
Qed.

Variable linear_get :
  Z -> IndexedReader -> Result DecodedMessageTuple * IndexedReader.

(** [get] on the index one past the last record: the iteration runs to
    exhaustion, the index table then holds every record, and the call
    raises. *)
Lemma get_past_end (fuel : nat) (s s0 s0' : IndexedReader) (ys : list Yield) :
  iter_messages fuel default_args never s0 = (ys, Exhausted, s0') ->
  len (_index_map s) <= len ys ->
  exists s', get linear_get fuel (len ys) s = (Raise IndexError, s') /\
             len (_index_map s') = len ys.
Proof.
  intros Hrun Hs.
  destruct (iter_messages_uniform fuel default_args never)
    as (ys1 & stop1 & es & Hu & Hlen & _ & Hidx).
  rewrite Hu in Hrun. inversion Hrun; subst ys1 stop1; clear Hrun.
  assert (Hb : iter_messages fuel default_args (fun y => len ys <=? snd y) s
               = (ys, Exhausted, {| _index_map := es; _decoders := _decoders s |})).
  { apply iter_messages_never; [apply Hu|].
    intros y Hy. apply list_elem_of_lookup in Hy as [k Hk].
    rewrite (Hidx k y Hk). apply lookup_lt_Some in Hk. unfold len. lia. }
  unfold get. replace (len (_index_map s) <=? len ys) with true by lia.
  rewrite Hb. cbn [_index_map].
  replace (len es <=? len ys) with true by (unfold len; lia).
  rewrite orb_true_r. eexists. split; [reflexivity|].
  cbn [_index_map]. unfold len. lia.
Qed.

(** [get] asked twice for the same index on a reader that starts with an
    empty index table, over a file with a chunk index: the second call
    returns what the first returned (the same record, or the same
    exception) and leaves the reader as the first call left it. *)
Lemma get_again (fuel : nat) (j : Z) (s : IndexedReader) :
  has_chunk_index -> _index_map s = [] ->
  get linear_get fuel j (snd (get linear_get fuel j s)) = get linear_get fuel j s.
Proof.
  intros Hci Hcold.
  destruct (iter_messages_uniform fuel default_args (fun y => j <=? snd y))
    as (ys & stop & es & Hu & Hlen & Hsome & Hidx).
  specialize (Hsome Hci).
  unfold get at 2 3. rewrite Hcold. change (len []) with 0.
  destruct (Z.leb_spec 0 j) as [Hj|Hj].
  2:{ replace (j <? 0) with true by lia. cbn [orb snd].
      unfold get. rewrite Hcold. change (len []) with 0.
      replace (0 <=? j) with false by lia.
      now replace (j <? 0) with true by lia. }
  rewrite Hu. pose proof (iter_messages_stops_at j fuel default_args s _ _ _ Hj (Hu s))
    as Hcount.
  set (s1 := {| _index_map := es; _decoders := _decoders s |}) in *.
  assert (Hrerun : len es <= j ->
    get linear_get fuel j s1 =
      match stop with
      | Raised e => (Raise e, s1)
      | NoFuel => (OutOfFuel, s1)
      | _ => (Raise IndexError, s1)
      end).
  { intros Hle. unfold get. cbn [_index_map s1].
    replace (len es <=? j) with true by lia. rewrite Hu. fold s1.
    destruct stop; try done; cbn [_index_map s1];
      replace (len es <=? j) with true by lia; now rewrite orb_true_r. }
  assert (Hes : len es = len ys) by (unfold len; lia).
  unfold count_ok in Hcount.
  destruct stop; cbn [snd].
  - (* exhausted before reaching [j] *)
    cbn [_index_map s1]. replace (len es <=? j) with true by lia.
    rewrite orb_true_r. cbn [snd]. rewrite Hrerun by lia. done.
  - (* left at index [j] *)
    cbn [_index_map s1]. replace (j <? 0) with false by lia.
    replace (len es <=? j) with false by lia. cbn [orb].
    destruct (es !! Z.to_nat j) as [[[off|] k]|] eqn:He.
    + destruct (get_from_chunk off k s1) as [r s2] eqn:Hg.
      destruct (get_from_chunk_again _ _ _ _ _ Hg) as [Hg2 Hmap].
      cbn [snd]. unfold get. rewrite Hmap. cbn [_index_map s1].
      replace (len es <=? j) with false by lia.
      replace (j <? 0) with false by lia. cbn [orb].
      rewrite Hmap. cbn [_index_map s1].
      replace (len es <=? j) with false by lia.
      now rewrite He.
    + exfalso. eapply Forall_lookup_1 in Hsome; [|exact He].
      cbn [fst] in Hsome. now destruct Hsome.
    + exfalso. apply lookup_ge_None in He. unfold len in *. lia.
  - rewrite Hrerun by lia. done.
  - rewrite Hrerun by lia. done.
Qed.

End Chunked.

(** ** Where the tuples and the table entries of the chunked reader come from *)

Lemma find_in_chunk_at (records : list McapRecord) (g j : Z) (m : McapMessage) :
  g <= j -> records !! Z.to_nat (j - g) = Some (MessageRecord m) ->
  find_in_chunk g j records = Some m.
Proof.
  revert g. induction records as [|r records IH]; intros g Hg Hr; [done|].
  destruct (Z.eq_dec g j) as [->|Hne].
  - replace (Z.to_nat (j - j)) with 0%nat in Hr by lia. cbn in Hr.
    injection Hr as ->. cbn [find_in_chunk]. now rewrite Z.eqb_refl.
  - replace (Z.to_nat (j - g)) with (S (Z.to_nat (j - (g + 1)))) in Hr by lia.
    cbn in Hr. cbn [find_in_chunk].
    destruct r as [m'|]; [replace (g =? j) with false by lia|]; apply IH; done || lia.
Qed.

Lemma filtered_out_false (args : IterArgs) (channel : Channel) (m : McapMessage) :
  filtered_out args channel m = false ->
  (forall ts, topics args = Some ts -> topic channel ∈ ts) /\
  (forall t, start_time args = Some t -> t <= log_time m) /\
  (forall t, end_time args = Some t -> log_time m < t).
Proof.
  unfold filtered_out. intros H.
  apply orb_false_iff in H as [H Hend]. apply orb_false_iff in H as [Htop Hstart].
  split; [|split].
  - intros ts E. rewrite E in Htop. apply negb_false_iff in Htop.
    now apply bool_decide_eq_true in Htop.
  - intros t E. rewrite E in Hstart. lia.
  - intros t E. rewrite E in Hend. lia.
Qed.

Section ChunkedMore.

Context `{MessageQueue} `{McapFile}.

Lemma initial_items (cs : list ChunkIndex) (q : queue) :
  mq_items (fold_left (fun q c => mq_push (QChunk c) q) cs q)
    ≡ₚ (QChunk <$> cs) ++ mq_items q.
Proof.
  revert q. induction cs as [|c cs IH]; intros q; [done|].
  cbn [fold_left]. rewrite IH, mq_push_items. rewrite fmap_cons.
  symmetry. apply Permutation_middle.
Qed.

Lemma initial_queue_items (summary : Summary) (args : IterArgs) :
  mq_items (initial_queue summary args)
    ≡ₚ QChunk <$> _chunks_matching_topics summary (topics args) (start_time args)
                    (end_time args).
Proof.
  unfold initial_queue. rewrite initial_items, mq_new_items. now rewrite app_nil_r.
Qed.

(** *** Every queued message comes from a record of a selected chunk *)

Lemma push_records_ok (summary : Summary) (args : IterArgs)
    (cs : list ChunkIndex) (c : ChunkIndex) (all : list McapRecord)
    (records : list McapRecord) (j : Z) (q q' : queue) :
  c ∈ cs -> chunk_records (chunk_start_offset c + 1 + 8) = inr all ->
  0 <= j ->
  (forall k r, records !! k = Some r -> all !! (Z.to_nat j + k)%nat = Some r) ->
  Forall (queued_ok summary args cs) (mq_items q) ->
  push_records summary args (chunk_start_offset c) j records q = inr q' ->
  Forall (queued_ok summary args cs) (mq_items q').
Proof.
  intros Hc Hall. revert j q.
  induction records as [|r records IH]; intros j q Hj Hsub Hq Hp.
  - cbn in Hp. now simplify_eq.
  - assert (Hrest : forall k r0, records !! k = Some r0 ->
                      all !! (Z.to_nat (j + 1) + k)%nat = Some r0).
    { intros k r0 Hk. replace (Z.to_nat (j + 1) + k)%nat with (Z.to_nat j + S k)%nat by lia.
      now apply Hsub. }
    cbn [push_records] in Hp. destruct r as [m|];
      [|apply (IH (j + 1) q); [lia|exact Hrest|exact Hq|exact Hp]].
    destruct (channels summary !! channel_id m) as [channel|] eqn:Hch; [|done].
    destruct (filtered_out args channel m) eqn:Hf;
      [apply (IH (j + 1) q); [lia|exact Hrest|exact Hq|exact Hp]|].
    destruct (schema_of summary channel) as [schema|] eqn:Hs; [|done].
    eapply (IH (j + 1)); [lia|done| |exact Hp].
    eapply Permutation_Forall; [symmetry; apply mq_push_items|].
    constructor; [|done]. cbn [queued_ok]. exists c, all.
    split; [done|]. split; [done|]. split; [done|]. split; [done|].
    split; [|done]. specialize (Hsub 0%nat _ eq_refl).
    now rewrite Nat.add_0_r in Hsub.
Qed.

Lemma merge_loop_entries (fuel : nat) (summary : Summary) (args : IterArgs)
    (cs : list ChunkIndex) (brk : Yield -> bool) (q : queue) (g : Z)
    (s s' : IndexedReader) (ys : list Yield) (stop : Stop) :
  Forall (queued_ok summary args cs) (mq_items q) ->
  merge_loop fuel summary args brk q g s = (ys, stop, s') ->
  exists es,
    s' = extend_index es s /\ Forall2 (indexed_ok summary args cs) ys es.
Proof.
  revert q g s s' ys stop.
  induction fuel as [|fuel IH]; intros q g s s' ys stop Hq Hm; cbn [merge_loop] in Hm.
  { simplify_eq. exists []. now rewrite extend_index_nil. }
  destruct (mq_pop q) as [[x q1]|] eqn:Hpop.
  2:{ simplify_eq. exists []. now rewrite extend_index_nil. }
  pose proof (Permutation_Forall (mq_pop_some _ _ _ Hpop) Hq) as Hq1.
  apply Forall_cons in Hq1 as [Hx Hq1].
  destruct x as [c|t off j].
  - destruct (chunk_records (chunk_start_offset c + 1 + 8)) as [e|records] eqn:Hrec.
    { simplify_eq. exists []. now rewrite extend_index_nil. }
    destruct (push_records summary args (chunk_start_offset c) 0 records q1)
      as [e|q2] eqn:Hpush.
    { simplify_eq. exists []. now rewrite extend_index_nil. }
    eapply IH; [|exact Hm].
    apply (push_records_ok summary args cs c records records 0 q1 q2);
      [exact Hx|exact Hrec|lia| |exact Hq1|exact Hpush].
    intros k r Hk. exact Hk.
  - assert (Hy : indexed_ok summary args cs (t, g) (Some off, j)).
    { exists off. split; [done|exact Hx]. }
    destruct (brk (t, g)).
    + simplify_eq. exists [(Some off, j)]. split; [done|]. now constructor.
    + destruct (merge_loop fuel summary args brk q1 (g + 1)
                  (append_index (Some off, j) s)) as [[ys0 stop0] s0] eqn:Hrest.
      simplify_eq. destruct (IH _ _ _ _ _ _ Hq1 Hrest) as (es & -> & Hes).
      exists ((Some off, j) :: es). split; [apply extend_append|]. now constructor.
Qed.

Lemma iter_messages_entries (fuel : nat) (summary : Summary) (args : IterArgs)
    (brk : Yield -> bool) (s s' : IndexedReader) (ys : list Yield) (stop : Stop) :
  get_summary = Some summary -> chunk_indexes summary <> [] ->
  iter_messages fuel args brk s = (ys, stop, s') ->
  _decoders s' = _decoders s /\
  Forall2 (indexed_ok summary args
             (_chunks_matching_topics summary (topics args) (start_time args)
                (end_time args)))
    ys (_index_map s').
Proof.
  intros Hsum Hne Hrun. unfold iter_messages in Hrun. rewrite Hsum in Hrun.
  replace (len (chunk_indexes summary) =? 0) with false in Hrun.
  2:{ symmetry. apply Z.eqb_neq. unfold len.
      destruct (chunk_indexes summary); [done|simpl; lia]. }
  eapply merge_loop_entries in Hrun as (es & -> & Hes).
  - split; [reflexivity|exact Hes].
  - eapply Permutation_Forall; [symmetry; apply initial_queue_items|].
    apply Forall_fmap, Forall_forall. intros c Hc. exact Hc.
Qed.

(** *** Leaving the loop at an index cuts the run short, nothing else *)

Lemma merge_loop_prefix (fuel : nat) (summary : Summary) (args : IterArgs)
    (q : queue) (g j : Z) (s s' : IndexedReader) (ys : list Yield) (stop : Stop) :
  merge_loop fuel summary args never q g s = (ys, stop, s') ->
  g <= j -> (Z.to_nat (j - g) < length ys)%nat ->
  exists s1,
    merge_loop fuel summary args (fun y => j <=? snd y) q g s
      = (take (S (Z.to_nat (j - g))) ys, Break, s1).
Proof.
  revert q g s s' ys stop.
  induction fuel as [|fuel IH]; intros q g s s' ys stop Hm Hg Hlen;
    cbn [merge_loop] in *.
  { simplify_eq. simpl in Hlen. lia. }
  destruct (mq_pop q) as [[x q1]|]; [|simplify_eq; simpl in Hlen; lia].
  destruct x as [c|t off i].
  - destruct (chunk_records (chunk_start_offset c + 1 + 8)) as [e|records];
      [simplify_eq; simpl in Hlen; lia|].
    destruct (push_records summary args (chunk_start_offset c) 0 records q1)
      as [e|q2]; [simplify_eq; simpl in Hlen; lia|].
    eapply IH; eauto.
  - cbn [never] in Hm. cbn [snd].
    destruct (merge_loop fuel summary args never q1 (g + 1)
                (append_index (Some off, i) s)) as [[ys0 stop0] s0] eqn:Hrest.
    simplify_eq. destruct (Z.leb_spec j g) as [Hle|Hgt].
    + replace (Z.to_nat (j - g)) with 0%nat by lia. eexists. reflexivity.
    + destruct (IH _ _ _ _ _ _ Hrest) as (s1 & ->); [lia|simpl in Hlen; lia|].
      replace (Z.to_nat (j - g)) with (S (Z.to_nat (j - (g + 1)))) by lia.
      eexists. reflexivity.
Qed.

Lemma iter_messages_prefix (fuel : nat) (args : IterArgs) (k : nat)
    (s s' : IndexedReader) (ys : list Yield) (stop : Stop) :
  has_chunk_index ->
  iter_messages fuel args never s = (ys, stop, s') -> (k < length ys)%nat ->
  exists s1,
    iter_messages fuel args (fun y => Z.of_nat k <=? snd y) s
      = (take (S k) ys, Break, s1).
Proof.
  intros (summary & Hsum & Hne) Hrun Hk. unfold iter_messages in *.
  rewrite Hsum in *.
  replace (len (chunk_indexes summary) =? 0) with false in *.
  2:{ symmetry. apply Z.eqb_neq. unfold len.
      destruct (chunk_indexes summary); [done|simpl; lia]. }
  destruct (merge_loop_prefix _ _ _ _ 0 (Z.of_nat k) _ _ _ _ Hrun) as (s1 & Hs1);
    [lia|lia|].
  replace (Z.to_nat (Z.of_nat k - 0)) with k in Hs1 by lia. eauto.
Qed.

(** *** What [get] finds behind an entry of the index table *)

Variable linear_get :
  Z -> IndexedReader -> Result DecodedMessageTuple * IndexedReader.

Lemma get_from_chunk_entry (summary : Summary) (args : IterArgs)
    (cs : list ChunkIndex) (t : MessageTuple) (off j : Z) (s : IndexedReader) :
  get_summary = Some summary -> from_chunk summary args cs t off j ->
  get_from_chunk off j s
    = (let (r, s2) := decoded_message t.1.1 t.1.2 t.2 s in (with_decoded t r, s2)).
Proof.
  intros Hsum (c & records & _ & _ & Hrec & Hj & Hm & Hch & Hsch & _).
  unfold get_from_chunk. rewrite Hrec.
  rewrite (find_in_chunk_at records 0 j t.2) by (done || (now rewrite Z.sub_0_r)).
  rewrite Hsum, Hch, Hsch. destruct t as [[schema channel] m]. cbn [fst snd].
  now destruct (decoded_message schema channel m s) as [[d|e|] s2].
Qed.

Lemma get_warm (fuel : nat) (summary : Summary) (args : IterArgs)
    (cs : list ChunkIndex) (ys : list Yield) (k : nat) (y : Yield)
    (s : IndexedReader) :
  get_summary = Some summary ->
  Forall2 (indexed_ok summary args cs) ys (_index_map s) ->
  ys !! k = Some y ->
  get linear_get fuel (Z.of_nat k) s
    = (let (r, s2) := decoded_message y.1.1.1 y.1.1.2 y.1.2 s in
       (with_decoded y.1 r, s2)).
Proof.
  intros Hsum Hall Hy.
  destruct (Forall2_lookup_l _ _ _ _ _ Hall Hy) as (e & He & off & Hoff & Hfrom).
  pose proof (lookup_lt_Some _ _ _ He) as Hlt.
  unfold get.
  replace (len (_index_map s) <=? Z.of_nat k) with false
    by (symmetry; apply Z.leb_gt; unfold len; lia).
  replace (Z.of_nat k <? 0) with false by lia. cbn [orb].
  replace (len (_index_map s) <=? Z.of_nat k) with false
    by (symmetry; apply Z.leb_gt; unfold len; lia).
  rewrite Nat2Z.id, He. destruct e as [o j]. cbn [fst snd] in *. subst o.
  eapply get_from_chunk_entry; eauto.
Qed.

(** *** A cold call of [get], and the decoding it ends with *)



(** *** The tuples a run to exhaustion yields *)

Lemma push_records_pending (summary : Summary) (args : IterArgs) (off j : Z)
    (records : list McapRecord) (q q' : queue) :
  push_records summary args off j records q = inr q' ->
  flat_map (pending summary args) (mq_items q')
    ≡ₚ selected summary args records ++ flat_map (pending summary args) (mq_items q).
Proof.
  revert j q. induction records as [|r records IH]; intros j q Hp;
    cbn [push_records selected] in *.
  - now simplify_eq.
  - destruct r as [m|]; [|eauto].
    destruct (channels summary !! channel_id m) as [channel|]; [|done].
    destruct (filtered_out args channel m); [eauto|].
    destruct (schema_of summary channel) as [schema|]; [|done].
    rewrite (IH _ _ Hp).
    rewrite (Permutation_flat_map _ (mq_push_items _ q)).
    cbn [flat_map pending app]. symmetry. apply Permutation_middle.
Qed.

Lemma merge_loop_complete (fuel : nat) (summary : Summary) (args : IterArgs)
    (q : queue) (g : Z) (s s' : IndexedReader) (ys : list Yield) :
  merge_loop fuel summary args never q g s = (ys, Exhausted, s') ->
  fst <$> ys ≡ₚ flat_map (pending summary args) (mq_items q).
Proof.
  revert q g s s' ys.
  induction fuel as [|fuel IH]; intros q g s s' ys Hm; cbn [merge_loop] in Hm;
    [done|].
  destruct (mq_pop q) as [[x q1]|] eqn:Hpop.
  2:{ simplify_eq. now rewrite (mq_pop_none _ Hpop). }
  rewrite (Permutation_flat_map _ (mq_pop_some _ _ _ Hpop)). cbn [flat_map].
  destruct x as [c|t off i].
  - cbn [pending]. unfold chunk_selected.
    destruct (chunk_records (chunk_start_offset c + 1 + 8)) as [e|records]; [done|].
    destruct (push_records summary args (chunk_start_offset c) 0 records q1)
      as [e|q2] eqn:Hpush; [done|].
    rewrite (IH _ _ _ _ _ Hm). eapply push_records_pending. exact Hpush.
  - cbn [never] in Hm.
    destruct (merge_loop fuel summary args never q1 (g + 1)
                (append_index (Some off, i) s)) as [[ys0 stop0] s0] eqn:Hrest.
    simplify_eq. cbn [pending app]. rewrite fmap_cons. cbn [fst].
    now rewrite (IH _ _ _ _ _ Hrest).
Qed.

Lemma pending_chunks (summary : Summary) (args : IterArgs) (cs : list ChunkIndex) :
  flat_map (pending summary args) (QChunk <$> cs)
    = flat_map (chunk_selected summary args) cs.
Proof. induction cs as [|c cs IH]; [done|]. rewrite fmap_cons. cbn. now rewrite IH. Qed.

(** *** The path taken on a file without chunk index *)

Lemma linear_loop_all (items : list MessageTuple) (err : option Exn) (g : Z)
    (s : IndexedReader) :
  linear_loop never items err g s
    = (imap (fun i t => (t, g + Z.of_nat i)) items,
       match err with Some e => Raised e | None => Exhausted end,
       extend_index (imap (fun i _ => (None, g + Z.of_nat i)) items) s).
Proof.
  revert g s. induction items as [|t items IH]; intros g s; cbn [linear_loop never].
  - now rewrite extend_index_nil.
  - rewrite IH. cbn [imap]. rewrite extend_append, Z.add_0_r.
    f_equal; [f_equal|].
    + f_equal. apply imap_ext. intros i x _. cbn. f_equal. lia.
    + f_equal. f_equal. apply imap_ext. intros i x _. cbn. f_equal. lia.
Qed.

End ChunkedMore.

(** ** Properties that span both readers *)

(** C6: [iter_messages] run to the end does not depend on the state the
    reader is in when the run starts: for equal arguments, two runs yield
    the same sequence of [(schema, channel, message, global index)] tuples,
    end the same way and build the same index table; and with [iter_fuel]
    turns of the loop the run does reach its end. *)
Theorem iter_messages_deterministic `{MessageQueue} `{McapFile} (fuel : nat)
    (args : IterArgs) (s1 s2 : IndexedReader) :
  fst (iter_messages fuel args never s1) = fst (iter_messages fuel args never s2) /\
  _index_map (snd (iter_messages fuel args never s1))
    = _index_map (snd (iter_messages fuel args never s2)) /\
  ((iter_fuel args <= fuel)%nat ->
   snd (fst (iter_messages fuel args never s1)) <> NoFuel).
Proof.
  destruct (iter_messages_uniform fuel args never) as (ys & stop & es & Hu & _).
  rewrite !Hu. split; [done|]. split; [done|].
  intros Hf. rewrite <- (Hu s1). now apply iter_messages_fuel.
Qed.

Lemma iter_messages_deterministic_witness :
  let s1 := @IndexedSeekingReader.__init__ sample_mcap in
  let s2 := snd (@iter_messages fifo_queue sample_mcap 7 default_args never s1) in
  fst (@iter_messages fifo_queue sample_mcap 7 default_args never s1)
    = fst (@iter_messages fifo_queue sample_mcap 7 default_args never s2) /\
  _index_map (snd (@iter_messages fifo_queue sample_mcap 7 default_args never s1))
    = _index_map (snd (@iter_messages fifo_queue sample_mcap 7 default_args never s2)) /\
  ((@iter_fuel fifo_queue sample_mcap default_args <= 7)%nat ->
   snd (fst (@iter_messages fifo_queue sample_mcap 7 default_args never s1)) <> NoFuel).
Proof.
  intros s1 s2.
  exact (@iter_messages_deterministic fifo_queue sample_mcap 7 default_args s1 s2).
Defined.




(** On the sample file the two calls of the witness above return the
    second record of the merged stream. *)
Example get_twice_sample :
  fst (@get fifo_queue sample_mcap sample_linear_get 7 1 (@IndexedSeekingReader.__init__ sample_mcap))
  = Ok (None, sample_channel, sample_message 4 Byte.x62, [Byte.x62]).
Proof. vm_compute. reflexivity. Qed.

(** C4 (as the code has it).  Chunked reader: on a file whose full
    iteration yields [n] records, [get(n)] runs the iteration to exhaustion,
    so that the index table holds all [n] records, and raises [IndexError].
    Flat reader, freshly opened on a valid trace of [n] records:
    [get_message_by_index(n)] does not raise; the table is extended up to
    the end-of-stream offset and the read there returns [None].  Every index
    above [n] raises [IndexError], after a scan that reaches the end of the
    stream. *)
Theorem index_past_the_end `{MessageQueue} `{McapFile}
    (linear_get : Z -> IndexedReader -> Result DecodedMessageTuple * IndexedReader)
    (ps : list (list byte)) (lzma cache_messages : bool) (fuel : nat)
    (s s0 s0' : IndexedReader) (ys : list Yield) (mfuel : nat) :
  Forall fits_prefix ps -> (length ps + 1 < fuel)%nat ->
  iter_messages mfuel default_args never s0 = (ys, Exhausted, s0') ->
  len (_index_map s) <= len ys ->
  (exists s', get linear_get mfuel (len ys) s = (Raise IndexError, s') /\
              len (_index_map s') = len ys) /\
  (exists r',
     get_message_by_index fuel (len ps) (__init__ (flat_trace ps) lzma cache_messages)
       = (Ok PNone, r')) /\
  (forall i, len ps < i ->
     exists r',
       get_message_by_index fuel i (__init__ (flat_trace ps) lzma cache_messages)
         = (Raise IndexError, r') /\
       read_complete r' = true).
Proof.
  intros Hfits Hfuel Hrun Hs. split; [|split].
  - eapply get_past_end; eauto.
  - apply (get_message_by_index_at_end ps); [done|apply Inv_init|done|lia].
  - intros i Hi. apply (get_message_by_index_beyond ps); [done|apply Inv_init|done|done].
Qed.

Lemma index_past_the_end_witness :
  (exists s', @get fifo_queue sample_mcap sample_linear_get 7 3 (@IndexedSeekingReader.__init__ sample_mcap)
              = (Raise IndexError, s') /\
              len (_index_map s') = 3) /\
  (exists r',
     get_message_by_index 4 (len sample_payloads)
       (__init__ (flat_trace sample_payloads) false false) = (Ok PNone, r')) /\
  (forall i, len sample_payloads < i ->
     exists r',
       get_message_by_index 4 i (__init__ (flat_trace sample_payloads) false false)
         = (Raise IndexError, r') /\
       read_complete r' = true).
Proof.
  refine (@index_past_the_end fifo_queue sample_mcap sample_linear_get
            sample_payloads false false 4 (@IndexedSeekingReader.__init__ sample_mcap)
            (@IndexedSeekingReader.__init__ sample_mcap)
            (snd (@iter_messages fifo_queue sample_mcap 7 default_args never
                    (@IndexedSeekingReader.__init__ sample_mcap)))
            (fst (fst (@iter_messages fifo_queue sample_mcap 7 default_args never
                         (@IndexedSeekingReader.__init__ sample_mcap))))
            7 _ _ _ _).
  - repeat constructor.
  - simpl. lia.
  - vm_compute. reflexivity.
  - vm_compute. discriminate.
Defined.

(** C4, as stated, fails for the flat reader: on the two-record sample
    trace, freshly opened, [get_message_by_index(2)] returns [None] and
    raises nothing. *)
Lemma get_message_by_index_one_past_counterexample :
  fst (get_message_by_index 4 (len sample_payloads)
         (__init__ (flat_trace sample_payloads) false false)) = Ok PNone /\
  ~ (exists s',
       get_message_by_index 4 (len sample_payloads)
         (__init__ (flat_trace sample_payloads) false false) = (Raise IndexError, s')).
Proof.
  split; [vm_compute; reflexivity|].
  intros (s' & Hr). vm_compute in Hr. discriminate Hr.
Qed.

(** * Further properties of the single-channel reader *)

(** ** The offset table and the cache in every reachable state *)

(** In every state a reader opened on a valid trace can be brought to by
    its methods, the file content is untouched, each entry of the offset
    table is the record boundary of its index, so that the table is strictly
    increasing and the entry of a record is the offset at which the length
    prefix and the payload of that record lie in the file, and each cache
    entry is the message parsed from the record of its index. *)
Theorem reachable_table_invariant (ps : list (list byte))
    (lzma cache_messages : bool) (s : Reader) :
  Forall fits_prefix ps ->
  reachable (flat_trace ps) lzma cache_messages s ->
  f_data (file s) = flat_trace ps /\
  (forall i o, message_offsets s !! i = Some o -> boundaries ps !! i = Some o) /\
  (forall i x y, message_offsets s !! i = Some x ->
                 message_offsets s !! S i = Some y -> x < y) /\
  (forall i o p, message_offsets s !! i = Some o -> ps !! i = Some p ->
                 record_at (flat_trace ps) o p) /\
  (forall c k m, message_cache s = Some c -> c !! k = Some m ->
                 0 <= k /\ ParseFromString <$> ps !! Z.to_nat k = Some m).
Proof.
  intros Hfits Hreach. pose proof (reachable_Inv ps Hfits _ _ _ Hreach) as HI.
  assert (Hlook : forall i o, message_offsets s !! i = Some o ->
                              boundaries ps !! i = Some o).
  { intros i o Ho. rewrite <- (Inv_lookup ps s i HI); [done|].
    now apply lookup_lt_Some in Ho. }
  split; [apply HI|]. split; [exact Hlook|]. split; [|split].
  - intros i x y Hx Hy. apply Hlook in Hx, Hy.
    eapply (boundaries_from_lt ps 0 i (S i)); eauto.
  - intros i o p Ho Hp. apply Hlook in Ho.
    destruct (records_of_trace ps [] [] i p Hp) as (o' & Ho' & Hrec & _).
    change (boundaries_from (len []) ps) with (boundaries ps) in Ho'.
    rewrite app_nil_l, app_nil_r in Hrec. congruence.
  - intros c k m Hc Hk.
    destruct (inv_cache _ _ HI c k m Hc Hk) as (H0 & (p & Hp & ->) & _).
    split; [done|]. now rewrite Hp.
Qed.

Lemma reachable_table_invariant_witness :
  let s := after_call (CallGetMessageByIndex 3 1)
             (__init__ (flat_trace sample_payloads) false true) in
  f_data (file s) = flat_trace sample_payloads /\
  (forall i o, message_offsets s !! i = Some o ->
               boundaries sample_payloads !! i = Some o) /\
  (forall i x y, message_offsets s !! i = Some x ->
                 message_offsets s !! S i = Some y -> x < y) /\
  (forall i o p, message_offsets s !! i = Some o -> sample_payloads !! i = Some p ->
                 record_at (flat_trace sample_payloads) o p) /\
  (forall c k m, message_cache s = Some c -> c !! k = Some m ->
                 0 <= k /\ ParseFromString <$> sample_payloads !! Z.to_nat k = Some m).
Proof.
  intros s.
  apply (reachable_table_invariant sample_payloads false true s).
  - repeat constructor.
  - apply reachable_call. apply reachable_init.
Defined.

(** ** The limit of [retrieve_offsets] *)

Lemma retrieve_offsets_loop_stops (ps : list (list byte)) (fuel l : nat) (s : Reader) :
  Forall fits_prefix ps ->
  (0 < l <= length ps)%nat ->
  (length (message_offsets s) <= S l)%nat ->
  At ps s (length (message_offsets s) - 1) ->
  read_complete s = false ->
  (S l - length (message_offsets s) <= fuel)%nat ->
  exists s',
    retrieve_offsets_loop fuel (Some (Z.of_nat l)) s = (Ok tt, s') /\ Inv ps s' /\
    length (message_offsets s') = S l /\ read_complete s' = false.
Proof.
  intros Hfits Hl. revert s.
  induction fuel as [|fuel IH]; intros s HK HA Hrc Hfuel.
  - assert (length (message_offsets s) = S l) by lia.
    cbn [retrieve_offsets_loop]. rewrite Hrc.
    replace ((Z.of_nat l =? 0) || (len (message_offsets s) <=? Z.of_nat l))
      with false.
    2:{ symmetry. apply orb_false_intro; [apply Z.eqb_neq|apply Z.leb_gt];
        unfold len; lia. }
    exists s. split; [done|]. split; [apply HA|done].
  - cbn [retrieve_offsets_loop]. rewrite Hrc.
    destruct (decide (length (message_offsets s) = S l)) as [He|Hne].
    + replace ((Z.of_nat l =? 0) || (len (message_offsets s) <=? Z.of_nat l))
        with false.
      2:{ symmetry. apply orb_false_intro; [apply Z.eqb_neq|apply Z.leb_gt];
          unfold len; lia. }
      exists s. split; [done|]. split; [apply HA|done].
    + replace ((Z.of_nat l =? 0) || (len (message_offsets s) <=? Z.of_nat l))
        with true.
      2:{ symmetry. apply orb_true_intro. right. apply Z.leb_le. unfold len. lia. }
      cbn [negb andb]. unfold bind. rewrite retrieve_message_None.
      destruct (fetch_skip_step ps Hfits s HA Hrc)
        as (r & s1 & Hf & HI1 & Hc1 & [(Hn & Hrc1 & Hlen1 & HA1)|(Hn & Hrc1 & Ho1)]);
        [|lia].
      rewrite Hf. destruct (IH s1) as (s2 & Hl2 & HI2 & Ho2 & Hrc2).
      * lia.
      * rewrite Hlen1. now replace (S (length (message_offsets s)) - 1)%nat
          with (length (message_offsets s)) by lia.
      * done.
      * lia.
      * exists s2. done.
Qed.

(** [retrieve_offsets(limit)] on a freshly opened reader over a valid
    trace of [n] records.  With [0 < limit <= n] the scan stops as soon as
    the table has [limit + 1] entries, the first [limit + 1] record
    boundaries, and the end of the stream is not marked as met.  A limit of
    0 counts as no limit, and so does any limit above [n]: the scan runs to
    the end of the file and the table is the [n] record start offsets. *)
Theorem retrieve_offsets_limit (ps : list (list byte)) (lzma cache_messages : bool)
    (fuel : nat) (l : Z) :
  Forall fits_prefix ps -> 0 <= l -> (length ps + 1 < fuel)%nat ->
  exists s',
    retrieve_offsets fuel (Some l) (__init__ (flat_trace ps) lzma cache_messages)
      = (Ok (message_offsets s'), s') /\
    if (l =? 0) || (len ps <? l)
    then message_offsets s' = take (length ps) (boundaries ps) /\
         read_complete s' = true
    else message_offsets s' = take (Z.to_nat l + 1) (boundaries ps) /\
         read_complete s' = false.
Proof.
  intros Hfits Hl Hfuel.
  set (s := __init__ (flat_trace ps) lzma cache_messages).
  assert (HI : Inv ps s) by apply Inv_init.
  destruct ((l =? 0) || (len ps <? l)) eqn:Hcase.
  - destruct (retrieve_offsets_all ps Hfits fuel (Some l) s)
      as (s' & Hr & _ & Hrc & Ho & _); try done.
    + apply orb_true_iff in Hcase as [H0|Hn]; [left|right]; lia.
    + simpl. lia.
    + exists s'. rewrite Ho. done.
  - apply orb_false_iff in Hcase as [H0 Hn].
    apply Z.eqb_neq in H0. apply Z.ltb_ge in Hn. unfold len in Hn.
    destruct (retrieve_offsets_start ps s HI eq_refl) as (o & Ho & Hb & HA).
    rewrite (retrieve_offsets_unfold fuel (Some l) s o) by done.
    destruct (retrieve_offsets_loop_stops ps fuel (Z.to_nat l)
                (goto o (len (message_offsets s) - 1) s) Hfits)
      as (s' & Hloop & HI' & Hlen' & Hrc'); try done; try (simpl; lia).
    rewrite Z2Nat.id in Hloop by lia.
    unfold bind. rewrite Hloop. unfold gets. exists s'. split; [done|].
    split; [|done]. rewrite (inv_offsets _ _ HI'), Hlen'. f_equal. lia.
Qed.

Lemma retrieve_offsets_limit_witness :
  exists s',
    retrieve_offsets 4 (Some 1) (__init__ (flat_trace sample_payloads) false false)
      = (Ok (message_offsets s'), s') /\
    if (1 =? 0) || (len sample_payloads <? 1)
    then message_offsets s' = take (length sample_payloads) (boundaries sample_payloads) /\
         read_complete s' = true
    else message_offsets s' = take (Z.to_nat 1 + 1) (boundaries sample_payloads) /\
         read_complete s' = false.
Proof.
  apply (retrieve_offsets_limit sample_payloads false false 4 1).
  - repeat constructor.
  - lia.
  - simpl. lia.
Defined.

(** ** Iteration followed by [retrieve_offsets] *)

(** Iterating a freshly opened reader to the end of a valid trace yields
    every record once, in order, and leaves the reader with the end of the
    stream met and the [n] record start offsets as its table; a call of
    [retrieve_offsets], with any limit, then returns that table and changes
    nothing. *)
Theorem iter_then_retrieve_offsets (ps : list (list byte))
    (lzma cache_messages : bool) (fuel : nat) (limit : option Z) :
  Forall fits_prefix ps -> (length ps < fuel)%nat ->
  exists s1,
    __iter__ fuel (__init__ (flat_trace ps) lzma cache_messages)
      = (Ok (decoded ps), s1) /\
    read_complete s1 = true /\
    retrieve_offsets fuel limit s1
      = (Ok (take (length ps) (boundaries ps)), s1).
Proof.
  intros Hfits Hfuel.
  destruct (truncated_iteration ps [] lzma cache_messages fuel Hfits) as (Hit & _ & _);
    [left; unfold len; simpl; lia|done|].
  rewrite app_nil_r in Hit.
  exists (end_state ps (flat_trace ps) lzma cache_messages).
  split; [exact Hit|]. split; [reflexivity|].
  unfold retrieve_offsets, bind, gets, ret. cbn [end_state read_complete negb].
  now rewrite retrieve_offsets_loop_done.
Qed.

Lemma iter_then_retrieve_offsets_witness :
  exists s1,
    __iter__ 3 (__init__ (flat_trace sample_payloads) false true)
      = (Ok (decoded sample_payloads), s1) /\
    read_complete s1 = true /\
    retrieve_offsets 3 (Some 1) s1
      = (Ok (take (length sample_payloads) (boundaries sample_payloads)), s1).
Proof.
  apply (iter_then_retrieve_offsets sample_payloads false true 3 (Some 1)).
  - repeat constructor.
  - simpl. lia.
Defined.

(** ** Iteration over a trace that ends in a partial record *)

(** A trace of complete records followed by a record cut short, inside its
    length prefix or inside its payload: iteration raises nothing, yields
    exactly the complete records and leaves the stream at the start of the
    partial record, with the end of the stream met and the starts of the
    complete records as the offset table; when at least one record is
    complete, iterating again without a restart yields nothing and changes
    nothing. *)
Theorem partial_tail_iteration (ps : list (list byte)) (tail : list byte)
    (lzma cache_messages : bool) (fuel : nat) :
  Forall fits_prefix ps -> incomplete tail -> (length ps < fuel)%nat ->
  exists s1,
    __iter__ fuel (__init__ (flat_trace ps ++ tail) lzma cache_messages)
      = (Ok (decoded ps), s1) /\
    f_pos (file s1) = len (flat_trace ps) /\
    message_offsets s1 = take (length ps) (boundaries ps) /\
    read_complete s1 = true /\
    (ps <> [] -> __iter__ fuel s1 = (Ok [], s1)).
Proof.
  intros Hfits Htail Hfuel.
  destruct (truncated_iteration ps tail lzma cache_messages fuel Hfits Htail Hfuel)
    as (Hit & Hpos & Hagain).
  exists (end_state ps (flat_trace ps ++ tail) lzma cache_messages).
  split; [exact Hit|]. split; [exact Hpos|]. split; [reflexivity|].
  split; [reflexivity|]. intros Hne.
  destruct fuel as [|fuel]; [lia|]. cbn [__iter__]. unfold bind.
  rewrite (Hagain Hne). reflexivity.
Qed.

Lemma partial_tail_iteration_witness :
  let tail := [Byte.x05; Byte.x00; Byte.x00; Byte.x00; Byte.x61] in
  exists s1,
    __iter__ 3 (__init__ (flat_trace sample_payloads ++ tail) false true)
      = (Ok (decoded sample_payloads), s1) /\
    f_pos (file s1) = len (flat_trace sample_payloads) /\
    message_offsets s1 = take (length sample_payloads) (boundaries sample_payloads) /\
    read_complete s1 = true /\
    (sample_payloads <> [] -> __iter__ 3 s1 = (Ok [], s1)).
Proof.
  intros tail.
  apply (partial_tail_iteration sample_payloads tail false true 3).
  - repeat constructor.
  - right. vm_compute. reflexivity.
  - simpl. lia.
Defined.

(** ** Index ranges of the single-channel reader *)

Lemma upto_stop {A} (e k : Z) (l : list A) : e <= k -> upto (Some e) k l = [].
Proof. intros H. unfold upto. now replace (Z.to_nat (e - k)) with 0%nat by lia. Qed.

Lemma upto_cons {A} (end_ : option Z) (k : Z) (x : A) (l : list A) :
  match end_ with None => True | Some e => k < e end ->
  upto end_ k (x :: l) = x :: upto end_ (k + 1) l.
Proof.
  destruct end_ as [e|]; [|done]. intros H. unfold upto.
  replace (Z.to_nat (e - k)) with (S (Z.to_nat (e - (k + 1)))) by lia. done.
Qed.

Lemma upto_nil {A} (end_ : option Z) (k : Z) : upto end_ k (@nil A) = [].
Proof. destruct end_; [apply take_nil|done]. Qed.

Lemma range_cond (end_ : option Z) (k : Z) :
  match end_ with None => true | Some e => k <? e end = false ->
  exists e, end_ = Some e /\ e <= k.
Proof. destruct end_ as [e|]; [|done]. intros H. exists e. split; [done|lia]. Qed.

Lemma range_cond_true (end_ : option Z) (k : Z) :
  match end_ with None => true | Some e => k <? e end = true ->
  match end_ with None => True | Some e => k < e end.
Proof. destruct end_ as [e|]; [|done]. intros H. lia. Qed.

Lemma fetch_no_cache (skip : bool) (s s' : Reader) (r : Result PyVal) :
  message_cache s = None -> fetch skip s = (r, s') -> message_cache s' = None.
Proof.
  destruct s as [f ci offs rc cache]. cbn [message_cache]. intros ->.
  unfold fetch, cache_lookup. cbn [message_cache].
  unfold read_record, end_of_stream. unfold_m. unfold f_read, f_seek.
  intros H. break_hyp H; simplify_eq; reflexivity.
Qed.

Section Ranges.

Variable ps : list (list byte).
Hypothesis Hfits : Forall fits_prefix ps.

Lemma index_range_loop_no_cache (fuel : nat) (end_ : option Z) (j : nat) (s : Reader) :
  At ps s j -> message_offsets s <> [] -> message_cache s = None ->
  (length ps - j < fuel)%nat ->
  exists s',
    index_range_loop fuel (Z.of_nat j) end_ s
      = (Ok (decoded (upto end_ (Z.of_nat j) (drop j ps))), s') /\
    Inv ps s' /\ message_cache s' = None.
Proof.
  revert j s. induction fuel as [|fuel IH]; intros j s HA Hne Hc Hfuel; [lia|].
  cbn [index_range_loop].
  destruct (match end_ with None => true | Some e => Z.of_nat j <? e end) eqn:Hcond.
  2:{ apply range_cond in Hcond as (e & -> & He). rewrite upto_stop by done.
      exists s. split; [done|]. split; [apply HA|done]. }
  apply range_cond_true in Hcond.
  replace (cache_lookup s (Z.of_nat j)) with (@None Message)
    by (unfold cache_lookup; now rewrite Hc).
  unfold bind at 1. rewrite retrieve_message_None.
  destruct (ps !! j) as [p|] eqn:Hp.
  - destruct (fetch_record ps Hfits s j p HA Hp) as (s1 & Hf & HA1 & Hlen).
    rewrite Hf. pose proof (fetch_no_cache _ _ _ _ Hc Hf) as Hc1.
    destruct (IH (S j) s1) as (s2 & Hl & HI2 & Hc2); try done.
    + intros E. rewrite E in Hlen. destruct (message_offsets s); [done|simpl in Hlen; lia].
    + apply lookup_lt_Some in Hp. lia.
    + replace (Z.of_nat j + 1) with (Z.of_nat (S j)) by lia.
      unfold bind. rewrite Hl. unfold ret. exists s2. split; [|done].
      rewrite (drop_S _ _ _ Hp), upto_cons by done.
      replace (Z.of_nat j + 1) with (Z.of_nat (S j)) by lia. reflexivity.
  - apply lookup_ge_None in Hp.
    assert (j = length ps).
    { destruct HA as (_ & _ & Hb). apply lookup_lt_Some in Hb.
      unfold boundaries in Hb. rewrite boundaries_from_length in Hb. lia. }
    subst j. destruct (fetch_eof_At ps Hfits false s HA Hne) as (s1 & Hf & HA1).
    rewrite Hf. unfold ret. exists s1. rewrite drop_all, upto_nil.
    split; [done|]. split; [apply HA1|]. eapply fetch_no_cache; eauto.
Qed.

(** [get_messages_in_index_range(begin, end)] on a reader without message
    cache, in any state its methods keep, for an index [begin] that holds a
    record: the generator yields the records [begin], [begin + 1], ... up to
    but not including [end], and stops at the last record when [end] is
    [None] or lies beyond it. *)
Theorem index_range_without_cache (fuel : nat) (begin : Z) (end_ : option Z)
    (s : Reader) :
  Inv ps s -> message_cache s = None ->
  0 <= begin < len ps -> (length ps < fuel)%nat ->
  exists s',
    get_messages_in_index_range fuel begin end_ s
      = (Ok (decoded (upto end_ begin (drop (Z.to_nat begin) ps))), s') /\
    Inv ps s' /\ message_cache s' = None.
Proof.
  intros HI Hc Hb Hfuel. unfold len in Hb.
  set (i := Z.to_nat begin). replace begin with (Z.of_nat i) by lia.
  assert (Hin : (i < length ps)%nat) by lia.
  unfold get_messages_in_index_range. unfold bind at 1. unfold gets at 1.
  unfold bind at 1.
  assert (Hext : exists s1,
    (if len (message_offsets s) <=? Z.of_nat i
     then retrieve_offsets fuel (Some (Z.of_nat i));;; ret ()
     else ret ()) s = (Ok tt, s1) /\ Inv ps s1 /\
    (i < length (message_offsets s1))%nat /\ message_cache s1 = None).
  { destruct (Z.leb_spec (len (message_offsets s)) (Z.of_nat i)) as [Hle|Hgt].
    - unfold len in Hle.
      assert (Hrc : read_complete s = false).
      { destruct (read_complete s) eqn:E; [|done].
        apply (inv_complete _ _ HI) in E. lia. }
      pose proof (inv_nonempty _ _ HI Hrc) as Hne.
      assert (HK : (0 < length (message_offsets s))%nat)
        by (destruct (message_offsets s); [done|simpl; lia]).
      destruct (retrieve_offsets_upto ps Hfits fuel i s)
        as (s1 & Hr & HI1 & Hlen1 & Hc1); try done; try lia.
      unfold bind. rewrite Hr. unfold ret. exists s1.
      split; [done|]. split; [done|]. split; [lia|congruence].
    - unfold ret. exists s. unfold len in Hgt. split; [done|]. split; [done|].
      split; [lia|done]. }
  destruct Hext as (s1 & -> & HI1 & Hlen1 & Hc1).
  unfold bind at 1.
  destruct (restart_At ps s1 i HI1 Hlen1) as (o & Ho & ->).
  assert (HA : At ps (goto o (Z.of_nat i) s1) i) by now apply At_goto.
  apply index_range_loop_no_cache; try done.
  - cbn [goto message_offsets]. intros E. rewrite E in Hlen1. simpl in Hlen1. lia.
  - lia.
Qed.

End Ranges.

Lemma index_range_without_cache_witness :
  exists s',
    get_messages_in_index_range 3 1 (Some 2)
        (__init__ (flat_trace sample_payloads) false false)
      = (Ok (decoded (upto (Some 2) 1 (drop (Z.to_nat 1) sample_payloads))), s') /\
    Inv sample_payloads s' /\ message_cache s' = None.
Proof.
  apply (index_range_without_cache sample_payloads).
  - repeat constructor.
  - apply Inv_init.
  - reflexivity.
  - vm_compute. split; [discriminate|reflexivity].
  - simpl. lia.
Defined.

(** ** Index ranges served from the cache *)

Lemma cache_of_hit (ps : list (list byte)) (j k : nat) (p : list byte) :
  (k < j)%nat -> ps !! k = Some p ->
  cache_of ps j !! Z.of_nat k = Some (ParseFromString p).
Proof.
  induction j as [|j IH]; intros Hk Hp; [lia|]. cbn [cache_of].
  destruct (decide (k = j)) as [->|Hne].
  - rewrite Hp. now rewrite lookup_insert_eq.
  - destruct (ps !! j); [rewrite lookup_insert_ne by lia|]; apply IH; done || lia.
Qed.

Section Replay.

Variable ps : list (list byte).
Variable lzma : bool.
Hypothesis Hfits : Forall fits_prefix ps.
Hypothesis Hne : ps <> [].

Lemma replay_state_end :
  replay_state ps lzma (length ps) = end_state ps (flat_trace ps) lzma true.
Proof.
  unfold replay_state, end_state, boundaries. rewrite boundaries_from_last.
  cbn [default from_option id]. reflexivity.
Qed.

Lemma length_table : length (take (length ps) (boundaries ps)) = length ps.
Proof. rewrite length_take. unfold boundaries. rewrite boundaries_from_length. lia. Qed.

Lemma replay_state_fetch (c : nat) (p : list byte) :
  ps !! c = Some p ->
  fetch false (replay_state ps lzma c)
    = (Ok (PMsg (ParseFromString p)), replay_state ps lzma (S c)).
Proof.
  intros Hp. pose proof (lookup_lt_Some _ _ _ Hp) as Hc.
  destruct (lookup_lt_is_Some_2 (boundaries ps) (S c)) as [o Ho].
  { unfold boundaries. rewrite boundaries_from_length. lia. }
  unfold fetch.
  replace (cache_lookup (replay_state ps lzma c)
             (current_index (replay_state ps lzma c)))
    with (Some (ParseFromString p)).
  2:{ symmetry. unfold cache_lookup, replay_state. cbn [message_cache current_index].
      now apply cache_of_hit. }
  rewrite (cached_message_noskip _ _ o).
  - unfold replay_state.
    cbn [file message_offsets current_index read_complete message_cache set_pos
         f_data f_lzma].
    rewrite Ho. cbn [default from_option id]. do 2 f_equal. lia.
  - unfold replay_state.
    cbn [file message_offsets current_index read_complete message_cache f_size f_data].
    unfold len at 1. rewrite length_table.
    destruct (Z.eqb_spec (Z.of_nat c + 1) (Z.of_nat (length ps))) as [E|E].
    + replace (S c) with (length ps) in Ho by lia.
      unfold boundaries in Ho. rewrite boundaries_from_last in Ho.
      simplify_eq. unfold f_size. cbn [f_data]. lia.
    + rewrite py_index_nonneg by lia.
      replace (Z.to_nat (Z.of_nat c + 1)) with (S c) by lia.
      rewrite lookup_take_lt by lia. split; [done|].
      unfold f_size. cbn [f_data]. eapply boundary_bounds; eauto.
Qed.

Lemma replay_state_stop :
  fetch false (replay_state ps lzma (length ps))
    = (Ok PNone, replay_state ps lzma (length ps)).
Proof.
  rewrite replay_state_end, <- retrieve_message_None.
  pose proof (end_state_again ps [] Hfits) as H. rewrite app_nil_r in H.
  apply H; [|done]. left. unfold len. simpl. lia.
Qed.

(** Past the cached indices, each step serves the record the reader's own
    index stands on. *)
Lemma replay_reads (fuel : nat) (end_ : option Z) (k : Z) (c : nat) :
  len ps <= k -> (c <= length ps)%nat -> (length ps - c < fuel)%nat ->
  exists s',
    index_range_loop fuel k end_ (replay_state ps lzma c)
      = (Ok (decoded (upto end_ k (drop c ps))), s').
Proof.
  revert k c. induction fuel as [|fuel IH]; intros k c Hk Hc Hfuel; [lia|].
  cbn [index_range_loop].
  destruct (match end_ with None => true | Some e => k <? e end) eqn:Hcond.
  2:{ apply range_cond in Hcond as (e & -> & He). rewrite upto_stop by done.
      eexists. reflexivity. }
  apply range_cond_true in Hcond.
  replace (cache_lookup (replay_state ps lzma c) k) with (@None Message).
  2:{ symmetry. unfold cache_lookup, replay_state. cbn [message_cache].
      apply cache_of_miss. exact Hk. }
  unfold bind at 1. rewrite retrieve_message_None.
  destruct (ps !! c) as [p|] eqn:Hp.
  - rewrite (replay_state_fetch c p Hp). apply lookup_lt_Some in Hp as Hlt.
    destruct (IH (k + 1) (S c)) as (s' & Hl); try lia.
    unfold bind. rewrite Hl. unfold ret. exists s'.
    now rewrite (drop_S _ _ _ Hp), upto_cons.
  - apply lookup_ge_None in Hp. assert (c = length ps) by lia. subst c.
    rewrite replay_state_stop. unfold ret. rewrite drop_all, upto_nil.
    eexists. reflexivity.
Qed.

(** On the cached indices the loop serves the cache and leaves the reader
    where [restart(begin)] put it. *)
Lemma replay_cached (fuel : nat) (end_ : option Z) (b k : nat) :
  (b <= k <= length ps)%nat -> ((length ps - k) + (length ps - b) < fuel)%nat ->
  exists s',
    index_range_loop fuel (Z.of_nat k) end_ (replay_state ps lzma b)
      = (Ok (decoded (upto end_ (Z.of_nat k) (drop k ps ++ drop b ps))), s').
Proof.
  revert k. induction fuel as [|fuel IH]; intros k Hk Hfuel; [lia|].
  destruct (ps !! k) as [p|] eqn:Hp.
  - cbn [index_range_loop].
    destruct (match end_ with None => true | Some e => Z.of_nat k <? e end) eqn:Hcond.
    2:{ apply range_cond in Hcond as (e & -> & He). rewrite upto_stop by done.
        eexists. reflexivity. }
    apply range_cond_true in Hcond. apply lookup_lt_Some in Hp as Hlt.
    replace (cache_lookup (replay_state ps lzma b) (Z.of_nat k))
      with (Some (ParseFromString p)).
    2:{ symmetry. unfold cache_lookup, replay_state. cbn [message_cache].
        now apply cache_of_hit. }
    destruct (IH (S k)) as (s' & Hl); try lia.
    replace (Z.of_nat k + 1) with (Z.of_nat (S k)) by lia.
    unfold bind. rewrite Hl. unfold ret. exists s'.
    rewrite (drop_S _ _ _ Hp). cbn [app]. rewrite upto_cons by done.
    replace (Z.of_nat k + 1) with (Z.of_nat (S k)) by lia. reflexivity.
  - apply lookup_ge_None in Hp. assert (k = length ps) by lia. subst k.
    rewrite drop_all. cbn [app]. apply replay_reads; unfold len; lia.
Qed.

Lemma replay_state_range (fuel : nat) (begin : Z) (end_ : option Z) :
  0 <= begin < len ps -> (2 * length ps < fuel)%nat ->
  exists s',
    get_messages_in_index_range fuel begin end_ (replay_state ps lzma (length ps))
      = (Ok (decoded (upto end_ begin
                        (drop (Z.to_nat begin) ps ++ drop (Z.to_nat begin) ps))), s').
Proof.
  intros Hb Hfuel. unfold len in Hb.
  set (b := Z.to_nat begin). replace begin with (Z.of_nat b) by lia.
  destruct (lookup_lt_is_Some_2 (boundaries ps) b) as [o Ho].
  { unfold boundaries. rewrite boundaries_from_length. lia. }
  pose proof (boundary_bounds _ _ _ Ho) as Hob.
  unfold get_messages_in_index_range. unfold bind at 1. unfold gets at 1.
  replace (len (message_offsets (replay_state ps lzma (length ps))) <=? Z.of_nat b)
    with false.
  2:{ symmetry. apply Z.leb_gt. unfold replay_state. cbn [message_offsets].
      unfold len. rewrite length_table. lia. }
  unfold bind at 1. unfold ret at 1. unfold bind at 1.
  replace (restart (Some (Z.of_nat b)) (replay_state ps lzma (length ps)))
    with (Ok tt, replay_state ps lzma b).
  2:{ symmetry. unfold restart. unfold_m.
      replace (if Z.of_nat b =? 0 then 0 else Z.of_nat b) with (Z.of_nat b)
        by (destruct (Z.eqb_spec (Z.of_nat b) 0); lia).
      unfold replay_state.
      cbn [file message_offsets current_index read_complete message_cache].
      rewrite py_index_nonneg by lia. rewrite Nat2Z.id.
      rewrite lookup_take_lt by lia. rewrite Ho.
      rewrite f_seek_within by (unfold f_size; cbn [f_data]; exact Hob).
      cbn [default from_option id set_pos f_data f_lzma]. reflexivity. }
  apply replay_cached; lia.
Qed.

End Replay.

(** With the message cache on, once iteration has run to the end of a valid
    trace, [get_messages_in_index_range(begin, end)] serves the indices up
    to the last record from the cache without moving the reader's own
    index; past the last record it goes on with [retrieve_message], which
    serves the cache again from [begin].  The generator therefore yields
    what the range takes of the records from [begin] followed by the same
    records once more: the requested records when [end] is at most the
    number of records, and every record twice for [get_messages()]. *)
Theorem index_range_after_cached_iteration (ps : list (list byte)) (lzma : bool)
    (fuel : nat) (begin : Z) (end_ : option Z) :
  Forall fits_prefix ps -> 0 <= begin < len ps -> (2 * length ps < fuel)%nat ->
  exists s1 s2 s3,
    __iter__ fuel (__init__ (flat_trace ps) lzma true) = (Ok (decoded ps), s1) /\
    get_messages_in_index_range fuel begin end_ s1
      = (Ok (decoded (upto end_ begin
                        (drop (Z.to_nat begin) ps ++ drop (Z.to_nat begin) ps))), s2) /\
    get_messages fuel s1 = (Ok (decoded ps ++ decoded ps), s3).
Proof.
  intros Hfits Hb Hfuel.
  assert (Hne : ps <> []) by (intros ->; unfold len in Hb; simpl in Hb; lia).
  destruct (truncated_iteration ps [] lzma true fuel Hfits) as (Hit & _ & _);
    [left; unfold len; simpl; lia|lia|].
  rewrite app_nil_r in Hit. rewrite <- (replay_state_end ps lzma) in Hit.
  destruct (replay_state_range ps lzma Hfits Hne fuel begin end_) as (s2 & H2);
    [done|done|].
  destruct (replay_state_range ps lzma Hfits Hne fuel 0 None) as (s3 & H3);
    [unfold len in *; lia|done|].
  exists (replay_state ps lzma (length ps)), s2, s3.
  split; [exact Hit|]. split; [exact H2|].
  unfold get_messages. rewrite H3. cbn [upto Z.to_nat drop].
  unfold decoded. now rewrite fmap_app.
Qed.

Lemma index_range_after_cached_iteration_witness :
  exists s1 s2 s3,
    __iter__ 5 (__init__ (flat_trace sample_payloads) false true)
      = (Ok (decoded sample_payloads), s1) /\
    get_messages_in_index_range 5 1 (Some 3) s1
      = (Ok (decoded (upto (Some 3) 1
                        (drop (Z.to_nat 1) sample_payloads
                         ++ drop (Z.to_nat 1) sample_payloads))), s2) /\
    get_messages 5 s1 = (Ok (decoded sample_payloads ++ decoded sample_payloads), s3).
Proof.
  apply (index_range_after_cached_iteration sample_payloads false 5 1 (Some 3)).
  - repeat constructor.
  - vm_compute. split; [discriminate|reflexivity].
  - simpl. lia.
Defined.

(** * Further properties of the chunked reader *)

(** ** Global indices and the index table *)

(** Whatever the arguments, the consumer and the state the reader is in,
    the values a run of [iter_messages] yields carry the global indices 0,
    1, 2, ... in this order, the index table is rebuilt with exactly one
    entry per yielded value, and the decoders are left alone. *)
Theorem iter_messages_numbering `{MessageQueue} `{McapFile} (fuel : nat)
    (args : IterArgs) (brk : Yield -> bool) (s : IndexedReader) :
  exists ys stop s',
    iter_messages fuel args brk s = (ys, stop, s') /\
    snd <$> ys = Z.of_nat <$> seq 0 (length ys) /\
    length (_index_map s') = length ys /\
    _decoders s' = _decoders s.
Proof.
  destruct (iter_messages_uniform fuel args brk) as (ys & stop & es & Hu & Hlen & _ & Hidx).
  eexists ys, stop, _. split; [apply Hu|]. split; [|split; [exact Hlen|reflexivity]].
  unfold Yield in *. apply list_eq. intros k.
  rewrite (list_lookup_fmap snd ys k), (list_lookup_fmap Z.of_nat).
  destruct (ys !! k) as [y|] eqn:Hy.
  - rewrite lookup_seq_lt by (now apply lookup_lt_Some in Hy).
    cbn. f_equal. apply (Hidx _ _ Hy).
  - rewrite lookup_seq_ge by (now apply lookup_ge_None in Hy). reflexivity.
Qed.

(** ** What the seeking path yields *)

(** On a file with a chunk index, each value [iter_messages] yields is a
    message record of one of the chunks selected for the arguments, paired
    with the channel the summary has for its channel id and with that
    channel's schema; it passes the topic filter and lies in the requested
    time window, start included and end excluded; and the entry of the index
    table written for it is the offset of that chunk and the position of the
    record in it. *)
Theorem iter_messages_selects `{MessageQueue} `{McapFile} (fuel : nat)
    (summary : Summary) (args : IterArgs) (brk : Yield -> bool)
    (s s' : IndexedReader) (ys : list Yield) (stop : Stop)
    (k : nat) (schema : option Schema) (channel : Channel) (m : McapMessage)
    (g : Z) :
  get_summary = Some summary -> chunk_indexes summary <> [] ->
  iter_messages fuel args brk s = (ys, stop, s') ->
  ys !! k = Some (schema, channel, m, g) ->
  channels summary !! channel_id m = Some channel /\
  schema_of summary channel = Some schema /\
  (forall ts, topics args = Some ts -> topic channel ∈ ts) /\
  (forall t, start_time args = Some t -> t <= log_time m) /\
  (forall t, end_time args = Some t -> log_time m < t) /\
  exists c records j,
    c ∈ _chunks_matching_topics summary (topics args) (start_time args)
          (end_time args) /\
    chunk_records (chunk_start_offset c + 1 + 8) = inr records /\
    records !! j = Some (MessageRecord m) /\
    _index_map s' !! k = Some (Some (chunk_start_offset c), Z.of_nat j).
Proof.
  intros Hsum Hne Hrun Hy.
  destruct (iter_messages_entries _ _ _ _ _ _ _ _ Hsum Hne Hrun) as [_ Hall].
  destruct (Forall2_lookup_l _ _ _ _ _ Hall Hy)
    as ([o j] & He & off & Hoff & c & records & Hc & -> & Hrec & Hj & Hm & Hch & Hsch & Hf).
  cbn [fst snd] in *. subst o.
  destruct (filtered_out_false _ _ _ Hf) as (Ht & Hs & Hen).
  split; [done|]. split; [done|]. split; [done|]. split; [done|]. split; [done|].
  exists c, records, (Z.to_nat j). rewrite Z2Nat.id by done. done.
Qed.

Lemma iter_messages_selects_witness :
  let r := @iter_messages fifo_queue sample_mcap 7 sample_args never
             (@IndexedSeekingReader.__init__ sample_mcap) in
  let m := sample_message 4 Byte.x62 in
  channels sample_summary !! channel_id m = Some sample_channel /\
  schema_of sample_summary sample_channel = Some None /\
  (forall ts, topics sample_args = Some ts -> topic sample_channel ∈ ts) /\
  (forall t, start_time sample_args = Some t -> t <= log_time m) /\
  (forall t, end_time sample_args = Some t -> log_time m < t) /\
  exists c records j,
    c ∈ @_chunks_matching_topics sample_mcap sample_summary (topics sample_args)
          (start_time sample_args) (end_time sample_args) /\
    @chunk_records sample_mcap (chunk_start_offset c + 1 + 8) = inr records /\
    records !! j = Some (MessageRecord m) /\
    _index_map r.2 !! 0%nat = Some (Some (chunk_start_offset c), Z.of_nat j).
Proof.
  intros r m.
  apply (@iter_messages_selects fifo_queue sample_mcap 7 sample_summary sample_args
           never (@IndexedSeekingReader.__init__ sample_mcap) r.2 r.1.1 r.1.2
           0 None sample_channel m 0).
  - reflexivity.
  - discriminate.
  - reflexivity.
  - vm_compute. reflexivity.
Defined.

(** Run to exhaustion on a file with a chunk index, [iter_messages] yields
    each message of the selected chunks that passes the filters, once for
    each time its chunk is selected, and nothing else: the yielded tuples
    are a permutation of the filtered messages of the chunks, whatever order
    the queue serves them in. *)
Theorem iter_messages_complete `{MessageQueue} `{McapFile} (fuel : nat)
    (summary : Summary) (args : IterArgs) (s s' : IndexedReader)
    (ys : list Yield) :
  get_summary = Some summary -> chunk_indexes summary <> [] ->
  iter_messages fuel args never s = (ys, Exhausted, s') ->
  fst <$> ys ≡ₚ
    flat_map (chunk_selected summary args)
      (_chunks_matching_topics summary (topics args) (start_time args)
         (end_time args)).
Proof.
  intros Hsum Hne Hrun. unfold iter_messages in Hrun. rewrite Hsum in Hrun.
  replace (len (chunk_indexes summary) =? 0) with false in Hrun.
  2:{ symmetry. apply Z.eqb_neq. unfold len.
      destruct (chunk_indexes summary); [done|simpl; lia]. }
  rewrite (merge_loop_complete _ _ _ _ _ _ _ _ Hrun).
  rewrite (Permutation_flat_map _ (initial_queue_items summary args)).
  now rewrite pending_chunks.
Qed.

Lemma iter_messages_complete_witness :
  let r := @iter_messages fifo_queue sample_mcap 7 sample_args never
             (@IndexedSeekingReader.__init__ sample_mcap) in
  fst <$> r.1.1 ≡ₚ
    flat_map (@chunk_selected sample_mcap sample_summary sample_args)
      (@_chunks_matching_topics sample_mcap sample_summary (topics sample_args)
         (start_time sample_args) (end_time sample_args)).
Proof.
  intros r.
  apply (@iter_messages_complete fifo_queue sample_mcap 7 sample_summary sample_args
           (@IndexedSeekingReader.__init__ sample_mcap) r.2 r.1.1).
  - reflexivity.
  - discriminate.
  - reflexivity.
Defined.

(** ** What [get] returns *)

(** After a run of [iter_messages] on a file with a chunk index, with any
    arguments and any consumer, [get(k)] for the index [k] of a value that
    run yielded does not iterate again: it reopens the chunk the table names
    and returns the tuple the run yielded at [k] together with its decoded
    message, or raises what the decoding raises.  After a filtered run the
    indices of [get] are therefore those of the filtered stream. *)
Theorem get_after_iteration `{MessageQueue} `{McapFile}
    (linear_get : Z -> IndexedReader -> Result DecodedMessageTuple * IndexedReader)
    (fuel gfuel : nat) (args : IterArgs) (brk : Yield -> bool)
    (s s1 : IndexedReader) (ys : list Yield) (stop : Stop) (k : nat) (y : Yield) :
  has_chunk_index ->
  iter_messages fuel args brk s = (ys, stop, s1) ->
  ys !! k = Some y ->
  get linear_get gfuel (Z.of_nat k) s1
    = (let (r, s2) := decoded_message y.1.1.1 y.1.1.2 y.1.2 s1 in
       (with_decoded y.1 r, s2)).
Proof.
  intros (summary & Hsum & Hne) Hrun Hy.
  destruct (iter_messages_entries _ _ _ _ _ _ _ _ Hsum Hne Hrun) as [_ Hall].
  eapply get_warm; eauto.
Qed.

Lemma get_after_iteration_witness :
  let r := @iter_messages fifo_queue sample_mcap 7 sample_args never
             (@IndexedSeekingReader.__init__ sample_mcap) in
  let y : Yield := (None, sample_channel, sample_message 4 Byte.x62, 0) in
  @get fifo_queue sample_mcap sample_linear_get 0 (Z.of_nat 0) r.2
    = (let (d, s2) := @decoded_message sample_mcap y.1.1.1 y.1.1.2 y.1.2 r.2 in
       (@with_decoded sample_mcap y.1 d, s2)).
Proof.
  intros r y.
  apply (@get_after_iteration fifo_queue sample_mcap sample_linear_get 7 0
           sample_args never (@IndexedSeekingReader.__init__ sample_mcap) r.2
           r.1.1 r.1.2 0 y).
  - exists sample_summary. split; [reflexivity|discriminate].
  - reflexivity.
  - vm_compute. reflexivity.
Defined.

(** On a file with a chunk index and a reader whose table does not reach
    [k] yet, [get(k)] returns the tuple a full iteration with the default
    arguments yields at position [k], together with its decoded message, or
    raises what the decoding raises; the run it makes to find the record
    stops at [k], so that the table then has [k + 1] entries. *)
Theorem get_returns_iterated `{MessageQueue} `{McapFile}
    (linear_get : Z -> IndexedReader -> Result DecodedMessageTuple * IndexedReader)
    (fuel : nat) (s s' : IndexedReader) (ys : list Yield) (stop : Stop)
    (k : nat) (y : Yield) :
  has_chunk_index -> (length (_index_map s) <= k)%nat ->
  iter_messages fuel default_args never s = (ys, stop, s') ->
  ys !! k = Some y ->
  exists s1,
    _decoders s1 = _decoders s /\ length (_index_map s1) = S k /\
    get linear_get fuel (Z.of_nat k) s
      = (let (r, s2) := decoded_message y.1.1.1 y.1.1.2 y.1.2 s1 in
         (with_decoded y.1 r, s2)).
Proof.
  intros Hci Hcold Hrun Hy. pose proof (lookup_lt_Some _ _ _ Hy) as Hk.
  destruct (iter_messages_prefix fuel default_args k s s' ys stop Hci Hrun Hk)
    as (s1 & Hcut).
  pose proof Hci as (summary & Hsum & Hne).
  destruct (iter_messages_entries _ _ _ _ _ _ _ _ Hsum Hne Hcut) as [Hdec Hall].
  assert (Hy' : take (S k) ys !! k = Some y) by (rewrite lookup_take_lt by lia; done).
  exists s1. split; [exact Hdec|]. split.
  - rewrite <- (Forall2_length _ _ _ Hall), length_take. lia.
  - pose proof (get_warm linear_get fuel summary default_args _ _ k y s1 Hsum Hall Hy')
      as Hw.
    destruct (Forall2_lookup_l _ _ _ _ _ Hall Hy') as (e & He & _).
    apply lookup_lt_Some in He.
    assert (Hin : (len (_index_map s1) <=? Z.of_nat k) = false)
      by (apply Z.leb_gt; unfold len; lia).
    unfold get in Hw. rewrite Hin in Hw. cbv beta iota zeta in Hw.
    rewrite Hin in Hw.
    unfold get.
    replace (len (_index_map s) <=? Z.of_nat k) with true
      by (symmetry; apply Z.leb_le; unfold len; lia).
    rewrite Hcut. cbv beta iota zeta. rewrite Hin. exact Hw.
Qed.

Lemma get_returns_iterated_witness :
  let s := @IndexedSeekingReader.__init__ sample_mcap in
  let y : Yield := (None, sample_channel, sample_message 3 Byte.x63, 2) in
  exists s1,
    _decoders s1 = _decoders s /\ length (_index_map s1) = 3%nat /\
    @get fifo_queue sample_mcap sample_linear_get 7 (Z.of_nat 2) s
      = (let (d, s2) := @decoded_message sample_mcap y.1.1.1 y.1.1.2 y.1.2 s1 in
         (@with_decoded sample_mcap y.1 d, s2)).
Proof.
  intros s y.
  set (r := @iter_messages fifo_queue sample_mcap 7 default_args never s).
  apply (@get_returns_iterated fifo_queue sample_mcap sample_linear_get 7 s
           r.2 r.1.1 r.1.2 2 y).
  - exists sample_summary. split; [reflexivity|discriminate].
  - simpl. lia.
  - reflexivity.
  - vm_compute. reflexivity.
Defined.

(** [get(j)] raises [IndexError] for every negative [j], without touching
    the reader, and for every [j] from the number of messages of the file
    on, after a run of the iteration to exhaustion that leaves the table
    complete. *)
Theorem get_out_of_range `{MessageQueue} `{McapFile}
    (linear_get : Z -> IndexedReader -> Result DecodedMessageTuple * IndexedReader)
    (fuel : nat) (j : Z) (s s0 s0' : IndexedReader) (ys : list Yield) :
  iter_messages fuel default_args never s0 = (ys, Exhausted, s0') ->
  len (_index_map s) <= len ys ->
  (j < 0 -> get linear_get fuel j s = (Raise IndexError, s)) /\
  (len ys <= j ->
   exists s', get linear_get fuel j s = (Raise IndexError, s') /\
              len (_index_map s') = len ys).
Proof.
  intros Hrun Hs. split.
  - intros Hj. unfold get. pose proof (len_nonneg (_index_map s)).
    replace (len (_index_map s) <=? j) with false by lia.
    now replace (j <? 0) with true by lia.
  - intros Hj.
    destruct (iter_messages_uniform fuel default_args never)
      as (ys' & stop' & es & Hu & Hlen & _ & Hidx).
    rewrite Hu in Hrun. injection Hrun as -> -> _.
    assert (Hcut : iter_messages fuel default_args (fun y => j <=? snd y) s
                   = (ys, Exhausted, {| _index_map := es; _decoders := _decoders s |})).
    { apply iter_messages_never; [apply Hu|].
      intros y Hy. apply list_elem_of_lookup in Hy as [k Hk].
      rewrite (Hidx _ _ Hk). apply lookup_lt_Some in Hk. unfold len in Hj. lia. }
    unfold get. replace (len (_index_map s) <=? j) with true by lia.
    rewrite Hcut. cbn [_index_map].
    replace (len es <=? j) with true by (unfold len in *; lia).
    rewrite orb_true_r. eexists. split; [reflexivity|].
    cbn [_index_map]. unfold len. lia.
Qed.

Lemma get_out_of_range_witness :
  let s := @IndexedSeekingReader.__init__ sample_mcap in
  let r := @iter_messages fifo_queue sample_mcap 7 default_args never s in
  (-1 < 0 -> @get fifo_queue sample_mcap sample_linear_get 7 (-1) s
             = (Raise IndexError, s)) /\
  (len r.1.1 <= -1 ->
   exists s', @get fifo_queue sample_mcap sample_linear_get 7 (-1) s
              = (Raise IndexError, s') /\
              len (_index_map s') = len r.1.1).
Proof.
  intros s r.
  apply (@get_out_of_range fifo_queue sample_mcap sample_linear_get 7 (-1) s s
           r.2 r.1.1).
  - reflexivity.
  - vm_compute. discriminate.
Defined.

(** ** The path taken on a file without chunk index *)

(** On a file without summary, or whose summary lists no chunk,
    [iter_messages] yields the tuples of the library's non-seeking reader in
    the order that reader gives them, numbered from 0, and ends with that
    reader's error if it has one; every entry of the index table has no
    chunk offset; and the [reverse] argument has no effect. *)
Theorem iter_messages_without_chunk_index `{MessageQueue} `{McapFile}
    (fuel : nat) (args : IterArgs) (s : IndexedReader) :
  (get_summary = None \/
   exists summary, get_summary = Some summary /\ chunk_indexes summary = []) ->
  let source := non_seeking_messages (topics args) (start_time args)
                  (end_time args) (log_time_order args) in
  iter_messages fuel args never s
    = (imap (fun i t => (t, Z.of_nat i)) source.1,
       match source.2 with Some e => Raised e | None => Exhausted end,
       {| _index_map := imap (fun i _ => (None, Z.of_nat i)) source.1;
          _decoders := _decoders s |}) /\
  forall r,
    iter_messages fuel
      {| topics := topics args; start_time := start_time args;
         end_time := end_time args; log_time_order := log_time_order args;
         reverse := r |} never s
    = iter_messages fuel args never s.
Proof.
  intros Hno source.
  assert (Hlin : forall a,
    iter_messages fuel a never s
    = let src := non_seeking_messages (topics a) (start_time a) (end_time a)
                   (log_time_order a) in
      linear_loop never src.1 src.2 0 (clear_index s)).
  { intros a. unfold iter_messages.
    destruct (non_seeking_messages (topics a) (start_time a) (end_time a)
                (log_time_order a)) as [items err].
    destruct Hno as [->|(summary & -> & ->)]; reflexivity. }
  split.
  - rewrite Hlin. cbv zeta. fold source. rewrite linear_loop_all.
    unfold extend_index, clear_index. cbn [_index_map _decoders app].
    f_equal.
  - intros r. now rewrite !Hlin.
Qed.

Lemma iter_messages_without_chunk_index_witness :
  let s := @IndexedSeekingReader.__init__ sample_unindexed in
  let source := @non_seeking_messages sample_unindexed (topics sample_args)
                  (start_time sample_args) (end_time sample_args)
                  (log_time_order sample_args) in
  @iter_messages fifo_queue sample_unindexed 0 sample_args never s
    = (imap (fun i t => (t, Z.of_nat i)) source.1,
       match source.2 with Some e => Raised e | None => Exhausted end,
       {| _index_map := imap (fun i _ => (None, Z.of_nat i)) source.1;
          _decoders := _decoders s |}) /\
  forall r,
    @iter_messages fifo_queue sample_unindexed 0
      {| topics := topics sample_args; start_time := start_time sample_args;
         end_time := end_time sample_args;
         log_time_order := log_time_order sample_args;
         reverse := r |} never s
    = @iter_messages fifo_queue sample_unindexed 0 sample_args never s.
Proof.
  intros s.
  apply (@iter_messages_without_chunk_index fifo_queue sample_unindexed 0
           sample_args s).
  left. reflexivity.
Defined.

(** * The multi-channel reader *)

Lemma substring_all (s : string) : String.substring 0 (String.length s) s = s.
Proof. induction s as [|c s IH]; [done|]. cbn. now rewrite IH. Qed.

Lemma osi3_name (t : string) :
  String.prefix "osi3." ("osi3." +:+ t) = true /\
  String.substring 5 (String.length ("osi3." +:+ t) - 5) ("osi3." +:+ t) = t.
Proof.
  cbv [String.app String.append]. split.
  - destruct t; vm_compute; reflexivity.
  - cbn [String.length Nat.sub String.substring]. rewrite Nat.sub_0_r.
    apply substring_all.
Qed.

Lemma topics_of_type_sub (summary : McapSummary) (channels : list Channel)
    (type_name : option string) (ts : list string) (t : string) :
  _OSITraceMulti.topics_of_type summary channels type_name = inr ts ->
  t ∈ ts -> t ∈ topic <$> channels.
Proof.
  revert ts. induction channels as [|channel rest IH]; intros ts Hts Ht;
    cbn [_OSITraceMulti.topics_of_type] in Hts.
  - simplify_eq. inversion Ht.
  - destruct (_OSITraceMulti._channel_is_of_type summary channel type_name)
      as [e|keep]; [done|].
    destruct (_OSITraceMulti.topics_of_type summary rest type_name) as [e|ts'];
      [done|].
    simplify_eq. rewrite fmap_cons.
    destruct keep; [apply elem_of_cons in Ht as [->|Ht]|];
      (apply elem_of_cons; (by left) || (right; eapply IH; eauto)).
Qed.

Lemma message_type_of_listed (summary : McapSummary) (channels : list Channel)
    (ty t : string) (ts : list string) :
  NoDup (topic <$> channels) ->
  _OSITraceMulti.topics_of_type summary channels (Some ty) = inr ts ->
  t ∈ ts ->
  _OSITraceMulti.message_type_of summary channels t = inr (Some ty).
Proof.
  revert ts. induction channels as [|channel rest IH]; intros ts Hnd Hts Ht;
    cbn [_OSITraceMulti.topics_of_type] in Hts.
  - simplify_eq. inversion Ht.
  - rewrite fmap_cons in Hnd. apply NoDup_cons in Hnd as [Hfresh Hnd].
    unfold _OSITraceMulti._channel_is_of_type in Hts.
    destruct (summary_schemas summary !! schema_id channel) as [schema|] eqn:Hsch;
      [|done].
    destruct (_OSITraceMulti.topics_of_type summary rest (Some ty)) as [e|ts'] eqn:Hrest;
      [done|].
    cbn [_OSITraceMulti.message_type_of].
    destruct (String.eqb_spec (topic channel) t) as [<-|Hne].
    + rewrite Hsch.
      destruct (String.eqb_spec (name schema) ("osi3." +:+ ty)) as [->|Hname].
      * destruct (osi3_name ty) as [-> ->]. reflexivity.
      * simplify_eq. exfalso. apply Hfresh. eapply topics_of_type_sub; eauto.
    + eapply IH; eauto.
      destruct (name schema =? "osi3." +:+ ty)%string; simplify_eq; [|done].
      apply elem_of_cons in Ht as [->|Ht]; [done|exact Ht].
Qed.

(** ** Opening a multi-channel trace *)

(** When [__init__] succeeds for a type name, the reader's topic is one of
    the topics of channels of that type, the requested one if a topic was
    given and the first such topic otherwise, and iteration has not started;
    if moreover no two channels share a topic, [get_message_type()] returns
    the requested type name, so that [__iter__] decodes with the class
    [MESSAGES_TYPE] has for it. *)
Theorem multi_init_message_type (summary : McapSummary) (ty : string)
    (topic_arg : option string) (m : MultiTrace) :
  _OSITraceMulti.__init__ summary (Some ty) topic_arg = inr m ->
  exists ts,
    _OSITraceMulti.get_available_topics summary (Some ty) = inr ts /\
    multi_topic m ∈ ts /\
    match topic_arg with
    | Some t => multi_topic m = t
    | None => head ts = Some (multi_topic m)
    end /\
    _iter m = None /\
    (NoDup (topic <$> summary_channels summary) ->
     _OSITraceMulti.get_message_type summary m = inr (Some ty)).
Proof.
  intros Hinit. unfold _OSITraceMulti.__init__ in Hinit.
  destruct (_OSITraceMulti.get_available_topics summary (Some ty)) as [e|ts] eqn:Hts;
    [done|].
  exists ts. split; [done|].
  assert (Hsel : exists t,
    match topic_arg with None => head ts | Some t => Some t end = Some t /\
    t ∈ ts /\ m = {| multi_topic := t; _iter := None |}).
  { destruct (match topic_arg with None => head ts | Some t => Some t end) as [t|];
      [|done].
    destruct (bool_decide (t ∈ ts)) eqn:Hin; [|done].
    apply bool_decide_eq_true in Hin. simplify_eq. eauto. }
  destruct Hsel as (t & Hsel & Hin & ->). cbn [multi_topic _iter].
  split; [done|]. split; [destruct topic_arg; [congruence|done]|].
  split; [done|]. intros Hnd.
  unfold _OSITraceMulti.get_message_type. cbn [multi_topic].
  eapply message_type_of_listed; eauto.
Qed.

Lemma multi_init_message_type_witness :
  let m := {| multi_topic := "gt"; _iter := None |} in
  exists ts,
    _OSITraceMulti.get_available_topics sample_multi_summary (Some "GroundTruth"%string)
      = inr ts /\
    multi_topic m ∈ ts /\
    head ts = Some (multi_topic m) /\
    _iter m = None /\
    _OSITraceMulti.get_message_type sample_multi_summary m
      = inr (Some "GroundTruth"%string).
Proof.
  intros m.
  destruct (multi_init_message_type sample_multi_summary "GroundTruth" None m)
    as (ts & Hts & Hin & Hhead & Hiter & Htype); [vm_compute; reflexivity|].
  exists ts. split; [exact Hts|]. split; [exact Hin|]. split; [exact Hhead|].
  split; [exact Hiter|]. apply Htype.
  cbn. apply NoDup_cons. split; [|apply NoDup_singleton].
  apply not_elem_of_cons. split; [discriminate|apply not_elem_of_nil].
Defined.

(** A channel whose schema id the summary has no schema for, as a channel
    without schema has, makes [get_available_topics] raise [KeyError]
    whatever type is asked for, and with it every attempt to open the file,
    whatever type and topic are requested. *)
Theorem multi_missing_schema (summary : McapSummary) (channel : Channel)
    (type_name topic_arg : option string) :
  channel ∈ summary_channels summary ->
  summary_schemas summary !! schema_id channel = None ->
  _OSITraceMulti.get_available_topics summary type_name = inl KeyError /\
  _OSITraceMulti.__init__ summary type_name topic_arg = inl (Propagated KeyError).
Proof.
  intros Hin Hsch.
  assert (Hraise : _OSITraceMulti.get_available_topics summary type_name = inl KeyError).
  { unfold _OSITraceMulti.get_available_topics.
    induction (summary_channels summary) as [|c rest IH]; [inversion Hin|].
    cbn [_OSITraceMulti.topics_of_type]. unfold _OSITraceMulti._channel_is_of_type.
    apply elem_of_cons in Hin as [<-|Hin].
    - now rewrite Hsch.
    - destruct (summary_schemas summary !! schema_id c); [|done].
      now rewrite (IH Hin). }
  split; [exact Hraise|]. unfold _OSITraceMulti.__init__. now rewrite Hraise.
Qed.

Lemma multi_missing_schema_witness :
  _OSITraceMulti.get_available_topics sample_schemaless_summary
    (Some "SensorView"%string) = inl KeyError /\
  _OSITraceMulti.__init__ sample_schemaless_summary (Some "SensorView"%string)
    (Some "sv"%string) = inl (Propagated KeyError).
Proof.
  apply (multi_missing_schema sample_schemaless_summary
           {| ch_id := 3; topic := "log"; message_encoding := "json"; schema_id := 0 |}).
  - cbn. apply elem_of_cons. right. apply elem_of_cons. right. apply elem_of_cons. now left.
  - reflexivity.
Defined.

(** ** Iterating a multi-channel trace *)

Lemma drop_length_take {A} (k : nat) (l : list A) :
  drop (length (take k l)) l = drop k l.
Proof.
  rewrite length_take. destruct (Nat.le_gt_cases k (length l)) as [Hle|Hgt].
  - now rewrite Nat.min_l.
  - rewrite Nat.min_r by lia. rewrite drop_all. symmetry. apply drop_ge. lia.
Qed.

(** Iteration is stateful.  On a reader that has not iterated yet and whose
    message type maps to a class, a loop that takes [k] messages gets the
    first [k] messages of the topic; a second loop goes on where the first
    one stopped, and yields the remaining messages; once the messages are
    used up a further loop yields nothing; and after [restart()] a loop
    yields all the messages of the topic again. *)
Theorem multi_iter_stateful (summary : McapSummary)
    (iter_messages : string -> list MessageTuple) (m : MultiTrace)
    (ty : option string) (cls : MessageClass) (k : nat) :
  _iter m = None ->
  _OSITraceMulti.get_message_type summary m = inr ty ->
  map_message_type ty = Some cls ->
  (0 < k)%nat ->
  let msgs := iter_messages (multi_topic m) in
  let decode := fmap (fun t : MessageTuple => (cls, ParseFromString (data t.2))) in
  exists m1 m2 m3,
    _OSITraceMulti.__iter__ summary iter_messages (Some k) m
      = (inr (decode (take k msgs)), m1) /\
    _OSITraceMulti.__iter__ summary iter_messages None m1
      = (inr (decode (drop k msgs)), m2) /\
    _OSITraceMulti.__iter__ summary iter_messages None m2 = (inr [], m2) /\
    _OSITraceMulti.restart None m2 = (Ok tt, m3) /\
    _OSITraceMulti.__iter__ summary iter_messages None m3 = (inr (decode msgs), m2).
Proof.
  intros Hfresh Hty Hcls Hk msgs decode.
  unfold _OSITraceMulti.get_message_type in Hty.
  assert (Hrun : forall limit it,
    limit <> Some 0%nat ->
    _OSITraceMulti.__iter__ summary iter_messages limit
      {| multi_topic := multi_topic m; _iter := it |}
    = let source := match it with None => msgs | Some rest => rest end in
      let taken := match limit with Some k => take k source | None => source end in
      (inr (decode taken),
       {| multi_topic := multi_topic m;
          _iter := Some (drop (length taken) source) |})).
  { intros limit it Hl. unfold _OSITraceMulti.__iter__.
    unfold _OSITraceMulti.get_message_type. cbn [multi_topic _iter].
    rewrite Hty, Hcls. destruct limit as [[|n]|]; [done|reflexivity|reflexivity]. }
  destruct m as [t it]. cbn [_iter multi_topic] in *. subst it.
  eexists _, _, _. split; [|split; [|split; [|split]]].
  - rewrite Hrun by (intros [=]; lia). cbv zeta. rewrite drop_length_take. reflexivity.
  - rewrite Hrun by done. cbv zeta. rewrite drop_all. reflexivity.
  - rewrite Hrun by done. reflexivity.
  - reflexivity.
  - cbn [multi_topic]. rewrite Hrun by done. cbv zeta. rewrite drop_all. reflexivity.
Qed.

Lemma multi_iter_stateful_witness :
  let m := {| multi_topic := "sv"; _iter := None |} in
  let msgs := sample_iter_messages (multi_topic m) in
  let decode :=
    fmap (fun t : MessageTuple => (SensorView, ParseFromString (data t.2))) in
  exists m1 m2 m3,
    _OSITraceMulti.__iter__ sample_multi_summary sample_iter_messages (Some 2%nat) m
      = (inr (decode (take 2 msgs)), m1) /\
    _OSITraceMulti.__iter__ sample_multi_summary sample_iter_messages None m1
      = (inr (decode (drop 2 msgs)), m2) /\
    _OSITraceMulti.__iter__ sample_multi_summary sample_iter_messages None m2
      = (inr [], m2) /\
    _OSITraceMulti.restart None m2 = (Ok tt, m3) /\
    _OSITraceMulti.__iter__ sample_multi_summary sample_iter_messages None m3
      = (inr (decode msgs), m2).
Proof.
  intros m.
  apply (multi_iter_stateful sample_multi_summary sample_iter_messages m
           (Some "SensorView"%string) SensorView 2).
  - reflexivity.
  - vm_compute. reflexivity.
  - vm_compute. reflexivity.
  - lia.
Defined.

(** ** The supported message types *)

Lemma dict_get_keys {A} (d : list (string * A)) (key : string) :
  is_Some (dict_get d key) <-> key ∈ fst <$> d.
Proof.
  induction d as [|[k v] d IH]; cbn [dict_get].
  - split; [intros [? [=]]|inversion 1].
  - rewrite fmap_cons, elem_of_cons. cbn [fst].
    destruct (String.eqb_spec k key) as [->|Hne].
    + split; [by left|by eauto].
    + rewrite IH. split; [by right|intros [->|?]; done].
Qed.

(** [message_types()] lists exactly the type names [map_message_type]
    accepts: ten names, no name twice; for every other name, and for no
    name at all, the lookup fails. *)
Theorem message_types_supported (type_name : option string) :
  (is_Some (map_message_type type_name) <->
   exists t, type_name = Some t /\ t ∈ message_types) /\
  NoDup message_types /\ length message_types = 10%nat.
Proof.
  split; [|split; [|reflexivity]].
  - destruct type_name as [t|]; cbn [map_message_type].
    + rewrite dict_get_keys. split; [eauto|]. now intros (? & [= <-] & ?).
    + split; [intros [? [=]]|intros (? & [=] & _)].
  - apply (bool_decide_unpack (NoDup message_types)). vm_compute. exact I.
Qed.
